(** * Shared utility functions of merovingian and monetdb (utils.c)

    A shallow embedding of [replacePrefix], [readConfFile], [freeConfFile],
    [findConfKey], [setConfVal], [secondsToString], [abbreviateString],
    [generateSalt], [generatePassphraseFile] and [generateUUID] (the variant
    that is compiled without libuuid), with the properties of the
    specification stated over it, and further properties of the code.

    Representation.  A C string (a [char *] argument or result) is the list
    of the characters before its terminator, so the test [*p == '\0'] on a
    pointer [p] into a string is the test that the remaining list is empty.
    A character array with a size of its own ([char buf[1024]], the [ret] and
    [buf] out-parameters) is the list of its bytes, terminators included; it
    is read as a C string with [cstr].  A write outside such an array, a
    division by zero and any other undefined operation make the model return
    an explicit failure instead of a value.

    Integers and floating point.  The types are those of a 64-bit Unix:
    [int] and [unsigned int] have 32 bits, [size_t] and [time_t] have 64
    bits, and [double] is IEEE 754 binary64, computed in double precision
    and rounded to the nearest number, ties to even.  Wrap-around is
    written out where the source can reach it.

    Memory.  Allocation always succeeds, and a string passed to a function
    shares no memory with the entry the function updates.

    Files.  A stream that is read is the list of its bytes.  The stream
    [generatePassphraseFile] writes is not modelled byte by byte: the
    function is given the answers of [fopen] and [fwrite], and returns the
    calls it made with their arguments. *)

From Stdlib Require Import ZArith Ascii String Bool Lia List.
From Stdlib Require Import DecimalString DecimalZ SpecFloat.
From Stdlib Require PrimFloat FloatOps Uint63.
From Equations Require Import Equations.
Import ListNotations.

(** ** Results of operations that C leaves undefined on some inputs *)

Inductive outcome (A : Type) : Type :=
| Returns (a : A)
| Undefined.
Arguments Returns {A} a.
Arguments Undefined {A}.

Definition bind {A B : Type} (o : outcome A) (k : A -> outcome B)
  : outcome B :=
  match o with
  | Returns a => k a
  | Undefined => Undefined
  end.

Notation "x <- o ;; k" := (bind o (fun x => k))
  (at level 61, o at next level, right associativity).

(** ** C strings and character arrays *)

Definition cstring := list ascii.

(** A string literal of the source. *)
Definition lit (s : string) : cstring := list_ascii_of_string s.
Arguments lit s%_string.

Definition NUL : ascii := Ascii.zero.

Definition code (c : ascii) : Z := Z.of_nat (nat_of_ascii c).

(** No terminator inside: what makes a list of characters a C string. *)
Definition wf_cstring (s : cstring) : Prop := Forall (fun c => c <> NUL) s.

(** The C string that starts at the beginning of a character array. *)
Fixpoint cstr (buf : list ascii) : cstring :=
  match buf with
  | [] => []
  | c :: rest => if Ascii.eqb c NUL then [] else c :: cstr rest
  end.

Definition strlen (s : cstring) : nat := length s.

(** ** The functions of libc the file calls *)

Fixpoint strcmp (a b : cstring) : Z :=
  match a, b with
  | [], [] => 0
  | [], d :: _ => (0 - code d)%Z
  | c :: _, [] => code c
  | c :: a', d :: b' =>
      if Ascii.eqb c d then strcmp a' b' else (code c - code d)%Z
  end.

Fixpoint strncmp (a b : cstring) (n : nat) {struct n} : Z :=
  match n with
  | O => 0
  | S n' =>
      match a, b with
      | [], [] => 0
      | [], d :: _ => (0 - code d)%Z
      | c :: _, [] => code c
      | c :: a', d :: b' =>
          if Ascii.eqb c d then strncmp a' b' n' else (code c - code d)%Z
      end
  end.

(** [tolower] in the C locale. *)
Definition tolower (c : ascii) : ascii :=
  let n := nat_of_ascii c in
  if (65 <=? n)%nat && (n <=? 90)%nat then ascii_of_nat (n + 32) else c.

Fixpoint strcasecmp (a b : cstring) : Z :=
  match a, b with
  | [], [] => 0
  | [], d :: _ => (0 - code (tolower d))%Z
  | c :: _, [] => code (tolower c)
  | c :: a', d :: b' =>
      if Ascii.eqb (tolower c) (tolower d) then strcasecmp a' b'
      else (code (tolower c) - code (tolower d))%Z
  end.

(** [snprintf(buf, size, ...)] keeps the first [size - 1] characters of the
    formatted text; [formatted] is that text. *)
Definition snprintf (size : nat) (formatted : cstring) : cstring :=
  firstn (size - 1) formatted.

(** [GDKstrdup] of a C string: a copy with the same characters. *)
Definition GDKstrdup (s : cstring) : cstring := s.

(** ** Config entries (confkeyval of utils.h) *)

Inductive confkeytype : Set :=
  INVALID | INT | BOOL | STR | MURI | OTHER.

(** An entry of a list; the terminating entry with a NULL key is the end of
    the Rocq list.  [val] is [None] for a NULL pointer. *)
Record confkeyval : Set := mk_confkeyval {
  key : cstring;
  type : confkeytype;
  val : option cstring
}.

Definition set_val (ckv : confkeyval) (v : option cstring) : confkeyval :=
  {| key := key ckv; type := type ckv; val := v |}.

(** The scan of the INT case: [p] advances while it points at a character
    between ['0'] and ['9']. *)
Definition is_digit (c : ascii) : bool :=
  (48 <=? nat_of_ascii c)%nat && (nat_of_ascii c <=? 57)%nat.

Fixpoint skip_digits (p : cstring) : cstring :=
  match p with
  | c :: p' => if is_digit c then skip_digits p' else p
  | [] => []
  end.

(** [setConfVal]: the returned pair is the diagnostic ([None] for NULL) and
    the entry after the call. *)
Definition setConfVal (ckv : confkeyval) (val : option cstring)
  : option cstring * confkeyval :=
  match val with
  | None => (None, set_val ckv None)
  | Some val =>
      let store v := (None, set_val ckv (Some (GDKstrdup v))) in
      match type ckv with
      | INVALID =>
          (Some (GDKstrdup (snprintf 256
             (lit "key '" ++ key ckv ++
              lit "' is unitialised (invalid value), internal error"))),
           ckv)
      | INT =>
          match skip_digits val with
          | _ :: _ =>
              (Some (GDKstrdup (snprintf 256
                 (lit "key '" ++ key ckv ++
                  lit "' requires an integer-type value, got: " ++ val))),
               ckv)
          | [] => store val
          end
      | BOOL =>
          if (strcasecmp val (lit "true") =? 0)%Z
             || (strcasecmp val (lit "yes") =? 0)%Z
             || (strcmp val (lit "1") =? 0)%Z
          then store (lit "yes")
          else if (strcasecmp val (lit "false") =? 0)%Z
                  || (strcasecmp val (lit "no") =? 0)%Z
                  || (strcmp val (lit "0") =? 0)%Z
          then store (lit "no")
          else
            (Some (GDKstrdup (snprintf 256
               (lit "key '" ++ key ckv ++
                lit "' requires a boolean-type value, got: " ++ val))),
             ckv)
      | MURI =>
          if negb (strncmp val (lit "mapi:monetdb://")
                     (strlen (lit "mapi:monetdb://")) =? 0)%Z
          then
            (Some (GDKstrdup (snprintf 256
               (lit "key '" ++ key ckv ++
                lit "' requires a mapi:monetdb:// URI value, got: " ++ val))),
             ckv)
          else store val
      | STR | OTHER => store val
      end
  end.

(** [freeConfFile]: every value of the list becomes NULL. *)
Fixpoint freeConfFile (l : list confkeyval) : list confkeyval :=
  match l with
  | [] => []
  | ckv :: rest =>
      (match val ckv with
       | Some _ => set_val ckv None
       | None => ckv
       end) :: freeConfFile rest
  end.

(** [findConfKey]: the index of the first entry with that key. *)
Fixpoint findConfKey (l : list confkeyval) (k : cstring) : option nat :=
  match l with
  | [] => None
  | ckv :: rest =>
      if (strcmp (key ckv) k =? 0)%Z then Some O
      else option_map S (findConfKey rest k)
  end.

(** ** Reading a configuration file *)

(** A stream open for reading: the bytes that were not read yet. *)
Definition FILE := list ascii.

Definition newline : ascii := ascii_of_nat 10.

(** The bytes one [fgets] call takes from the stream: up to [n] of them,
    ending after the first newline. *)
Fixpoint read_line (n : nat) (f : FILE) : list ascii * FILE :=
  match n, f with
  | O, _ => ([], f)
  | _, [] => ([], [])
  | S n', c :: f' =>
      if Ascii.eqb c newline then ([c], f')
      else let (l, r) := read_line n' f' in (c :: l, r)
  end.

(** [fgets(buf, size, cnf)]: NULL ([None]) at the end of the stream, else
    the contents of [buf] up to the terminator [fgets] appends, and the
    stream after the call.  The loop of [readConfFile] reads [buf] as a C
    string only, so the bytes of the array after that terminator are not
    part of the model. *)
Definition fgets (size : nat) (f : FILE) : option (list ascii * FILE) :=
  match f with
  | [] => None
  | _ :: _ => let (l, r) := read_line (size - 1) f in Some (l ++ [NUL], r)
  end.

(** [buf[strlen(buf) - 1] = '\0';] gives the C string in [buf] without its
    last character.  When [strlen(buf)] is 0 the index wraps around and the
    write is outside the array. *)
Definition cut_last_byte (buf : list ascii) : outcome cstring :=
  match strlen (cstr buf) with
  | O => Undefined
  | S k => Returns (firstn k (cstr buf))
  end.

Definition is_nil (s : cstring) : bool :=
  match s with [] => true | _ :: _ => false end.

(** The condition of the [if] inside the [for] loop; [buf[len]] is the
    terminator when [len] is the length of [buf]. *)
Definition key_matches (buf : cstring) (t : confkeyval) : bool :=
  let len := strlen (key t) in
  negb (is_nil buf)
  && (strncmp buf (key t) len =? 0)%Z
  && Ascii.eqb (nth len buf NUL) "="%char.

(** The [for] loop over the entries, for one line in [buf]. *)
Fixpoint readConfLine (l : list confkeyval) (buf : cstring)
  : list confkeyval :=
  match l with
  | [] => []
  | t :: rest =>
      let len := strlen (key t) in
      (if key_matches buf t
       then snd (setConfVal t (Some (skipn (len + 1) buf)))
       else t) :: readConfLine rest buf
  end.

(** A text line: no NUL, no newline, and short enough for one [fgets]
    call together with its newline. *)
Definition text_line (ln : list ascii) : Prop :=
  wf_cstring ln /\ ~ In newline ln /\ length ln < 1023.

Definition inspect {A : Type} (a : A) : {b : A | a = b} :=
  exist _ a eq_refl.

(** [readConfFile]: the [while] loop; each turn consumes at least one byte
    of the stream. *)
Equations? readConfFile (l : list confkeyval) (cnf : FILE)
  : outcome (list confkeyval) by wf (length cnf) lt :=
  readConfFile l cnf with inspect (fgets 1024 cnf) := {
    | exist _ None _ => Returns l
    | exist _ (Some (buf, rest)) H with cut_last_byte buf := {
        | Undefined => Undefined
        | Returns line => readConfFile (readConfLine l line) rest } }.
Proof.
  assert (Hrest : forall n f, length (snd (read_line n f)) <= length f).
  { induction n as [|n IH]; intros [|c f]; simpl; auto.
    destruct (Ascii.eqb c newline); simpl; auto.
    specialize (IH f). destruct (read_line n f); simpl in *; lia. }
  assert (Hgets : forall size f b r,
             fgets (S (S size)) f = Some (b, r) -> length r < length f).
  { intros size [|c f] b r; unfold fgets; [discriminate|].
    specialize (Hrest size f).
    change (S (S size) - 1) with (S size). cbn [read_line].
    destruct (Ascii.eqb c newline).
    - intros E. inversion E; subst. cbn [length]. lia.
    - destruct (read_line size f) as [chunk r']. intros E.
      inversion E; subst. cbn [length snd] in *. lia. }
  exact (Hgets 1022 cnf buf rest H).
Qed.

(** ** Character arrays with bytes that were never written *)

(** An array of [char]: [None] is a byte that holds no value yet. *)
Definition buffer := list (option ascii).

(** A local array right after its declaration. *)
Definition uninitialised (n : nat) : buffer := repeat None n.

(** The bytes of a C string in memory: the characters, then the
    terminator. *)
Definition mem (s : cstring) : list ascii := s ++ [NUL].

(** [size_t] arithmetic wraps around at 2^64. *)
Definition size_t (z : Z) : Z := (z mod 2 ^ 64)%Z.

(** [memcpy(dst + doff, src + soff, n)]; undefined when a byte outside
    [src] is read or a byte outside [dst] is written. *)
Definition memcpy (dst : buffer) (doff : Z) (src : list ascii) (soff n : Z)
  : outcome buffer :=
  if ((0 <=? doff) && (0 <=? soff) && (0 <=? n)
      && (doff + n <=? Z.of_nat (length dst))
      && (soff + n <=? Z.of_nat (length src)))%Z
  then
    Returns (firstn (Z.to_nat doff) dst
             ++ map Some (firstn (Z.to_nat n) (skipn (Z.to_nat soff) src))
             ++ skipn (Z.to_nat (doff + n)) dst)
  else Undefined.

(** Reading an array as a C string; undefined when a byte without a value
    or the end of the array comes before a terminator. *)
Fixpoint buffer_cstr (b : buffer) : outcome cstring :=
  match b with
  | [] => Undefined
  | None :: _ => Undefined
  | Some c :: rest =>
      if Ascii.eqb c NUL then Returns []
      else s <- buffer_cstr rest ;; Returns (c :: s)
  end.

(** ** replacePrefix *)

Fixpoint starts_with (needle hay : cstring) : bool :=
  match needle, hay with
  | [], _ => true
  | _ :: _, [] => false
  | c :: needle', d :: hay' => Ascii.eqb c d && starts_with needle' hay'
  end.

(** [strstr(hay, needle)]: the offset of the first occurrence, [None] for
    NULL. *)
Fixpoint strstr (hay needle : cstring) : option Z :=
  if starts_with needle hay then Some 0%Z
  else match hay with
       | [] => None
       | _ :: hay' => option_map Z.succ (strstr hay' needle)
       end.

(** [replacePrefix]; [p_s] is the difference [p - s]. *)
Definition replacePrefix (s : option cstring) (prefix : cstring)
  : outcome (option cstring) :=
  match s with
  | None => Returns None
  | Some s =>
      let buf := uninitialised 1024 in
      let slen := Z.of_nat (strlen s) in
      let plen := Z.of_nat (strlen prefix) in
      buf <- match strstr s (lit "${prefix}") with
             | Some p_s =>
                 buf <- memcpy buf 0 (mem s) 0 (size_t p_s) ;;
                 buf <- memcpy buf p_s (mem prefix) 0 plen ;;
                 memcpy buf (p_s + plen) (mem s) (p_s + 9)
                   (size_t (slen - 9 - p_s + 1))
             | None => memcpy buf 0 (mem s) 0 (size_t (slen + 1))
             end ;;
      r <- buffer_cstr buf ;;
      Returns (Some (GDKstrdup r))
  end.

(** ** secondsToString *)

(** The cast [(int)] of a [time_t]. *)
Definition to_int (z : Z) : Z := ((z + 2 ^ 31) mod 2 ^ 32 - 2 ^ 31)%Z.

(** The text of an [int] under the conversion [%d]. *)
Definition fmt_d (z : Z) : cstring :=
  list_ascii_of_string (NilZero.string_of_int (Z.to_int z)).

(** One of the four [if (t > p) { ... }] blocks.  [buf] holds the
    characters written so far, so the index [i] of the source is its
    length; [k] is the code after the block, skipped by the [return]. *)
Definition print_unit (p : Z) (unit : cstring)
    (buf : cstring) (t longness : Z)
    (k : cstring -> Z -> Z -> cstring) : cstring :=
  if (t >? p)%Z then
    let buf := buf ++ fmt_d (to_int (Z.quot t p)) ++ unit in
    let t := (t - Z.quot t p * p)%Z in
    let longness := (longness - 1)%Z in
    if (longness =? 0)%Z then buf
    else k (buf ++ lit " ") t longness
  else k buf t longness.

(** [secondsToString(buf, t, longness)]: the C string left in [buf], which
    the caller made large enough. *)
Definition secondsToString (t longness : Z) : cstring :=
  let p := (1 * 60 * 60 * 24 * 7)%Z in
  print_unit p (lit "w") [] t longness (fun buf t longness =>
  let p := Z.quot p 7 in
  print_unit p (lit "d") buf t longness (fun buf t longness =>
  let p := Z.quot p 24 in
  print_unit p (lit "h") buf t longness (fun buf t longness =>
  let p := Z.quot p 60 in
  print_unit p (lit "m") buf t longness (fun buf t longness =>
  let longness := (longness - 1)%Z in
  if (longness =? 0)%Z
     || negb ((0 <? length buf)%nat && (t =? 0)%Z)
  then buf ++ fmt_d (to_int t) ++ lit "s"
  else removelast buf)))).

(** ** abbreviateString *)

(** [abbreviateString(ret, in, width)]: the array [ret] after the call. *)
Definition abbreviateString (ret : buffer) (in_ : cstring) (width : Z)
  : outcome buffer :=
  let len := Z.of_nat (strlen in_) in
  if (len >? width)%Z then
    ret <- memcpy ret 0 (mem in_) 0 (size_t (width / 2 - 3)) ;;
    ret <- memcpy ret (width / 2 - 2) (mem (lit "...")) 0 3 ;;
    let off :=
      size_t (len - size_t (size_t (width - size_t (width / 2 - 2)) - 3)) in
    memcpy ret (width / 2 + 1) (mem in_) off (size_t (size_t (len - off) + 1))
  else
    memcpy ret 0 (mem in_) 0 (len + 1).

(** ** generateSalt *)

(** The type [double]: IEEE 754 binary64, with the operations of the
    standard library's specification of floating-point arithmetic. *)
Definition double := spec_float.
Definition prec64 : Z := 53.
Definition emax64 : Z := 1024.

(** The conversion of an [unsigned int] to [double], which is exact. *)
Definition double_of_uint (n : Z) : double :=
  binary_normalize prec64 emax64 n 0 false.

Definition double_mul (x y : double) : double := SFmul prec64 emax64 x y.

(** The constants [0.75] and [0.42] of the source: the doubles nearest to
    them, 3 * 2^-2 and 7566047373982433 * 2^-54. *)
Definition double_0_75 : double := S754_finite false 6755399441055744 (-53).
Definition double_0_42 : double := S754_finite false 7566047373982433 (-54).

(** The same product on the primitive floats of the kernel, which are the
    binary64 numbers of the machine; the examples compare the two. *)
Definition machine_product (len : Z) (c : double) : double :=
  FloatOps.Prim2SF
    (PrimFloat.mul (PrimFloat.of_uint63 (Uint63.of_Z len))
       (FloatOps.SF2Prim c)).

(** The conversion of a [double] to [unsigned int]: the fraction is
    dropped; undefined when the result is outside the type. *)
Definition uint_of_double (x : double) : outcome Z :=
  match x with
  | S754_zero _ => Returns 0%Z
  | S754_finite s m e =>
      let v := (if 0 <=? e then Zpos m * 2 ^ e else Zpos m / 2 ^ (- e))%Z in
      if s then (if (v =? 0)%Z then Returns 0%Z else Undefined)
      else if (v <? 2 ^ 32)%Z then Returns v else Undefined
  | S754_infinity _ | S754_nan => Undefined
  end.

(** Rounding [m / 2^k] to the nearest integer, ties to even. *)
Definition rne (m k : Z) : Z :=
  (let q := m / 2 ^ k in
   let r := m mod 2 ^ k in
   if 2 * r <? 2 ^ k then q
   else if 2 ^ k <? 2 * r then q + 1
   else if Z.even q then q else q + 1)%Z.

(** [unsigned int] arithmetic wraps around at 2^32. *)
Definition uint (z : Z) : Z := (z mod 2 ^ 32)%Z.

Definition seedChars : list ascii :=
  lit "abcdefghijklmnopqrstuvwxyzABCDEFGHIJKLMNOPQRSTUVWXYZ1234567890".

Definition RAND_MAX : Z := (2 ^ 31 - 1)%Z.

(** [buf[c] = ch;] *)
Definition store (buf : buffer) (c : Z) (ch : ascii) : outcome buffer :=
  if ((0 <=? c) && (c <? Z.of_nat (length buf)))%Z
  then Returns (firstn (Z.to_nat c) buf ++ Some ch
                :: skipn (S (Z.to_nat c)) buf)
  else Undefined.

(** The array after [buf[c] = ch;] when [c] is inside it. *)
Definition update (buf : buffer) (c : nat) (ch : ascii) : buffer :=
  firstn c buf ++ Some ch :: skipn (S c) buf.

(** [for ( ; c < len; c++) buf[c] = '\0';] with [n] turns left. *)
Fixpoint pad_nul (n : nat) (c : Z) (buf : buffer) : outcome buffer :=
  match n with
  | O => Returns buf
  | S n' => buf <- store buf c NUL ;; pad_nul n' (c + 1)%Z buf
  end.

Section RandomSource.

(** The state of the random number generator, and [rand()]: the number it
    returns and the state after the call. *)
Variable rng : Type.
Variable rand : rng -> Z * rng.

(** [for (c = 0; c < size; c++) buf[c] = seedChars[rand() % 62];] with
    [n] turns left. *)
Fixpoint fill_random (n : nat) (c : Z) (buf : buffer) (st : rng)
  : outcome (buffer * rng) :=
  match n with
  | O => Returns (buf, st)
  | S n' =>
      let (r, st) := rand st in
      let i := Z.rem r 62 in
      if ((0 <=? i) && (i <? Z.of_nat (length seedChars)))%Z then
        buf <- store buf c (nth (Z.to_nat i) seedChars NUL) ;;
        fill_random n' (c + 1)%Z buf st
      else Undefined
  end.

(** [generateSalt(buf, len)]: the array and the state of the generator
    after the call. *)
Definition generateSalt (buf : buffer) (len : Z) (st : rng)
  : outcome (buffer * rng) :=
  let (r, st) := rand st in
  let size := uint r in
  fill <- uint_of_double (double_mul (double_of_uint len) double_0_75) ;;
  min <- uint_of_double (double_mul (double_of_uint len) double_0_42) ;;
  if (uint (fill - min) =? 0)%Z then Undefined
  else
    let size := uint (size mod uint (fill - min) + min) in
    bs <- fill_random (Z.to_nat size) 0 buf st ;;
    buf <- pad_nul (Z.to_nat (len - size)) size (fst bs) ;;
    Returns (buf, snd bs).

End RandomSource.

Arguments fill_random {rng} rand n c buf st.
Arguments generateSalt {rng} rand buf len st.

(** ** The vocabulary of the specification *)

(** Equality of two strings up to the case of their letters. *)
Definition ci_eq (a b : cstring) : Prop := map tolower a = map tolower b.

(** The inputs a BOOL entry takes for true, and for false. *)
Definition truthy (v : cstring) : Prop :=
  ci_eq v (lit "true") \/ ci_eq v (lit "yes") \/ v = lit "1".

Definition falsy (v : cstring) : Prop :=
  ci_eq v (lit "false") \/ ci_eq v (lit "no") \/ v = lit "0".

(** [canonical_form t v stored]: [stored] is the canonical form of the
    input [v] for an entry of type [t]. *)
Inductive canonical_form
  : confkeytype -> option cstring -> option cstring -> Prop :=
| canonical_unset (t : confkeytype) : canonical_form t None None
| canonical_INT (v : cstring) : canonical_form INT (Some v) (Some v)
| canonical_MURI (v : cstring) : canonical_form MURI (Some v) (Some v)
| canonical_STR (v : cstring) : canonical_form STR (Some v) (Some v)
| canonical_OTHER (v : cstring) : canonical_form OTHER (Some v) (Some v)
| canonical_yes (v : cstring) :
    truthy v -> canonical_form BOOL (Some v) (Some (lit "yes"))
| canonical_no (v : cstring) :
    falsy v -> canonical_form BOOL (Some v) (Some (lit "no")).

(** An argument of type [char *]: NULL or a C string. *)
Definition wf_arg (v : option cstring) : Prop :=
  match v with
  | None => True
  | Some s => wf_cstring s
  end.

(** A non-empty string of ASCII decimal digits. *)
Definition all_digits (v : cstring) : Prop :=
  v <> [] /\ Forall (fun c => is_digit c = true) v.

(** The line handler the specification describes: the first entry of the
    list whose key, followed by ['='], starts the line receives the rest of
    the line; the entries after it are not looked at. *)
Fixpoint load_line (l : list confkeyval) (line : cstring)
  : list confkeyval :=
  match l with
  | [] => []
  | t :: rest =>
      if starts_with (key t ++ lit "=") line
      then snd (setConfVal t (Some (skipn (strlen (key t) + 1) line)))
           :: rest
      else t :: load_line rest line
  end.

(** Keys as configuration lists declare them: C strings without ['='],
    no two of them equal. *)
Definition plain_key (k : cstring) : Prop :=
  wf_cstring k /\ ~ In "="%char k.

Definition plain_keys (l : list confkeyval) : Prop :=
  Forall (fun t => plain_key (key t)) l /\ NoDup (map key l).

(** The entries of the examples. *)
Definition entry (k : string) (t : confkeytype) (v : option string)
  : confkeyval :=
  mk_confkeyval (lit k) t (option_map lit v).
Arguments entry k%_string t v.

(** [needle] occurs in [hay] at offset [i]. *)
Definition occurs_at (needle hay : cstring) (i : nat) : Prop :=
  exists a b, hay = a ++ needle ++ b /\ length a = i.

(** The token of [replacePrefix]. *)
Definition token : cstring := lit "${prefix}".

(** [replaced prefix s r]: [r] is [s] with the first occurrence of the token
    replaced by [prefix], or [s] itself when the token does not occur. *)
Inductive replaced (prefix : cstring) : cstring -> cstring -> Prop :=
| replaced_absent (s : cstring) :
    (forall i, ~ occurs_at token s i) -> replaced prefix s s
| replaced_first (a b : cstring) :
    (forall i, i < length a -> ~ occurs_at token (a ++ token ++ b) i) ->
    replaced prefix (a ++ token ++ b) (a ++ prefix ++ b).

(** Reading a duration back: components separated by one space, each an
    integer followed by a unit letter; the value is the sum of the integers
    times the weights of their units. *)
Definition unit_weight (c : ascii) : option Z :=
  if Ascii.eqb c "w" then Some 604800%Z
  else if Ascii.eqb c "d" then Some 86400%Z
  else if Ascii.eqb c "h" then Some 3600%Z
  else if Ascii.eqb c "m" then Some 60%Z
  else if Ascii.eqb c "s" then Some 1%Z
  else None.

Fixpoint split_at_spaces (s : cstring) : list cstring :=
  match s with
  | [] => [[]]
  | c :: s' =>
      if Ascii.eqb c " " then [] :: split_at_spaces s'
      else match split_at_spaces s' with
           | tok :: toks => (c :: tok) :: toks
           | [] => [[c]]
           end
  end.

Definition component_value (tok : cstring) : option Z :=
  match rev tok with
  | [] => None
  | u :: digits =>
      match unit_weight u,
            NilZero.int_of_string (string_of_list_ascii (rev digits)) with
      | Some w, Some n => Some (Z.of_int n * w)%Z
      | _, _ => None
      end
  end.

Fixpoint sum_components (toks : list cstring) : option Z :=
  match toks with
  | [] => Some 0%Z
  | tok :: rest =>
      match component_value tok, sum_components rest with
      | Some a, Some b => Some (a + b)%Z
      | _, _ => None
      end
  end.

Definition duration_value (s : cstring) : option Z :=
  sum_components (split_at_spaces s).

(** [abbreviated in_ width r]: the result the specification asks of
    [abbreviateString] for the input [in_] and the width [width]. *)
Definition abbreviated (in_ : cstring) (width : nat) (r : cstring) : Prop :=
  length r = Nat.min (length in_) width
  /\ (length in_ <= width -> r = in_)
  /\ (width < length in_ ->
      exists p s, r = p ++ lit "..." ++ s
                  /\ length p = width / 2 - 3
                  /\ p = firstn (length p) in_
                  /\ s = skipn (length in_ - length s) in_).

(** A lowercase letter, an uppercase letter or a digit. *)
Definition alphanumeric (c : ascii) : Prop :=
  let n := nat_of_ascii c in
  97 <= n <= 122 \/ 65 <= n <= 90 \/ 48 <= n <= 57.

(** A random source for the examples: the linear congruential generator
    of the C standard's sample [rand], its state the last seed. *)
Definition lcg (seed : Z) : Z * Z :=
  let next := ((seed * 1103515245 + 12345) mod 2 ^ 31)%Z in (next, next).

(** ** The values of a configuration list *)

(** The values an entry of type [t] holds after a call that stored one. *)
Definition valid_value (t : confkeytype) (v : cstring) : Prop :=
  match t with
  | INVALID => False
  | INT => Forall (fun c => is_digit c = true) v
  | BOOL => v = lit "yes" \/ v = lit "no"
  | MURI => exists r, v = lit "mapi:monetdb://" ++ r
  | STR | OTHER => True
  end.

Definition well_typed (e : confkeyval) : Prop :=
  match val e with
  | None => True
  | Some v => valid_value (type e) v
  end.

(** The inputs [setConfVal] takes for an entry of type [t]. *)
Definition acceptable (t : confkeytype) (v : cstring) : Prop :=
  match t with
  | INVALID => False
  | INT => Forall (fun c => is_digit c = true) v
  | BOOL => truthy v \/ falsy v
  | MURI => exists r, v = lit "mapi:monetdb://" ++ r
  | STR | OTHER => True
  end.

(** An entry before and after lines were loaded: it is as it was, or it
    holds a value that is valid for its type. *)
Definition loaded (e e' : confkeyval) : Prop :=
  e' = e
  \/ exists v, e' = set_val e (Some v) /\ valid_value (type e) v.

(** What a line does to one entry: the body of the [for] loop of
    [readConfFile]. *)
Definition line_step (line : cstring) (t : confkeyval) : confkeyval :=
  if key_matches line t
  then snd (setConfVal t (Some (skipn (strlen (key t) + 1) line)))
  else t.

(** An entry without its value. *)
Definition unset (e : confkeyval) : confkeyval :=
  mk_confkeyval (key e) (type e) None.

(** The number of components of a duration. *)
Definition components (s : cstring) : nat := length (split_at_spaces s).

(** ** The callers of rand *)

(** [seedChars[r % 62]] for a number [r] of [rand]. *)
Definition salt_char (r : Z) : ascii :=
  nth (Z.to_nat (Z.rem r 62)) seedChars NUL.

(** ** generateUUID, the variant without libuuid *)

(** [strdup] of a C string: a copy with the same characters. *)
Definition strdup (s : cstring) : cstring := s.

Definition hex_digit (n : Z) : ascii :=
  nth (Z.to_nat n) (lit "0123456789abcdef") NUL.

(** The digits of [z] in base 16, the most significant first, before
    [acc]; at most [n] of them. *)
Fixpoint fmt_x_digits (n : nat) (z : Z) (acc : cstring) : cstring :=
  match n with
  | O => acc
  | S n' =>
      let acc := hex_digit (z mod 16) :: acc in
      if (z / 16 =? 0)%Z then acc else fmt_x_digits n' (z / 16) acc
  end.

(** The text of an [int] under the conversion [%04x], which reads it as
    an [unsigned int]: its digits in base 16, after zeros when they are
    fewer than four. *)
Definition fmt_04x (z : Z) : cstring :=
  let digits := fmt_x_digits 8 (uint z) [] in
  repeat "0"%char (4 - length digits) ++ digits.

(** [snprintf(out + p, size, ...)] for a [size] of at least 1: the array
    after the call and the number returned, the length of the whole
    formatted text. *)
Definition snprintf_at (out : buffer) (p : Z) (size : nat)
    (formatted : cstring) : outcome (buffer * Z) :=
  let text := mem (snprintf size formatted) in
  out <- memcpy out p text 0 (Z.of_nat (length text)) ;;
  Returns (out, Z.of_nat (length formatted)).

(** A lowercase hexadecimal digit. *)
Definition is_hex (c : ascii) : bool :=
  let n := nat_of_ascii c in
  (48 <=? n)%nat && (n <=? 57)%nat || (97 <=? n)%nat && (n <=? 102)%nat.

(** [matches_pattern s pat]: [s] has a hyphen where [pat] has one and a
    hexadecimal digit everywhere else, and the length of [pat]. *)
Fixpoint matches_pattern (s pat : cstring) : bool :=
  match s, pat with
  | [], [] => true
  | c :: s', p :: pat' =>
      (if Ascii.eqb p "-" then Ascii.eqb c "-" else is_hex c)
      && matches_pattern s' pat'
  | _, _ => false
  end.

(** Four hexadecimal digits. *)
Definition hex_group (s : cstring) : bool :=
  (length s =? 4)%nat && forallb is_hex s.

Definition uuid_pattern : cstring :=
  lit "xxxxxxxx-xxxx-xxxx-xxxx-xxxxxxxxxxxx".

(** ** generatePassphraseFile *)

(** The calls the function makes to the stream functions of libc, each
    with what it was answered. *)
Inductive stdio_call : Type :=
| call_fopen (path mode : cstring) (opened : bool)
| call_fwrite (bytes : list ascii) (count : Z)
| call_fclose.

(** What the system answers: whether [fopen] opens the file, the number
    [fwrite] returns, and the text of [strerror(errno)] after each of the
    two failures. *)
Record stdio_answers : Type := mk_stdio_answers {
  opens : bool;
  written : Z;
  open_error : cstring;
  write_error : cstring
}.

(** Reading the first [n] bytes of an array; undefined when one of them
    was never written or is outside the array. *)
Fixpoint read_bytes (b : buffer) (n : nat) {struct n}
  : outcome (list ascii) :=
  match n, b with
  | O, _ => Returns []
  | S n', Some c :: rest => s <- read_bytes rest n' ;; Returns (c :: s)
  | S _, _ => Undefined
  end.

Section RandomCallers.

Variable rng : Type.
Variable rand : rng -> Z * rng.

(** The next [n] numbers of [rand], and the state after them. *)
Fixpoint draws (n : nat) (st : rng) : list Z * rng :=
  match n with
  | O => ([], st)
  | S n' =>
      let (r, st) := rand st in
      let (rs, st) := draws n' st in (r :: rs, st)
  end.

(** One statement [p += snprintf(p, size, "%04x...", rand() % 65536);] of
    [generateUUID]; [suffix] is what the format has after [%04x]. *)
Definition uuid_group (size : nat) (suffix : cstring)
    (s : buffer * Z * rng) : outcome (buffer * Z * rng) :=
  let '(out, p, st) := s in
  let (r, st) := rand st in
  w <- snprintf_at out p size (fmt_04x (Z.rem r 65536) ++ suffix) ;;
  Returns (fst w, (p + snd w)%Z, st).

(** [generateUUID]: the string returned and the state of the generator
    after the call. *)
Definition generateUUID (st : rng) : outcome (cstring * rng) :=
  s <- uuid_group 5 [] (uninitialised 37, 0%Z, st) ;;
  s <- uuid_group 6 (lit "-") s ;;
  s <- uuid_group 6 (lit "-") s ;;
  s <- uuid_group 6 (lit "-") s ;;
  s <- uuid_group 6 (lit "-") s ;;
  s <- uuid_group 5 [] s ;;
  s <- uuid_group 5 [] s ;;
  s <- uuid_group 5 [] s ;;
  out <- buffer_cstr (fst (fst s)) ;;
  Returns (strdup out, snd s).

(** [generatePassphraseFile(path)]: the diagnostic returned ([None] for
    NULL), the calls made to the stream functions and the state of the
    generator after the call. *)
Definition generatePassphraseFile (path : cstring) (env : stdio_answers)
    (st : rng) : outcome (option cstring * list stdio_call * rng) :=
  let len := 48%Z in
  s <- generateSalt rand (uninitialised 48) len st ;;
  let (buf, st) := s in
  if negb (opens env) then
    Returns (Some (strdup (snprintf 512
                     (lit "unable to open '" ++ path ++ lit "': "
                      ++ open_error env))),
             [call_fopen path (lit "w") false], st)
  else
    bytes <- read_bytes buf (Z.to_nat len) ;;
    if (written env <? len)%Z then
      Returns (Some (strdup (snprintf 512
                       (lit "cannot write secret: " ++ write_error env))),
               [call_fopen path (lit "w") true;
                call_fwrite bytes (written env); call_fclose], st)
    else
      Returns (None,
               [call_fopen path (lit "w") true;
                call_fwrite bytes (written env); call_fclose], st).

End RandomCallers.

Arguments draws {rng} rand n st.
Arguments uuid_group {rng} rand size suffix s.
Arguments generateUUID {rng} rand st.
Arguments generatePassphraseFile {rng} rand path env st.

(** * Properties *)

(** ** Characters and the comparison functions *)

Lemma code_zero_iff (c : ascii) : code c = 0%Z <-> c = NUL.
Proof.
  unfold code, NUL. split.
  - intros H. rewrite <- (ascii_nat_embedding c).
    replace (nat_of_ascii c) with O by lia. reflexivity.
  - intros ->. reflexivity.
Qed.

Lemma tolower_NUL_iff (c : ascii) : tolower c = NUL <-> c = NUL.
Proof.
  destruct c as [[] [] [] [] [] [] [] []]; vm_compute; split; congruence.
Qed.

Lemma wf_cstring_lit_check (s : cstring) :
  forallb (fun c => negb (Ascii.eqb c NUL)) s = true -> wf_cstring s.
Proof.
  unfold wf_cstring. rewrite forallb_forall, Forall_forall.
  intros H c Hc ->. specialize (H _ Hc).
  rewrite Ascii.eqb_refl in H. discriminate.
Qed.

Ltac wf_lit := apply wf_cstring_lit_check; vm_compute; reflexivity.

Lemma strcmp_eq_iff (a b : cstring) :
  wf_cstring a -> wf_cstring b -> (strcmp a b = 0%Z <-> a = b).
Proof.
  intros Ha. revert b.
  induction Ha as [|c a Hc Ha IH]; intros b Hb;
    destruct Hb as [|d b Hd Hb]; simpl.
  - split; reflexivity.
  - split; [|discriminate].
    intros H. exfalso. apply Hd, code_zero_iff. lia.
  - split; [|discriminate].
    intros H. exfalso. apply Hc, code_zero_iff. lia.
  - destruct (Ascii.eqb_spec c d) as [->|Hne].
    + rewrite (IH b Hb). split; congruence.
    + split; [|congruence].
      intros H. exfalso. apply Hne.
      rewrite <- (ascii_nat_embedding c), <- (ascii_nat_embedding d).
      f_equal. unfold code in H. lia.
Qed.

Lemma strcasecmp_eq_iff (a b : cstring) :
  wf_cstring a -> wf_cstring b -> (strcasecmp a b = 0%Z <-> ci_eq a b).
Proof.
  unfold ci_eq. intros Ha. revert b.
  induction Ha as [|c a Hc Ha IH]; intros b Hb;
    destruct Hb as [|d b Hd Hb]; simpl.
  - split; reflexivity.
  - split; [|discriminate].
    intros H. exfalso. apply Hd, tolower_NUL_iff, code_zero_iff. lia.
  - split; [|discriminate].
    intros H. exfalso. apply Hc, tolower_NUL_iff, code_zero_iff. lia.
  - destruct (Ascii.eqb_spec (tolower c) (tolower d)) as [Heq|Hne].
    + rewrite (IH b Hb), Heq. split; congruence.
    + split; [|congruence].
      intros H. exfalso. apply Hne.
      rewrite <- (ascii_nat_embedding (tolower c)).
      rewrite <- (ascii_nat_embedding (tolower d)).
      f_equal. unfold code in H. lia.
Qed.

(** [strncmp] over the length of [b] tests whether [a] starts with [b]. *)
Lemma strncmp_prefix_iff (a b : cstring) :
  wf_cstring b ->
  (strncmp a b (strlen b) = 0%Z <-> firstn (strlen b) a = b).
Proof.
  unfold strlen. intros Hb. revert a.
  induction Hb as [|d b Hd Hb IH]; intros a; simpl.
  - split; reflexivity.
  - destruct a as [|c a].
    + split; [|discriminate].
      intros H. exfalso. apply Hd, code_zero_iff. lia.
    + destruct (Ascii.eqb_spec c d) as [->|Hne].
      * rewrite (IH a). split; congruence.
      * split; [|congruence].
        intros H. exfalso. apply Hne.
        rewrite <- (ascii_nat_embedding c), <- (ascii_nat_embedding d).
        f_equal. unfold code in H. lia.
Qed.

(** ** setConfVal *)

Lemma truthy_test (v : cstring) :
  wf_cstring v ->
  ((strcasecmp v (lit "true") =? 0)%Z
   || (strcasecmp v (lit "yes") =? 0)%Z
   || (strcmp v (lit "1") =? 0)%Z = true <-> truthy v).
Proof.
  intros Hv. unfold truthy.
  rewrite !orb_true_iff, !Z.eqb_eq.
  rewrite !strcasecmp_eq_iff, strcmp_eq_iff by (assumption || wf_lit).
  tauto.
Qed.

Lemma falsy_test (v : cstring) :
  wf_cstring v ->
  ((strcasecmp v (lit "false") =? 0)%Z
   || (strcasecmp v (lit "no") =? 0)%Z
   || (strcmp v (lit "0") =? 0)%Z = true <-> falsy v).
Proof.
  intros Hv. unfold falsy.
  rewrite !orb_true_iff, !Z.eqb_eq.
  rewrite !strcasecmp_eq_iff, strcmp_eq_iff by (assumption || wf_lit).
  tauto.
Qed.

Lemma truthy_not_falsy (v : cstring) : truthy v -> falsy v -> False.
Proof.
  unfold truthy, falsy, ci_eq.
  intros [H|[H|H]] [H'|[H'|H']]; try (rewrite H in H'; discriminate H');
    subst; discriminate.
Qed.

(** The scan of the INT case stops at the first character that is not a
    digit, or at the end. *)
Lemma skip_digits_nil_iff (v : cstring) :
  skip_digits v = [] <-> Forall (fun c => is_digit c = true) v.
Proof.
  induction v as [|c v IH]; simpl.
  - split; auto.
  - destruct (is_digit c) eqn:Hc.
    + rewrite IH. split; [auto|]. intros H; inversion H; auto.
    + split; [discriminate|]. intros H; inversion H; congruence.
Qed.

(** What [setConfVal] does with the two BOOL outcomes and with a diagnostic,
    as three equations. *)
Lemma setConfVal_BOOL_cases (e : confkeyval) (v : cstring) :
  type e = BOOL -> wf_cstring v ->
  (truthy v /\
     setConfVal e (Some v) = (None, set_val e (Some (lit "yes"))))
  \/ (falsy v /\
     setConfVal e (Some v) = (None, set_val e (Some (lit "no"))))
  \/ (~ truthy v /\ ~ falsy v /\
     exists d, setConfVal e (Some v) = (Some d, e)).
Proof.
  intros Ht Hv. unfold setConfVal. rewrite Ht.
  pose proof (truthy_test v Hv) as Hy. pose proof (falsy_test v Hv) as Hn.
  destruct (_ || _ || _).
  - left. split; [apply Hy|]; reflexivity.
  - destruct (_ || _ || _).
    + right; left. split; [apply Hn|]; reflexivity.
    + right; right. split; [|split].
      * intros H. apply Hy in H. discriminate.
      * intros H. apply Hn in H. discriminate.
      * eexists. reflexivity.
Qed.

(** C1. [setConfVal] is atomic on the value of the entry: it returns a
    diagnostic and leaves the entry as it was, or it returns NULL and the
    value is the canonical form of the input for the type of the entry (the
    input itself for INT, MURI, STR and OTHER, ["yes"] or ["no"] for BOOL,
    NULL for a NULL input). *)
Theorem setConfVal_atomic (e : confkeyval) (v : option cstring) :
  wf_arg v ->
  (exists d, setConfVal e v = (Some d, e))
  \/ (exists e', setConfVal e v = (None, e')
                 /\ canonical_form (type e) v (val e')).
Proof.
  intros Hv. destruct v as [v|]; simpl in Hv.
  2:{ right. eexists. split; [reflexivity|]. constructor. }
  destruct (type e) eqn:Ht.
  - left. unfold setConfVal. rewrite Ht. eexists. reflexivity.
  - unfold setConfVal. rewrite Ht. destruct (skip_digits v).
    + right. eexists. split; [reflexivity|]. constructor.
    + left. eexists. reflexivity.
  - rewrite <- Ht.
    destruct (setConfVal_BOOL_cases e v Ht Hv) as [[H ->]|[[H ->]|[_ [_ [d ->]]]]].
    + right. eexists. split; [reflexivity|]. rewrite Ht. now constructor.
    + right. eexists. split; [reflexivity|]. rewrite Ht. now constructor.
    + left. eexists. reflexivity.
  - right. unfold setConfVal. rewrite Ht. eexists. split; [reflexivity|].
    constructor.
  - unfold setConfVal. rewrite Ht. destruct (negb _).
    + left. eexists. reflexivity.
    + right. eexists. split; [reflexivity|]. constructor.
  - right. unfold setConfVal. rewrite Ht. eexists. split; [reflexivity|].
    constructor.
Qed.

Lemma setConfVal_atomic_witness :
  wf_arg (Some (lit "TRUE"))
  /\ ((exists d, setConfVal (mk_confkeyval (lit "exit") BOOL None)
                   (Some (lit "TRUE"))
                 = (Some d, mk_confkeyval (lit "exit") BOOL None))
      \/ (exists e', setConfVal (mk_confkeyval (lit "exit") BOOL None)
                       (Some (lit "TRUE")) = (None, e')
                     /\ canonical_form BOOL (Some (lit "TRUE")) (val e'))).
Proof.
  assert (H : wf_arg (Some (lit "TRUE"))) by (simpl; wf_lit).
  split; [exact H|].
  exact (setConfVal_atomic (mk_confkeyval (lit "exit") BOOL None) _ H).
Defined.

(** C2. On a BOOL entry the inputs that are true, yes (in any case of the
    letters) or 1 store ["yes"], the inputs that are false, no or 0 store
    ["no"], both returning NULL, and every other input returns a
    diagnostic; true, TRUE, yes, YES, 1 are of the first kind and false,
    FALSE, no, NO, 0 of the second. *)
Theorem setConfVal_BOOL (e : confkeyval) (v : cstring) :
  type e = BOOL -> wf_cstring v ->
  (truthy v ->
     setConfVal e (Some v) = (None, set_val e (Some (lit "yes"))))
  /\ (falsy v ->
     setConfVal e (Some v) = (None, set_val e (Some (lit "no"))))
  /\ (~ truthy v -> ~ falsy v ->
     exists d, setConfVal e (Some v) = (Some d, e))
  /\ Forall truthy
       [lit "true"; lit "TRUE"; lit "yes"; lit "YES"; lit "1"]
  /\ Forall falsy
       [lit "false"; lit "FALSE"; lit "no"; lit "NO"; lit "0"].
Proof.
  intros Ht Hv.
  destruct (setConfVal_BOOL_cases e v Ht Hv) as [[H E]|[[H E]|[Hy [Hn E]]]].
  - split; [|split; [|split; [|split]]]; auto.
    + intros H'. destruct (truthy_not_falsy v H H').
    + tauto.
    + repeat constructor; unfold truthy, ci_eq; vm_compute; tauto.
    + repeat constructor; unfold falsy, ci_eq; vm_compute; tauto.
  - split; [|split; [|split; [|split]]]; auto.
    + intros H'. destruct (truthy_not_falsy v H' H).
    + tauto.
    + repeat constructor; unfold truthy, ci_eq; vm_compute; tauto.
    + repeat constructor; unfold falsy, ci_eq; vm_compute; tauto.
  - split; [|split; [|split; [|split]]]; auto; try tauto.
    + repeat constructor; unfold truthy, ci_eq; vm_compute; tauto.
    + repeat constructor; unfold falsy, ci_eq; vm_compute; tauto.
Qed.

Lemma setConfVal_BOOL_witness :
  type (mk_confkeyval (lit "exit") BOOL None) = BOOL
  /\ wf_cstring (lit "TRUE")
  /\ setConfVal (mk_confkeyval (lit "exit") BOOL None) (Some (lit "TRUE"))
     = (None, mk_confkeyval (lit "exit") BOOL (Some (lit "yes"))).
Proof.
  assert (Hv : wf_cstring (lit "TRUE")) by wf_lit.
  split; [reflexivity|]. split; [exact Hv|].
  destruct (setConfVal_BOOL (mk_confkeyval (lit "exit") BOOL None)
              (lit "TRUE") eq_refl Hv) as [Hyes _].
  apply Hyes. unfold truthy, ci_eq. left. reflexivity.
Defined.

(** On an INT entry a diagnostic is returned exactly when the input has a
    character that is not a decimal digit. *)
Lemma setConfVal_INT_diagnostic_iff (e : confkeyval) (v : cstring) :
  type e = INT ->
  ((exists d, setConfVal e (Some v) = (Some d, e))
   <-> ~ Forall (fun c => is_digit c = true) v).
Proof.
  intros Ht. rewrite <- skip_digits_nil_iff.
  unfold setConfVal. rewrite Ht.
  destruct (skip_digits v); split.
  - intros [d H]. discriminate.
  - intros H. now destruct H.
  - discriminate.
  - intros _. eexists. reflexivity.
Qed.

Lemma setConfVal_INT_accepts_digits (e : confkeyval) (v : cstring) :
  type e = INT -> Forall (fun c => is_digit c = true) v ->
  setConfVal e (Some v) = (None, set_val e (Some v)).
Proof.
  intros Ht Hv. apply skip_digits_nil_iff in Hv.
  unfold setConfVal. rewrite Ht, Hv. reflexivity.
Qed.

(** C3. The specification asks for a diagnostic on every input of an INT
    entry that is not a non-empty string of decimal digits.  The empty
    string is not all digits in that sense, yet the scan of the INT case
    ends at once on it: no diagnostic is returned and the empty string
    replaces the value of the entry. *)
Theorem setConfVal_INT_empty_string :
  ~ all_digits (lit "")
  /\ setConfVal (entry "port" INT (Some "50000"%string)) (Some (lit ""))
     = (None, entry "port" INT (Some ""%string)).
Proof.
  split; [|reflexivity]. intros [H _]. now apply H.
Qed.

(** The scenarios of the specification: a BOOL entry takes [TRUE] as
    [yes] and keeps it when [maybe] is refused; an INT entry keeps [50000]
    when [80a] is refused. *)
Example setConfVal_scenarios :
  setConfVal (entry "exit" BOOL None) (Some (lit "TRUE"))
  = (None, entry "exit" BOOL (Some "yes"%string))
  /\ snd (setConfVal (entry "exit" BOOL (Some "yes"%string))
            (Some (lit "maybe")))
     = entry "exit" BOOL (Some "yes"%string)
  /\ fst (setConfVal (entry "port" INT (Some "50000"%string))
            (Some (lit "80a")))
     = Some (lit "key 'port' requires an integer-type value, got: 80a")
  /\ snd (setConfVal (entry "port" INT (Some "50000"%string))
            (Some (lit "80a")))
     = entry "port" INT (Some "50000"%string).
Proof. repeat split; reflexivity. Qed.

(** Every field but [val] is kept. *)
Lemma setConfVal_frame (e : confkeyval) (v : option cstring) :
  key (snd (setConfVal e v)) = key e
  /\ type (snd (setConfVal e v)) = type e.
Proof.
  unfold setConfVal. destruct v as [v|]; [|split; reflexivity].
  destruct (type e) eqn:Ht; simpl;
    repeat match goal with
           | |- context [if ?b then _ else _] => destruct b
           | |- context [match skip_digits ?x with _ => _ end] =>
               destruct (skip_digits x)
           end; split; simpl; congruence.
Qed.

(** ** freeConfFile *)

Lemma freeConfFile_frame (l : list confkeyval) :
  map key (freeConfFile l) = map key l
  /\ map type (freeConfFile l) = map type l.
Proof.
  induction l as [|e l [IHk IHt]]; simpl; [split; reflexivity|].
  rewrite IHk, IHt. destruct (val e); split; reflexivity.
Qed.

Lemma freeConfFile_values (l : list confkeyval) :
  Forall (fun e => val e = None) (freeConfFile l).
Proof.
  induction l as [|e l IH]; simpl; constructor; auto.
  destruct (val e) eqn:H; auto.
Qed.

(** ** readConfFile *)

Arguments setConfVal : simpl never.
Arguments lit : simpl never.

Lemma read_line_rest (n : nat) (f : FILE) :
  length (snd (read_line n f)) <= length f.
Proof.
  revert f; induction n as [|n IH]; intros [|c f]; simpl; auto.
  destruct (Ascii.eqb c newline); simpl; auto.
  specialize (IH f). destruct (read_line n f); simpl in *; lia.
Qed.

Lemma fgets_rest (size : nat) (f : FILE) (buf : list ascii) (r : FILE) :
  2 <= size -> fgets size f = Some (buf, r) -> length r < length f.
Proof.
  intros Hs. unfold fgets. destruct f as [|c f]; [discriminate|].
  destruct size as [|[|n]]; try lia. simpl.
  destruct (Ascii.eqb c newline).
  - intros H; inversion H; subst; simpl; lia.
  - pose proof (read_line_rest n f) as Hr. destruct (read_line n f).
    intros H; inversion H; subst. simpl in *; lia.
Qed.

Lemma readConfFile_while (l : list confkeyval) (cnf : FILE) :
  readConfFile l cnf =
  match fgets 1024 cnf with
  | None => Returns l
  | Some (buf, rest) =>
      line <- cut_last_byte buf ;; readConfFile (readConfLine l line) rest
  end.
Proof.
  funelim (readConfFile l cnf).
  all: match goal with E : fgets _ _ = _ |- _ => rewrite E end; simpl.
  all: try match goal with E : cut_last_byte _ = _ |- _ => rewrite E end.
  all: reflexivity.
Qed.

(** What one [fgets] call reads. *)
Lemma read_line_split (n : nat) (f : FILE) :
  f = fst (read_line n f) ++ snd (read_line n f)
  /\ length (fst (read_line n f)) <= n.
Proof.
  revert f. induction n as [|n IH]; intros [|c f]; simpl;
    try (split; [reflexivity|lia]).
  destruct (Ascii.eqb c newline); simpl; [split; [reflexivity|lia]|].
  destruct (IH f) as [IH1 IH2]. destruct (read_line n f) as [a b].
  simpl in *. split; [congruence|lia].
Qed.

Lemma fgets_chunk (size : nat) (f : FILE) (buf : list ascii) (rest : FILE) :
  2 <= size -> fgets size f = Some (buf, rest) ->
  exists chunk, buf = chunk ++ [NUL] /\ f = chunk ++ rest
                /\ chunk <> [] /\ length chunk <= size - 1.
Proof.
  intros Hs. unfold fgets. destruct f as [|c f]; [discriminate|].
  pose proof (read_line_split (size - 1) (c :: f)) as [Hsplit Hlen].
  destruct (read_line (size - 1) (c :: f)) as [chunk r] eqn:E.
  simpl in Hsplit, Hlen. intros H; inversion H; subst buf rest.
  exists chunk. repeat split; auto.
  intros ->. destruct size as [|[|n]]; try lia. simpl in E.
  destruct (Ascii.eqb c newline); [discriminate|].
  destruct (read_line n f). discriminate.
Qed.

Lemma cstr_terminated (s rest : list ascii) :
  wf_cstring s -> cstr (s ++ NUL :: rest) = s.
Proof.
  induction 1 as [|c s Hc Hs IH]; simpl; [reflexivity|].
  destruct (Ascii.eqb_spec c NUL); [contradiction|]. now rewrite IH.
Qed.

Lemma firstn_removelast {A : Type} (s : list A) :
  firstn (length s - 1) s = removelast s.
Proof.
  induction s as [|a [|b s] IH]; try reflexivity.
  change (removelast (a :: b :: s)) with (a :: removelast (b :: s)).
  rewrite <- IH. simpl. now rewrite Nat.sub_0_r.
Qed.

(** The byte that is cut is the last one of the chunk, whatever it is. *)
Lemma cut_last_byte_chunk (chunk : list ascii) :
  wf_cstring chunk -> chunk <> [] ->
  cut_last_byte (chunk ++ [NUL]) = Returns (removelast chunk).
Proof.
  intros Hwf Hne. unfold cut_last_byte, strlen.
  rewrite (cstr_terminated chunk [] Hwf).
  destruct chunk as [|c chunk]; [contradiction|].
  rewrite <- firstn_removelast. simpl. now rewrite Nat.sub_0_r.
Qed.

Lemma readConfLine_frame (l : list confkeyval) (buf : cstring) :
  map key (readConfLine l buf) = map key l
  /\ map type (readConfLine l buf) = map type l.
Proof.
  induction l as [|t l [IHk IHt]]; simpl; [split; reflexivity|].
  rewrite IHk, IHt.
  destruct (setConfVal_frame t (Some (skipn (strlen (key t) + 1) buf)))
    as [Hk Ht].
  destruct (key_matches buf t); split; simpl; congruence.
Qed.

Lemma readConfFile_frame (l : list confkeyval) (cnf : FILE) :
  forall l', readConfFile l cnf = Returns l' ->
             map key l' = map key l /\ map type l' = map type l.
Proof.
  funelim (readConfFile l cnf); intros l' Hl'.
  - inversion Hl'; subst. split; reflexivity.
  - match goal with
    | IH : forall l', readConfFile _ _ = _ -> _ |- _ =>
        destruct (IH l' Hl') as [Hk Ht]
    end.
    destruct (readConfLine_frame l line) as [Hk' Ht']. split; congruence.
  - discriminate.
Qed.

(** The loop returns on every stream without a NUL byte. *)
Lemma readConfFile_returns (cnf : FILE) :
  wf_cstring cnf ->
  forall l, exists l', readConfFile l cnf = Returns l'.
Proof.
  remember (length cnf) as n eqn:Hn. revert cnf Hn.
  induction n as [n IH] using lt_wf_ind. intros cnf Hn Hwf l.
  rewrite readConfFile_while.
  destruct (fgets 1024 cnf) as [[buf rest]|] eqn:E; [|eexists; reflexivity].
  assert (Hs : 2 <= 1024) by lia.
  pose proof (fgets_rest 1024 cnf buf rest Hs E) as Hlt.
  destruct (fgets_chunk 1024 cnf buf rest Hs E)
    as (chunk & -> & -> & Hne & _).
  apply Forall_app in Hwf. destruct Hwf as [Hc Hr].
  rewrite (cut_last_byte_chunk chunk Hc Hne). simpl.
  apply (IH (length rest)); auto. lia.
Qed.

(** C10. [setConfVal], [readConfFile] and [freeConfFile] write to the [val]
    field only: keys and types are the same after the call as before.
    [readConfFile] returns on every stream without a NUL byte. *)
Theorem config_key_type_frame :
  (forall e v, key (snd (setConfVal e v)) = key e
               /\ type (snd (setConfVal e v)) = type e)
  /\ (forall l cnf l', readConfFile l cnf = Returns l' ->
                       map key l' = map key l /\ map type l' = map type l)
  /\ (forall l cnf, wf_cstring cnf ->
                    exists l', readConfFile l cnf = Returns l')
  /\ (forall l, map key (freeConfFile l) = map key l
                /\ map type (freeConfFile l) = map type l).
Proof.
  split; [exact setConfVal_frame|].
  split; [exact readConfFile_frame|].
  split; [intros l cnf H; exact (readConfFile_returns cnf H l)|].
  exact freeConfFile_frame.
Qed.

Lemma config_key_type_frame_witness :
  wf_cstring (lit "port=50000" ++ [newline])
  /\ readConfFile [entry "port" INT None; entry "logfile" STR None]
       (lit "port=50000" ++ [newline])
     = Returns [entry "port" INT (Some "50000"%string);
                entry "logfile" STR None]
  /\ map key [entry "port" INT (Some "50000"%string);
              entry "logfile" STR None]
     = map key [entry "port" INT None; entry "logfile" STR None]
  /\ map type [entry "port" INT (Some "50000"%string);
               entry "logfile" STR None]
     = map type [entry "port" INT None; entry "logfile" STR None].
Proof.
  assert (Hwf : wf_cstring (lit "port=50000" ++ [newline])) by wf_lit.
  assert (E : readConfFile [entry "port" INT None; entry "logfile" STR None]
                (lit "port=50000" ++ [newline])
              = Returns [entry "port" INT (Some "50000"%string);
                         entry "logfile" STR None]) by reflexivity.
  destruct config_key_type_frame as (_ & Hframe & _ & _).
  destruct (Hframe _ _ _ E) as [Hk Ht].
  split; [exact Hwf|]. split; [exact E|]. split; [exact Hk|exact Ht].
Defined.

(** *** One line against the list of entries *)

Lemma key_matches_starts_with (buf : cstring) (t : confkeyval) :
  wf_cstring (key t) ->
  key_matches buf t = starts_with (key t ++ lit "=") buf.
Proof.
  unfold key_matches, strlen. generalize (key t) as k. intros k Hk.
  change (lit "=") with ["="%char].
  assert (Hsep : "="%char <> NUL) by discriminate.
  revert Hsep. generalize "="%char as sep. intros sep Hsep.
  assert (H : forall b,
             (strncmp b k (length k) =? 0)%Z
             && Ascii.eqb (nth (length k) b NUL) sep
             = starts_with (k ++ [sep]) b).
  { induction Hk as [|d k Hd Hk IH]; intros [|c b];
      cbn [strncmp starts_with nth length app].
    - destruct (Ascii.eqb_spec NUL sep) as [E|E]; [|reflexivity].
      now destruct Hsep.
    - rewrite Ascii.eqb_sym. now destruct (Ascii.eqb sep c).
    - apply andb_false_intro1. apply Z.eqb_neq.
      intros H. apply Hd, code_zero_iff. lia.
    - rewrite (Ascii.eqb_sym d c).
      destruct (Ascii.eqb_spec c d) as [->|Hne]; [apply IH|].
      apply andb_false_intro1. apply Z.eqb_neq.
      intros H. apply Hne.
      rewrite <- (ascii_nat_embedding c), <- (ascii_nat_embedding d).
      f_equal. unfold code in H. lia. }
  rewrite <- andb_assoc, H. destruct buf; simpl; [|reflexivity].
  now destruct k.
Qed.

Lemma starts_with_iff (p s : cstring) :
  starts_with p s = true <-> exists r, s = p ++ r.
Proof.
  revert s. induction p as [|c p IH]; intros s; simpl.
  - split; [eauto|reflexivity].
  - destruct s as [|d s].
    + split; [discriminate|]. intros [r H]. discriminate.
    + rewrite andb_true_iff, IH. split.
      * intros [Hc [r ->]]. apply Ascii.eqb_eq in Hc. subst. eauto.
      * intros [r H]. inversion H; subst. split; [apply Ascii.eqb_refl|eauto].
Qed.

(** Two keys without ['='] that both start a line up to an ['='] are the
    same key. *)
Lemma plain_key_unique (k1 k2 line : cstring) :
  ~ In "="%char k1 -> ~ In "="%char k2 ->
  starts_with (k1 ++ lit "=") line = true ->
  starts_with (k2 ++ lit "=") line = true ->
  k1 = k2.
Proof.
  rewrite !starts_with_iff. intros H1 H2 [r1 E1] [r2 E2]. subst line.
  revert k2 H2 E2. induction k1 as [|c k1 IH]; intros [|d k2] H2 E2.
  - reflexivity.
  - exfalso. apply H2. inversion E2. now left.
  - exfalso. apply H1. inversion E2. now left.
  - inversion E2; subst. f_equal. apply IH; auto.
    + intros H. apply H1. now right.
    + intros H. apply H2. now right.
Qed.

Lemma readConfLine_no_match (l : list confkeyval) (line : cstring) :
  Forall (fun t => key_matches line t = false) l ->
  readConfLine l line = l.
Proof.
  induction 1 as [|t l Ht Hl IH]; simpl; [reflexivity|].
  now rewrite Ht, IH.
Qed.


(** On a list whose keys are C strings without ['='], no two of them
    equal, the loop does what the line handler of the specification does. *)
Lemma readConfLine_load_line (l : list confkeyval) (line : cstring) :
  plain_keys l -> readConfLine l line = load_line l line.
Proof.
  intros [Hplain Hnodup].
  induction Hplain as [|t l [Hwf Heq] Hl IH]; simpl; [reflexivity|].
  inversion Hnodup as [|k ks Hnotin Hnodup']; subst.
  rewrite (key_matches_starts_with line t Hwf).
  destruct (starts_with (key t ++ lit "=") line) eqn:Hm.
  - f_equal. apply readConfLine_no_match.
    rewrite Forall_forall. intros u Hu.
    rewrite Forall_forall in Hl. destruct (Hl u Hu) as [Hwfu Hequ].
    rewrite (key_matches_starts_with line u Hwfu).
    destruct (starts_with (key u ++ lit "=") line) eqn:Hmu; [|reflexivity].
    exfalso. apply Hnotin.
    rewrite (plain_key_unique (key t) (key u) line Heq Hequ Hm Hmu).
    now apply in_map.
  - f_equal. now apply IH.
Qed.


(** *** The stream, line by line *)

Lemma read_line_newline (n : nat) (ln : list ascii) (rest : FILE) :
  ~ In newline ln -> length ln < n ->
  read_line n (ln ++ newline :: rest) = (ln ++ [newline], rest).
Proof.
  revert n. induction ln as [|c ln IH]; intros [|n] Hnl Hlen;
    cbn [read_line length app In] in *; try lia.
  - now rewrite Ascii.eqb_refl.
  - destruct (Ascii.eqb_spec c newline) as [->|_]; [tauto|].
    rewrite IH; [reflexivity|tauto|lia].
Qed.

Lemma read_line_eof (n : nat) (ln : list ascii) :
  ~ In newline ln -> length ln <= n -> read_line n ln = (ln, []).
Proof.
  revert n. induction ln as [|c ln IH]; intros [|n] Hnl Hlen;
    cbn [read_line length app In] in *; try reflexivity; try lia.
  destruct (Ascii.eqb_spec c newline) as [->|_]; [tauto|].
  rewrite IH; [reflexivity|tauto|lia].
Qed.

Lemma removelast_snoc {A : Type} (s : list A) (a : A) :
  removelast (s ++ [a]) = s.
Proof.
  rewrite removelast_app by discriminate. simpl. apply app_nil_r.
Qed.

(** A line that ends with a newline reaches the entries without it;
    nothing else is taken from it. *)
Lemma readConfFile_line (l : list confkeyval) (ln : list ascii)
    (rest : FILE) :
  text_line ln ->
  readConfFile l (ln ++ newline :: rest)
  = readConfFile (readConfLine l ln) rest.
Proof.
  intros (Hwf & Hnl & Hlen). rewrite readConfFile_while. unfold fgets.
  change (1024 - 1) with 1023.
  rewrite (read_line_newline 1023 ln rest Hnl Hlen).
  destruct (ln ++ newline :: rest) eqn:E; [now destruct ln|].
  rewrite cut_last_byte_chunk.
  - simpl. now rewrite removelast_snoc.
  - apply Forall_app. split; [exact Hwf|]. repeat constructor. discriminate.
  - now destruct ln.
Qed.

(** A last line without a newline reaches the entries without its last
    byte: the byte cut is not the newline of [fgets] there. *)
Lemma readConfFile_unterminated (l : list confkeyval) (ln : list ascii) :
  text_line ln -> ln <> [] ->
  readConfFile l ln = Returns (readConfLine l (removelast ln)).
Proof.
  intros (Hwf & Hnl & Hlen) Hne. rewrite readConfFile_while. unfold fgets.
  change (1024 - 1) with 1023.
  rewrite (read_line_eof 1023 ln Hnl (Nat.lt_le_incl _ _ Hlen)).
  destruct ln as [|c ln]; [contradiction|].
  rewrite cut_last_byte_chunk by (auto; discriminate).
  simpl bind. rewrite readConfFile_while. reflexivity.
Qed.

(** C4, amended.  On a list whose keys are C strings without ['='] and
    pairwise distinct, every line changes the list as the specification
    says: [setConfVal] is applied once, to the first entry whose key
    followed by ['='] starts the line, with the bytes after that ['='];
    no other entry changes, and a line that matches no key changes
    nothing.  That is what [readConfFile] does with a line of its stream
    before it goes on with the rest. *)
Theorem readConfFile_first_match (l : list confkeyval) :
  plain_keys l ->
  (forall line, readConfLine l line = load_line l line)
  /\ (forall ln rest,
        text_line ln ->
        readConfFile l (ln ++ newline :: rest)
        = readConfFile (load_line l ln) rest).
Proof.
  intros Hkeys. split.
  - intros line. exact (readConfLine_load_line l line Hkeys).
  - intros ln rest Hln.
    rewrite (readConfFile_line l ln rest Hln).
    now rewrite (readConfLine_load_line l ln Hkeys).
Qed.

Lemma readConfFile_first_match_witness :
  plain_keys [entry "port" INT None; entry "logfile" STR None]
  /\ readConfLine [entry "port" INT None; entry "logfile" STR None]
       (lit "logfile=/tmp/l")
     = [entry "port" INT None; entry "logfile" STR (Some "/tmp/l"%string)].
Proof.
  assert (H : plain_keys [entry "port" INT None; entry "logfile" STR None]).
  { split.
    - repeat constructor; try wf_lit;
        intros H; vm_compute in H; intuition discriminate.
    - repeat constructor; intros H; vm_compute in H; intuition discriminate. }
  split; [exact H|].
  destruct (readConfFile_first_match _ H) as [Hline _].
  exact (Hline (lit "logfile=/tmp/l")).
Defined.

(** C4, as stated, fails on a list that has a key with ['='] in it: the
    line [a=b=c] sets the entry [a] and the entry [a=b] as well. *)
Lemma readConfLine_second_match :
  readConfFile [entry "a" STR None; entry "a=b" STR None]
    (lit "a=b=c" ++ [newline])
  = Returns [entry "a" STR (Some "b=c"%string);
             entry "a=b" STR (Some "c"%string)]
  /\ readConfLine [entry "a" STR None; entry "a=b" STR None] (lit "a=b=c")
  = [entry "a" STR (Some "b=c"%string); entry "a=b" STR (Some "c"%string)]
  /\ load_line [entry "a" STR None; entry "a=b" STR None] (lit "a=b=c")
     = [entry "a" STR (Some "b=c"%string); entry "a=b" STR None]
  /\ readConfLine [entry "a" STR None; entry "a=b" STR None] (lit "a=b=c")
     <> load_line [entry "a" STR None; entry "a=b" STR None] (lit "a=b=c").
Proof.
  split; [reflexivity|]. split; [reflexivity|]. split; [reflexivity|].
  intros H. vm_compute in H. discriminate H.
Qed.

(** A text file, line by line. *)
Lemma readConfFile_lines (lines : list (list ascii)) (l : list confkeyval) :
  Forall text_line lines ->
  readConfFile l (concat (map (fun ln => ln ++ [newline]) lines))
  = Returns (fold_left readConfLine lines l).
Proof.
  intros H. revert l. induction H as [|ln lines Hln Hlines IH]; intros l.
  - cbn [map concat fold_left]. now rewrite readConfFile_while.
  - cbn [map concat fold_left]. rewrite <- app_assoc. cbn [app].
    rewrite (readConfFile_line l ln _ Hln). apply IH.
Qed.

(** The loader scenario of the specification: the line of an unknown key
    is ignored. *)
Example readConfFile_scenario :
  readConfFile [entry "port" INT None; entry "logfile" STR None]
    (lit "port=50000" ++ newline :: lit "foo=bar" ++ newline
     :: lit "logfile=/tmp/l" ++ [newline])
  = Returns [entry "port" INT (Some "50000"%string);
             entry "logfile" STR (Some "/tmp/l"%string)].
Proof. reflexivity. Qed.

(** C5. The specification asks that one trailing newline is removed from
    a line and nothing else, so that a last line without a newline is
    processed with its payload intact.  With the newline the value of
    [port] is [50000]; without it the last digit is cut and the value is
    [5000]. *)
Theorem readConfFile_cuts_last_byte :
  readConfFile [entry "port" INT None] (lit "port=50000" ++ [newline])
  = Returns [entry "port" INT (Some "50000"%string)]
  /\ readConfFile [entry "port" INT None] (lit "port=50000")
     = Returns [entry "port" INT (Some "5000"%string)].
Proof.
  split; reflexivity.
Qed.

(** ** Character arrays *)

Lemma size_t_small (z : Z) : (0 <= z < 2 ^ 64)%Z -> size_t z = z.
Proof. intros H. unfold size_t. now apply Z.mod_small. Qed.

Lemma skipn_repeat {A : Type} (a : A) (n k : nat) :
  skipn n (repeat a k) = repeat a (k - n).
Proof.
  revert n. induction k as [|k IH]; intros [|n]; simpl; auto.
Qed.

(** Writing right after the part of an array that is already written: the
    bytes [y] of the source come after the bytes [x] of the array. *)
Lemma memcpy_append (x : list ascii) (k : nat) (pre y post : list ascii) :
  length y <= k ->
  memcpy (map Some x ++ repeat None k) (Z.of_nat (length x))
    (pre ++ y ++ post) (Z.of_nat (length pre)) (Z.of_nat (length y))
  = Returns (map Some (x ++ y) ++ repeat None (k - length y)).
Proof.
  intros Hk. unfold memcpy.
  rewrite !length_app, length_map, repeat_length.
  replace (_ && _ && _ && _ && _)%bool with true.
  2:{ symmetry. rewrite !andb_true_iff, !Z.leb_le. lia. }
  f_equal. rewrite !Nat2Z.id.
  rewrite <- (length_map Some x) at 1.
  rewrite firstn_app, firstn_all, Nat.sub_diag. cbn [firstn].
  rewrite app_nil_r, map_app, <- app_assoc. do 2 f_equal.
  - rewrite skipn_app, skipn_all, Nat.sub_diag. cbn [skipn app].
    rewrite firstn_app, firstn_all, Nat.sub_diag. cbn [firstn].
    now rewrite app_nil_r.
  - replace (Z.to_nat (Z.of_nat (length x) + Z.of_nat (length y)))
      with (length (map Some x) + length y) by (rewrite length_map; lia).
    rewrite skipn_app, skipn_all2 by lia.
    replace (_ + _ - _) with (length y) by lia.
    cbn [app]. apply skipn_repeat.
Qed.

Lemma buffer_cstr_terminated (s : cstring) (rest : buffer) :
  wf_cstring s ->
  buffer_cstr (map Some (s ++ [NUL]) ++ rest) = Returns s.
Proof.
  induction 1 as [|c s Hc Hs IH]; simpl; [reflexivity|].
  destruct (Ascii.eqb_spec c NUL); [contradiction|].
  simpl in IH. now rewrite IH.
Qed.

(** ** replacePrefix *)

Lemma starts_with_app (n b : cstring) : starts_with n (n ++ b) = true.
Proof. apply starts_with_iff. eauto. Qed.

Lemma strstr_unfold (hay needle : cstring) :
  strstr hay needle =
  if starts_with needle hay then Some 0%Z
  else match hay with
       | [] => None
       | _ :: hay' => option_map Z.succ (strstr hay' needle)
       end.
Proof. destruct hay; reflexivity. Qed.

Lemma occurs_at_0_iff (needle hay : cstring) :
  occurs_at needle hay 0 <-> starts_with needle hay = true.
Proof.
  rewrite starts_with_iff. split.
  - intros (a & b & -> & Hl). destruct a; [simpl; eauto|discriminate].
  - intros [r ->]. exists [], r. auto.
Qed.

Lemma occurs_at_S_iff (needle : cstring) (c : ascii) (hay : cstring)
    (i : nat) :
  occurs_at needle (c :: hay) (S i) <-> occurs_at needle hay i.
Proof.
  split.
  - intros ([|d a] & b & E & Hl); [discriminate|].
    inversion E; subst. inversion Hl. exists a, b. auto.
  - intros (a & b & -> & Hl). exists (c :: a), b. simpl. auto.
Qed.

(** [strstr] finds the first occurrence. *)
Lemma strstr_first (needle a b : cstring) :
  (forall i, i < length a -> ~ occurs_at needle (a ++ needle ++ b) i) ->
  strstr (a ++ needle ++ b) needle = Some (Z.of_nat (length a)).
Proof.
  induction a as [|c a IH]; intros Hfirst; rewrite strstr_unfold.
  - simpl. now rewrite starts_with_app.
  - destruct (starts_with needle ((c :: a) ++ needle ++ b)) eqn:E.
    + exfalso. apply (Hfirst 0); [simpl; lia|]. now apply occurs_at_0_iff.
    + simpl. rewrite IH.
      * simpl. f_equal. lia.
      * intros i Hi H. apply (Hfirst (S i)); [simpl; lia|].
        now apply occurs_at_S_iff.
Qed.

Lemma strstr_absent (needle hay : cstring) :
  (forall i, ~ occurs_at needle hay i) -> strstr hay needle = None.
Proof.
  induction hay as [|c hay IH]; intros Habs; rewrite strstr_unfold.
  - destruct (starts_with needle []) eqn:E; [|reflexivity].
    exfalso. apply (Habs 0). now apply occurs_at_0_iff.
  - destruct (starts_with needle (c :: hay)) eqn:E.
    + exfalso. apply (Habs 0). now apply occurs_at_0_iff.
    + rewrite IH; [reflexivity|].
      intros i H. apply (Habs (S i)). now apply occurs_at_S_iff.
Qed.

(** Every template has its replacement. *)
Lemma replaced_total (prefix s : cstring) : exists r, replaced prefix s r.
Proof.
  assert (H : (forall i, ~ occurs_at token s i)
              \/ exists a b, s = a ++ token ++ b
                             /\ forall i, i < length a ->
                                          ~ occurs_at token s i).
  { induction s as [|c s IH].
    - destruct (starts_with token []) eqn:E; [discriminate|].
      left. intros i (a & b & Hs & _). now destruct a.
    - destruct (starts_with token (c :: s)) eqn:E.
      + right. apply starts_with_iff in E. destruct E as [r E].
        exists [], r. split; [exact E|]. simpl. intros i Hi. lia.
      + destruct IH as [IH|(a & b & -> & IH)].
        * left. intros [|i] H.
          -- apply occurs_at_0_iff in H. congruence.
          -- apply occurs_at_S_iff in H. now apply (IH i).
        * right. exists (c :: a), b. split; [reflexivity|].
          intros [|i] Hi H.
          -- apply occurs_at_0_iff in H.
             change ((c :: a) ++ token ++ b) with (c :: a ++ token ++ b) in H.
             congruence.
          -- apply occurs_at_S_iff in H. apply (IH i); [simpl in Hi; lia|].
             exact H. }
  destruct H as [H|(a & b & -> & H)].
  - exists s. now constructor.
  - exists (a ++ prefix ++ b). now constructor.
Qed.

(** C8, amended.  [replacePrefix(NULL, prefix)] is NULL.  For a template
    [s] and a prefix whose result fits the 1024-byte array of the function
    (at most 1023 characters), the result is [s] itself when the token
    does not occur in [s], and otherwise [s] up to the first occurrence of
    the token, then the prefix, then the rest of [s] after that occurrence;
    later occurrences stay. *)
Theorem replacePrefix_fits (s r prefix : cstring) :
  wf_cstring s -> wf_cstring prefix ->
  replaced prefix s r -> length r <= 1023 ->
  replacePrefix None prefix = Returns None
  /\ replacePrefix (Some s) prefix = Returns (Some r).
Proof.
  intros Hs Hp Hr Hlen. split; [reflexivity|].
  unfold replacePrefix, GDKstrdup, strlen, uninitialised, mem.
  fold token. remember 1024 as cap eqn:Hcap.
  change (repeat None cap) with (map Some [] ++ repeat (@None ascii) cap).
  change 0%Z with (Z.of_nat (@length ascii [])).
  destruct Hr as [s Habs|a b Hfirst].
  - rewrite (strstr_absent _ _ Habs).
    rewrite size_t_small by lia.
    replace (Z.of_nat (length s) + 1)%Z with (Z.of_nat (length (s ++ [NUL])))
      by (rewrite length_app; simpl; lia).
    rewrite <- (app_nil_r (s ++ [NUL])) at 1.
    change ((s ++ [NUL]) ++ []) with ([] ++ (s ++ [NUL]) ++ []).
    rewrite memcpy_append by (rewrite length_app; simpl; lia).
    cbn [bind app]. now rewrite buffer_cstr_terminated.
  - rewrite (strstr_first _ _ _ Hfirst).
    rewrite !length_app in Hlen.
    assert (Htok : length token = 9) by reflexivity.
    rewrite !length_app, Htok.
    rewrite !size_t_small by lia.
    set (src := (a ++ token ++ b) ++ [NUL]).
    assert (E1 : src = [] ++ a ++ ((token ++ b) ++ [NUL]))
      by (unfold src; now rewrite <- !app_assoc).
    assert (E3 : src = (a ++ token) ++ (b ++ [NUL]) ++ [])
      by (unfold src; now rewrite app_nil_r, <- !app_assoc).
    (* the bytes before the token *)
    rewrite E1 at 1. rewrite memcpy_append by lia.
    cbn [bind app].
    (* the prefix *)
    change (prefix ++ [NUL]) with ([] ++ prefix ++ [NUL]).
    rewrite memcpy_append by lia.
    cbn [bind].
    (* the bytes after the token, with the terminator *)
    replace (Z.of_nat (length a) + Z.of_nat (length prefix))%Z
      with (Z.of_nat (length (a ++ prefix)))
      by (rewrite length_app; lia).
    replace (Z.of_nat (length a) + 9)%Z
      with (Z.of_nat (length (a ++ token)))
      by (rewrite length_app, Htok; lia).
    replace (Z.of_nat (length a + (9 + length b)) - 9
             - Z.of_nat (length a) + 1)%Z
      with (Z.of_nat (length (b ++ [NUL])))
      by (rewrite length_app; simpl; lia).
    rewrite E3, memcpy_append by (rewrite length_app; simpl; lia).
    cbn [bind].
    rewrite !app_assoc, buffer_cstr_terminated.
    + now rewrite <- !app_assoc.
    + apply Forall_app in Hs. destruct Hs as [Ha Hs].
      apply Forall_app in Hs. destruct Hs as [_ Hb].
      repeat (apply Forall_app; split); assumption.
Qed.

Lemma occurs_at_starts_with (needle hay : cstring) (i : nat) :
  occurs_at needle hay i -> starts_with needle (skipn i hay) = true.
Proof.
  intros (a & b & -> & <-).
  rewrite skipn_app, skipn_all, Nat.sub_diag. cbn [skipn app].
  apply starts_with_app.
Qed.

Lemma replacePrefix_fits_witness :
  wf_cstring (lit "lib=${prefix}/lib")
  /\ wf_cstring (lit "/opt/mdb")
  /\ replaced (lit "/opt/mdb") (lit "lib=${prefix}/lib")
       (lit "lib=/opt/mdb/lib")
  /\ length (lit "lib=/opt/mdb/lib") <= 1023
  /\ replacePrefix None (lit "/opt/mdb") = Returns None
  /\ replacePrefix (Some (lit "lib=${prefix}/lib")) (lit "/opt/mdb")
     = Returns (Some (lit "lib=/opt/mdb/lib")).
Proof.
  assert (Hs : wf_cstring (lit "lib=${prefix}/lib")) by wf_lit.
  assert (Hp : wf_cstring (lit "/opt/mdb")) by wf_lit.
  assert (Hr : replaced (lit "/opt/mdb") (lit "lib=${prefix}/lib")
                 (lit "lib=/opt/mdb/lib")).
  { apply (replaced_first (lit "/opt/mdb") (lit "lib=") (lit "/lib")).
    intros i Hi H. apply occurs_at_starts_with in H.
    destruct i as [|[|[|[|i]]]]; try discriminate H.
    simpl in Hi. lia. }
  assert (Hl : length (lit "lib=/opt/mdb/lib") <= 1023) by (simpl; lia).
  repeat (split; [assumption|]).
  exact (replacePrefix_fits _ _ _ Hs Hp Hr Hl).
Defined.

(** C8, as stated, fails on a template that is longer than the array of the
    function: 1024 characters without the token are copied, with their
    terminator, into 1024 bytes. *)
Lemma replacePrefix_overflow :
  (forall i, ~ occurs_at token (repeat "a"%char 1024) i)
  /\ replacePrefix (Some (repeat "a"%char 1024)) (lit "/opt/mdb")
     = Undefined
  /\ replacePrefix (Some (repeat "a"%char 1024)) (lit "/opt/mdb")
     <> Returns (Some (repeat "a"%char 1024)).
Proof.
  split; [|split].
  - intros i H. apply occurs_at_starts_with in H.
    rewrite skipn_repeat in H. now destruct (1024 - i).
  - vm_compute. reflexivity.
  - intros H. vm_compute in H. discriminate H.
Qed.

(** The scenario of the specification, and a template with the token
    twice: the second occurrence stays. *)
Example replacePrefix_scenarios :
  replacePrefix (Some (lit "lib=${prefix}/lib")) (lit "/opt/mdb")
  = Returns (Some (lit "lib=/opt/mdb/lib"))
  /\ replacePrefix None (lit "/opt/mdb") = Returns None
  /\ replacePrefix (Some (lit "${prefix}/bin:${prefix}/lib")) (lit "/usr")
     = Returns (Some (lit "/usr/bin:${prefix}/lib")).
Proof. repeat split; vm_compute; reflexivity. Qed.

(** ** secondsToString *)

Lemma string_of_uint_no_space (d : Decimal.uint) :
  ~ In " "%char (list_ascii_of_string (NilEmpty.string_of_uint d)).
Proof.
  induction d; simpl; intros H; try tauto;
    destruct H as [H|H]; try discriminate H; tauto.
Qed.

Lemma fmt_d_no_space (z : Z) : ~ In " "%char (fmt_d z).
Proof.
  unfold fmt_d, NilZero.string_of_int, NilZero.string_of_uint.
  destruct (Z.to_int z) as [d|d]; destruct d;
    try (simpl; intros H; intuition discriminate);
    try apply string_of_uint_no_space.
  all: intros [H|H]; [discriminate H|].
  all: revert H; apply string_of_uint_no_space.
Qed.

Lemma split_at_spaces_token (tok rest : cstring) :
  ~ In " "%char tok ->
  split_at_spaces (tok ++ " "%char :: rest) = tok :: split_at_spaces rest.
Proof.
  induction tok as [|c tok IH]; intros H.
  - reflexivity.
  - cbn [app split_at_spaces].
    destruct (Ascii.eqb_spec c " "%char) as [->|_].
    + exfalso. apply H. now left.
    + rewrite IH; [reflexivity|]. intros H'. apply H. now right.
Qed.

Lemma split_at_spaces_last (tok : cstring) :
  ~ In " "%char tok -> split_at_spaces tok = [tok].
Proof.
  induction tok as [|c tok IH]; intros H.
  - reflexivity.
  - cbn [split_at_spaces].
    destruct (Ascii.eqb_spec c " "%char) as [->|_].
    + exfalso. apply H. now left.
    + rewrite IH; [reflexivity|]. intros H'. apply H. now right.
Qed.

(** A number printed with [%d] and followed by a unit letter reads back as
    the number times the weight of the unit. *)
Lemma component_value_fmt (n : Z) (u : ascii) (w : Z) :
  unit_weight u = Some w ->
  component_value (fmt_d n ++ [u]) = Some (n * w)%Z.
Proof.
  intros Hu. unfold component_value, fmt_d.
  rewrite rev_app_distr. cbn [rev app]. rewrite Hu, rev_involutive.
  rewrite string_of_list_ascii_of_string, NilZero.isi.
  - now rewrite DecimalZ.of_to.
  - destruct n; simpl; try discriminate.
    intros H. injection H. apply DecimalPos.Unsigned.to_uint_nonnil.
  - destruct n; simpl; try discriminate.
    intros H. injection H. apply DecimalPos.Unsigned.to_uint_nonnil.
Qed.

Lemma unit_no_space (u : ascii) (w : Z) :
  unit_weight u = Some w -> u <> " "%char.
Proof. intros H ->. discriminate H. Qed.

Lemma component_no_space (n : Z) (u : ascii) (w : Z) :
  unit_weight u = Some w -> ~ In " "%char (fmt_d n ++ [u]).
Proof.
  intros Hu H. apply in_app_or in H. destruct H as [H|[H|[]]].
  - now apply (fmt_d_no_space n).
  - now apply (unit_no_space u w Hu).
Qed.

Lemma duration_value_component (n : Z) (u : ascii) (w : Z)
    (rest : cstring) :
  unit_weight u = Some w ->
  duration_value (fmt_d n ++ u :: " "%char :: rest)
  = match duration_value rest with
    | Some v => Some (n * w + v)%Z
    | None => None
    end.
Proof.
  intros Hu. unfold duration_value.
  change (fmt_d n ++ u :: " "%char :: rest)
    with (fmt_d n ++ [u] ++ " "%char :: rest).
  rewrite app_assoc.
  rewrite split_at_spaces_token by (now apply (component_no_space n u w)).
  cbn [sum_components]. now rewrite (component_value_fmt n u w Hu).
Qed.

Lemma duration_value_last (n : Z) (u : ascii) (w : Z) :
  unit_weight u = Some w ->
  duration_value (fmt_d n ++ [u]) = Some (n * w)%Z.
Proof.
  intros Hu. unfold duration_value.
  rewrite split_at_spaces_last by (now apply (component_no_space n u w)).
  cbn [sum_components]. rewrite (component_value_fmt n u w Hu).
  f_equal. lia.
Qed.

Lemma to_int_small (z : Z) : (- 2 ^ 31 <= z < 2 ^ 31)%Z -> to_int z = z.
Proof. intros H. unfold to_int. rewrite Z.mod_small; lia. Qed.

(** One block of [secondsToString] when its [return] is not taken. *)
Lemma print_unit_run (p : Z) (unit : cstring) (buf : cstring)
    (t longness : Z) (k : cstring -> Z -> Z -> cstring) :
  (0 < p)%Z -> (0 <= t)%Z -> (t / p < 2 ^ 31)%Z -> longness <> 1%Z ->
  print_unit p unit buf t longness k =
  if (t >? p)%Z
  then k (buf ++ fmt_d (t / p) ++ unit ++ lit " ") (t mod p)%Z
         (longness - 1)%Z
  else k buf t longness.
Proof.
  intros Hp Ht Hq Hl. unfold print_unit.
  destruct (t >? p)%Z; [|reflexivity].
  rewrite Z.quot_div_nonneg by lia.
  rewrite to_int_small by (pose proof (Z.div_pos t p); lia).
  destruct (Z.eqb_spec (longness - 1) 0); [lia|].
  rewrite <- !app_assoc. f_equal.
  rewrite Z.mod_eq by lia. lia.
Qed.

(** One block, with the quotient and the remainder named. *)
Lemma print_unit_cases (p : Z) (unit : cstring) (buf : cstring)
    (t longness : Z) (k : cstring -> Z -> Z -> cstring) :
  (0 < p)%Z -> (0 <= t)%Z -> (t < p * 2 ^ 31)%Z -> longness <> 1%Z ->
  ((t <= p)%Z /\ print_unit p unit buf t longness k = k buf t longness)
  \/ (exists q r,
        (t = p * q + r /\ 0 < q < 2 ^ 31 /\ 0 <= r < p)%Z
        /\ print_unit p unit buf t longness k
           = k (buf ++ fmt_d q ++ unit ++ lit " ") r (longness - 1)%Z).
Proof.
  intros Hp Ht Hq Hl.
  assert (Hdiv : (t / p < 2 ^ 31)%Z)
    by (apply Z.div_lt_upper_bound; lia).
  rewrite (print_unit_run p unit buf t longness k Hp Ht Hdiv Hl).
  destruct (Z.gtb_spec t p) as [Hgt|Hle]; [right|left; split; auto].
  exists (t / p)%Z, (t mod p)%Z. split; [|reflexivity].
  pose proof (Z.div_mod t p ltac:(lia)) as Hdm.
  pose proof (Z.mod_pos_bound t p Hp) as Hmod.
  assert (0 < t / p)%Z by (apply Z.div_str_pos; lia).
  lia.
Qed.

Ltac seconds_block :=
  match goal with
  | |- context [print_unit ?p ?u ?buf ?t ?l ?k] =>
      let q := fresh "q" in
      let r := fresh "r" in
      let H := fresh "H" in
      let E := fresh "E" in
      destruct (print_unit_cases p u buf t l k
                  ltac:(lia) ltac:(lia) ltac:(lia) ltac:(lia))
        as [[H E]|(q & r & H & E)];
      rewrite E; clear E; cbv beta
  end.

Ltac seconds_value :=
  rewrite <- ?app_assoc; cbn [app];
  repeat erewrite duration_value_component by reflexivity;
  erewrite duration_value_last by reflexivity.

(** C7, amended.  For every [t] from 0 up to, excluded, 2^31 weeks, the
    text [secondsToString] writes for [t] with five units reads back as
    [t]: its components are separated by one space, each is an integer
    followed by w, d, h, m or s, and the integers times the weights of
    their units add up to [t]. *)
Theorem secondsToString_round_trip (t : Z) :
  (0 <= t < 2 ^ 31 * 604800)%Z ->
  duration_value (secondsToString t 5) = Some t.
Proof.
  intros Ht. unfold secondsToString. cbv zeta.
  change (1 * 60 * 60 * 24 * 7)%Z with 604800%Z.
  change (Z.quot 604800 7) with 86400%Z.
  change (Z.quot 86400 24) with 3600%Z.
  change (Z.quot 3600 60) with 60%Z.
  change (lit "w") with ["w"%char]. change (lit "d") with ["d"%char].
  change (lit "h") with ["h"%char]. change (lit "m") with ["m"%char].
  change (lit "s") with ["s"%char].
  do 4 seconds_block.
  all: change (lit " ") with [" "%char].
  all: match goal with
       | |- context [if ?c then _ else _] => destruct c eqn:Hc
       end.
  all: try (rewrite to_int_small by lia; seconds_value; f_equal; lia).
  all: try (cbn in Hc; discriminate Hc).
  all: apply orb_false_iff in Hc; destruct Hc as [_ Hc];
    apply negb_false_iff, andb_true_iff in Hc; destruct Hc as [_ Hc];
    apply Z.eqb_eq in Hc.
  all: rewrite ?app_assoc; rewrite removelast_snoc.
  all: seconds_value; f_equal; lia.
Qed.

Lemma secondsToString_round_trip_witness :
  (0 <= 90061 < 2 ^ 31 * 604800)%Z
  /\ duration_value (secondsToString 90061 5) = Some 90061%Z.
Proof.
  assert (H : (0 <= 90061 < 2 ^ 31 * 604800)%Z) by lia.
  split; [exact H|]. exact (secondsToString_round_trip 90061 H).
Defined.

(** C7, as stated, fails from 2^31 weeks on: the number of weeks does not
    fit the [int] it is cast to, and the text reads back as another
    number. *)
Lemma secondsToString_weeks_overflow :
  (0 <= 1298798110310400)%Z
  /\ secondsToString 1298798110310400 5 = lit "-2147483648w"
  /\ duration_value (secondsToString 1298798110310400 5)
     <> Some 1298798110310400%Z.
Proof.
  split; [lia|]. split; [vm_compute; reflexivity|].
  intros H. vm_compute in H. discriminate H.
Qed.

(** The scenarios of the specification. *)
Example secondsToString_scenarios :
  secondsToString 90061 5 = lit "1d 1h 1m 1s"
  /\ secondsToString 90061 2 = lit "1d 1h"
  /\ secondsToString 0 3 = lit "0s"
  /\ secondsToString 60 1 = lit "60s".
Proof. repeat split; vm_compute; reflexivity. Qed.

(** ** abbreviateString *)

(** [memcpy] over a part of the array: the bytes of [old] are replaced. *)
Lemma memcpy_segment (pre old post : buffer) (src : list ascii)
    (soff n : Z) :
  (0 <= soff)%Z -> n = Z.of_nat (length old) ->
  (soff + n <= Z.of_nat (length src))%Z ->
  memcpy (pre ++ old ++ post) (Z.of_nat (length pre)) src soff n
  = Returns (pre
             ++ map Some (firstn (Z.to_nat n) (skipn (Z.to_nat soff) src))
             ++ post).
Proof.
  intros Hs -> Hsrc. unfold memcpy. rewrite !length_app.
  replace (_ && _ && _ && _ && _)%bool with true.
  2:{ symmetry. rewrite !andb_true_iff, !Z.leb_le. lia. }
  f_equal. rewrite !Nat2Z.id.
  rewrite firstn_app, firstn_all, Nat.sub_diag. cbn [firstn].
  rewrite app_nil_r. do 2 f_equal.
  replace (Z.to_nat (Z.of_nat (length pre) + Z.of_nat (length old)))
    with (length pre + length old) by lia.
  rewrite skipn_app, skipn_all2 by lia.
  replace (_ + _ - _) with (length old) by lia.
  cbn [app]. rewrite skipn_app, skipn_all, Nat.sub_diag. reflexivity.
Qed.

Lemma split_at_length {A : Type} (n : nat) (l : list A) :
  n <= length l -> exists x y, l = x ++ y /\ length x = n.
Proof.
  intros H. exists (firstn n l), (skipn n l).
  split; [now rewrite firstn_skipn|]. rewrite length_firstn. lia.
Qed.

Lemma firstn_mem (n : nat) (s : cstring) :
  n <= length s -> firstn n (mem s) = firstn n s.
Proof.
  intros H. unfold mem. rewrite firstn_app.
  replace (n - length s) with 0 by lia. cbn [firstn]. apply app_nil_r.
Qed.

Lemma skipn_mem (n : nat) (s : cstring) :
  n <= length s -> skipn n (mem s) = skipn n s ++ [NUL].
Proof.
  intros H. unfold mem. rewrite skipn_app.
  replace (n - length s) with 0 by lia. reflexivity.
Qed.

(** What the call writes.  When [in] is at most [width] characters long
    and [ret] has room for it, the result is [in] verbatim.  When [in] is
    longer than [width], [width] is at least 6 and [ret] has [width + 1]
    bytes, the array holds the first [width/2 - 3] characters of [in],
    then one byte that no copy writes, then the three dots, at offset
    [width/2 - 2], then the last [width - width/2 - 1] characters of [in]
    and the terminator, at offset [width]. *)
Lemma abbreviateString_layout (ret : buffer) (in_ : cstring) (width : Z) :
  wf_cstring in_ ->
  (Z.of_nat (length in_) < 2 ^ 64)%Z -> (0 <= width < 2 ^ 64)%Z ->
  (Z.min (Z.of_nat (length in_)) width + 1 <= Z.of_nat (length ret))%Z ->
  ((Z.of_nat (length in_) <= width)%Z ->
     exists ret', abbreviateString ret in_ width = Returns ret'
                  /\ buffer_cstr ret' = Returns in_)
  /\ ((6 <= width < Z.of_nat (length in_))%Z ->
     exists gap,
       abbreviateString ret in_ width
       = Returns
           (map Some (firstn (Z.to_nat (width / 2 - 3)) in_)
            ++ [gap]
            ++ map Some
                 (lit "..."
                  ++ skipn (length in_ - Z.to_nat (width - width / 2 - 1))
                       in_
                  ++ [NUL])
            ++ skipn (Z.to_nat (width + 1)) ret)).
Proof.
  intros Hwf Hlen Hw Hret. unfold abbreviateString, strlen. split.
  - intros Hle.
    destruct (Z.gtb_spec (Z.of_nat (length in_)) width) as [Hgt|_]; [lia|].
    destruct (split_at_length (length in_ + 1) ret ltac:(lia))
      as (old & post & -> & Hold).
    pose proof (memcpy_segment [] old post (mem in_) 0
                  (Z.of_nat (length in_) + 1) ltac:(lia) ltac:(lia)) as M.
    cbn [app length Z.of_nat] in M. rewrite M.
    2:{ unfold mem. rewrite length_app. simpl. lia. }
    eexists. split; [reflexivity|].
    replace (Z.to_nat (Z.of_nat (length in_) + 1)) with (length (mem in_))
      by (unfold mem; rewrite length_app; simpl; lia).
    cbn [Z.to_nat skipn]. rewrite firstn_all. unfold mem.
    now apply buffer_cstr_terminated.
  - intros [Hw6 Hlt].
    destruct (Z.gtb_spec (Z.of_nat (length in_)) width) as [_|Hle]; [|lia].
    set (h := (width / 2)%Z).
    assert (Hh : (2 * h <= width <= 2 * h + 1)%Z).
    { unfold h. pose proof (Z.div_mod width 2 ltac:(lia)).
      pose proof (Z.mod_pos_bound width 2 ltac:(lia)). lia. }
    rewrite Z.min_r in Hret by lia.
    (* the parts of [ret] the three copies write to *)
    destruct (split_at_length (Z.to_nat (h - 3)) ret ltac:(lia))
      as (A & r1 & -> & HA).
    rewrite length_app in Hret.
    destruct (split_at_length 1 r1 ltac:(lia)) as (G & r2 & -> & HG).
    rewrite length_app in Hret.
    destruct (split_at_length 3 r2 ltac:(lia)) as (B & r3 & -> & HB).
    rewrite length_app in Hret.
    destruct (split_at_length (Z.to_nat (width - h)) r3 ltac:(lia))
      as (C & D & -> & HC).
    destruct G as [|gap [|? ?]]; try discriminate HG. exists gap.
    repeat match goal with
           | |- context [size_t ?z] => rewrite (size_t_small z) by lia
           end.
    (* the first characters *)
    pose proof (memcpy_segment [] A ([gap] ++ B ++ C ++ D) (mem in_) 0
                  (h - 3) ltac:(lia) ltac:(lia)) as M1.
    cbn [app length Z.of_nat] in M1. cbn [app]. rewrite M1.
    2:{ unfold mem. rewrite length_app. simpl. lia. }
    cbn [bind Z.to_nat skipn]. rewrite firstn_mem by lia.
    set (A' := map Some (firstn (Z.to_nat (h - 3)) in_)).
    assert (HA' : length A' = Z.to_nat (h - 3)).
    { unfold A'. rewrite length_map, length_firstn. lia. }
    (* the dots *)
    pose proof (memcpy_segment (A' ++ [gap]) B (C ++ D) (mem (lit "...")) 0 3
                  ltac:(lia) ltac:(lia) ltac:(simpl; lia)) as M2.
    rewrite length_app, HA' in M2. cbn [length] in M2.
    replace (Z.of_nat (Z.to_nat (h - 3) + 1)) with (h - 2)%Z in M2 by lia.
    rewrite <- app_assoc in M2. cbn [app] in M2. rewrite M2.
    cbn [bind]. change (Z.to_nat 0) with 0. cbn [skipn].
    change (firstn (Z.to_nat 3) (mem (lit "..."))) with (lit "...").
    (* the last characters and the terminator *)
    set (pre := A' ++ [gap] ++ map Some (lit "...")).
    assert (Hpre : Z.of_nat (length pre) = (h + 1)%Z).
    { unfold pre. rewrite !length_app, HA'. simpl. lia. }
    pose proof (memcpy_segment pre C D (mem in_)
                  (Z.of_nat (length in_) - (width - (h - 2) - 3))
                  (Z.of_nat (length in_)
                   - (Z.of_nat (length in_) - (width - (h - 2) - 3)) + 1)
                  ltac:(lia) ltac:(lia)) as M3.
    rewrite Hpre in M3. unfold pre in M3.
    rewrite <- !app_assoc in M3. cbn [app] in M3.
    rewrite <- !app_assoc. cbn [app]. rewrite M3.
    2:{ unfold mem. rewrite length_app. simpl. lia. }
    f_equal. f_equal. f_equal.
    rewrite (map_app Some (lit "...")), <- app_assoc. f_equal.
    rewrite skipn_mem by lia.
    replace (Z.to_nat (Z.of_nat (length in_) - (width - (h - 2) - 3)))
      with (length in_ - Z.to_nat (width - h - 1)) by lia.
    f_equal.
    + rewrite firstn_all2; [reflexivity|].
      rewrite length_app, length_skipn. simpl. lia.
    + replace (Z.to_nat (width + 1))
        with (length (A ++ [gap] ++ B ++ C))
        by (rewrite !length_app; simpl; lia).
      change (A ++ gap :: B ++ C ++ D) with (A ++ [gap] ++ B ++ C ++ D).
      rewrite !app_assoc, skipn_app, skipn_all, Nat.sub_diag.
      reflexivity.
Qed.

Lemma abbreviateString_layout_witness :
  wf_cstring (lit "abcdefghij")
  /\ (Z.of_nat (length (lit "abcdefghij")) < 2 ^ 64)%Z
  /\ (0 <= 8 < 2 ^ 64)%Z
  /\ (Z.min (Z.of_nat (length (lit "abcdefghij"))) 8 + 1
      <= Z.of_nat (length (uninitialised 9)))%Z
  /\ exists gap,
       abbreviateString (uninitialised 9) (lit "abcdefghij") 8
       = Returns (map Some (lit "a") ++ [gap]
                  ++ map Some (lit "...hij" ++ [NUL])).
Proof.
  assert (H1 : wf_cstring (lit "abcdefghij")) by wf_lit.
  assert (H2 : (Z.of_nat (length (lit "abcdefghij")) < 2 ^ 64)%Z)
    by (simpl; lia).
  assert (H3 : (0 <= 8 < 2 ^ 64)%Z) by lia.
  assert (H4 : (Z.min (Z.of_nat (length (lit "abcdefghij"))) 8 + 1
                <= Z.of_nat (length (uninitialised 9)))%Z)
    by (simpl; lia).
  assert (H5 : (6 <= 8 < Z.of_nat (length (lit "abcdefghij")))%Z)
    by (simpl; lia).
  repeat (split; [assumption|]).
  destruct (abbreviateString_layout (uninitialised 9) (lit "abcdefghij") 8
              H1 H2 H3 H4) as [_ H].
  destruct (H H5) as [gap E]. exists gap. exact E.
Defined.

(** C6. The specification asks that every byte of an abbreviated result
    is defined, that the result has [width] characters, and that
    [abbreviateString(_, "abcdefghij", 8)] is [ab...hij]; the function is
    documented to fill the array.  The first copy takes [width/2 - 3]
    characters while the dots start at offset [width/2 - 2], so the byte
    at offset [width/2 - 3] is never written.  For [abcdefghij] and the
    width 8 that is the byte at offset 1: in an array that was never
    written it stays without a value and the array holds no C string; in
    an array of NUL bytes the result is [a], one character long; in an
    array filled with [x] the result is [ax...hij], which is neither the
    [ab...hij] of the specification nor a result with the dots at offset
    8/2 - 3 = 1. *)
Theorem abbreviateString_gap :
  (exists ret',
      abbreviateString (uninitialised 9) (lit "abcdefghij") 8 = Returns ret'
      /\ nth 1 ret' None = None
      /\ buffer_cstr ret' = Undefined)
  /\ (exists ret',
         abbreviateString (map Some (repeat NUL 9)) (lit "abcdefghij") 8
         = Returns ret'
         /\ buffer_cstr ret' = Returns (lit "a")
         /\ length (lit "a") <> Nat.min (length (lit "abcdefghij")) 8)
  /\ (exists ret',
         abbreviateString (map Some (lit "xxxxxxxxx")) (lit "abcdefghij") 8
         = Returns ret'
         /\ buffer_cstr ret' = Returns (lit "ax...hij")
         /\ lit "ax...hij" <> lit "ab...hij"
         /\ ~ abbreviated (lit "abcdefghij") 8 (lit "ax...hij")).
Proof.
  split; [|split].
  - eexists. split; [vm_compute; reflexivity|]. split; reflexivity.
  - eexists. split; [vm_compute; reflexivity|]. split; [reflexivity|].
    cbv. discriminate.
  - eexists. split; [vm_compute; reflexivity|]. split; [reflexivity|].
    split; [discriminate|].
    intros (_ & _ & H). destruct H as (p & s & E & Hp & _); [simpl; lia|].
    change (8 / 2 - 3) with 1 in Hp.
    destruct p as [|c [|d p]]; try discriminate Hp.
    vm_compute in E. discriminate E.
Qed.

(** The scenario of the specification, in an array filled with [x]: the
    second byte is the one the array had. *)
Example abbreviateString_scenario :
  (ret <- abbreviateString (map Some (lit "xxxxxxxxx"))
            (lit "abcdefghij") 8 ;;
   buffer_cstr ret)
  = Returns (lit "ax...hij").
Proof. vm_compute. reflexivity. Qed.

(** ** Binary64 arithmetic: what [len * 0.75] and [len * 0.42] are *)

Section Binary64.

Local Open Scope Z_scope.

Lemma digits2_pos_size (p : positive) : digits2_pos p = Pos.size p.
Proof. induction p; simpl; congruence. Qed.

Lemma digits2_pos_bounds (p : positive) :
  2 ^ (Zpos (digits2_pos p) - 1) <= Zpos p < 2 ^ Zpos (digits2_pos p).
Proof.
  rewrite digits2_pos_size. split.
  - pose proof (Pos.size_le p) as H.
    apply Pos2Z.pos_le_pos in H. rewrite Pos2Z.inj_pow in H.
    change (Z.pos p~0) with (2 * Z.pos p) in H.
    replace (Zpos (Pos.size p)) with (Z.succ (Zpos (Pos.size p) - 1)) in H by lia.
    rewrite Z.pow_succ_r in H by lia. lia.
  - pose proof (Pos.size_gt p) as H.
    apply Pos2Z.pos_lt_pos in H. now rewrite Pos2Z.inj_pow in H.
Qed.

Lemma iter_pos_nat {A : Type} (f : A -> A) (p : positive) (x : A) :
  iter_pos f p x = Nat.iter (Pos.to_nat p) f x.
Proof.
  revert x. induction p as [p IH|p IH|]; intros x; cbn [iter_pos].
  - rewrite !IH, Pos2Nat.inj_xI. 
    replace (S (2 * Pos.to_nat p)) with (Pos.to_nat p + (Pos.to_nat p + 1))%nat by lia.
    rewrite !Nat.iter_add. reflexivity.
  - rewrite !IH, Pos2Nat.inj_xO.
    replace (2 * Pos.to_nat p)%nat with (Pos.to_nat p + Pos.to_nat p)%nat by lia.
    rewrite Nat.iter_add. reflexivity.
  - reflexivity.
Qed.

Lemma shr_1_nonneg (m : Z) (r s : bool) :
  0 <= m ->
  shr_1 (Build_shr_record m r s) = Build_shr_record (m / 2) (Z.odd m) (r || s).
Proof.
  intros Hm. destruct m as [|p|p]; try lia.
  - reflexivity.
  - destruct p as [p|p|]; simpl shr_1; rewrite <- Z.div2_div; reflexivity.
Qed.

(** [j] shifts of a non-negative mantissa *)
Lemma shr_iter (m : Z) (j : nat) :
  0 <= m ->
  Nat.iter (S j) shr_1 (Build_shr_record m false false)
  = Build_shr_record (m / 2 ^ Z.of_nat (S j))
      (Z.testbit m (Z.of_nat j))
      (negb (m mod 2 ^ Z.of_nat j =? 0)).
Proof.
  intros Hm. induction j as [|j IH].
  - change (Nat.iter 1 shr_1 ?x) with (shr_1 x).
    rewrite shr_1_nonneg by lia.
    change (Z.of_nat 1) with 1. change (Z.of_nat 0) with 0.
    rewrite Z.pow_1_r, Z.pow_0_r, Z.mod_1_r. reflexivity.
  - change (Nat.iter (S (S j)) shr_1 ?x) with (shr_1 (Nat.iter (S j) shr_1 x)).
    rewrite IH, shr_1_nonneg by (apply Z.div_pos; lia).
    f_equal.
    + rewrite Z.div_div by lia. f_equal.
      rewrite (Nat2Z.inj_succ (S j)), Z.pow_succ_r; lia.
    + rewrite <- Z.bit0_odd, Z.div_pow2_bits by lia. reflexivity.
    + rewrite (Nat2Z.inj_succ j), Z.pow_succ_r by lia.
      pose proof (Z.pow_pos_nonneg 2 (Z.of_nat j) ltac:(lia) ltac:(lia)) as Hp.
      rewrite (Z.mul_comm 2), Z.rem_mul_r by lia.
      pose proof (Z.mod_pos_bound m (2 ^ Z.of_nat j) Hp) as Hr.
      destruct (Z.testbit m (Z.of_nat j)) eqn:T.
      * apply Z.testbit_true in T; [|lia]. rewrite T. simpl.
        symmetry. apply negb_true_iff, Z.eqb_neq. lia.
      * apply Z.testbit_false in T; [|lia]. rewrite T. simpl.
        now rewrite Z.mul_0_r, Z.add_0_r.
Qed.

Lemma rne_bounds (m k : Z) :
  0 <= k ->
  2 * rne m k * 2 ^ k - 2 ^ k <= 2 * m <= 2 * rne m k * 2 ^ k + 2 ^ k.
Proof.
  intros Hk. unfold rne.
  pose proof (Z.pow_pos_nonneg 2 k ltac:(lia) Hk) as Hp.
  pose proof (Z.div_mod m (2 ^ k) ltac:(lia)) as Hdm.
  pose proof (Z.mod_pos_bound m (2 ^ k) Hp) as Hr.
  set (P := 2 ^ k) in *. set (q := m / P) in *. set (r := m mod P) in *.
  destruct (Z.ltb_spec (2 * r) P); [nia|].
  destruct (Z.ltb_spec P (2 * r)); [nia|].
  destruct (Z.even q); nia.
Qed.

Lemma shr_round (m : Z) (k : positive) :
  0 <= m ->
  let mrs := iter_pos shr_1 k (shr_record_of_loc m loc_Exact) in
  round_nearest_even (shr_m mrs) (loc_of_shr_record mrs) = rne m (Zpos k).
Proof.
  intros Hm. cbv zeta. rewrite iter_pos_nat. cbn [shr_record_of_loc].
  destruct (Pos2Nat.is_succ k) as [j Hj]. rewrite Hj.
  rewrite shr_iter by assumption.
  assert (Hk : Zpos k = Z.of_nat (S j)) by lia.
  rewrite <- Hk. unfold rne.
  assert (Hj' : Z.of_nat j = Zpos k - 1) by lia. rewrite Hj'.
  replace (2 ^ Zpos k) with (2 ^ (Zpos k - 1) * 2)
    by (rewrite Z.mul_comm, <- Z.pow_succ_r by lia; f_equal; lia).
  pose proof (Z.pow_pos_nonneg 2 (Zpos k - 1) ltac:(lia) ltac:(lia)) as Hp.
  set (P := 2 ^ (Zpos k - 1)) in *.
  rewrite Z.rem_mul_r by lia.
  pose proof (Z.mod_pos_bound m P Hp) as Hr.
  set (lo := m mod P) in *.
  destruct (Z.testbit m (Zpos k - 1)) eqn:T.
  - apply Z.testbit_true in T; [|lia]. fold P in T. rewrite T.
    destruct (Z.eqb_spec lo 0) as [E|E]; cbn [negb loc_of_shr_record round_nearest_even shr_m].
    + destruct (Z.ltb_spec (2 * (lo + P * 1)) (P * 2)); [lia|].
      destruct (Z.ltb_spec (P * 2) (2 * (lo + P * 1))); [lia|]. reflexivity.
    + destruct (Z.ltb_spec (2 * (lo + P * 1)) (P * 2)); [lia|].
      destruct (Z.ltb_spec (P * 2) (2 * (lo + P * 1))); [|lia]. reflexivity.
  - apply Z.testbit_false in T; [|lia]. fold P in T. rewrite T.
    destruct (Z.ltb_spec (2 * (lo + P * 0)) (P * 2)); [|lia].
    destruct (Z.eqb_spec lo 0) as [E|E]; reflexivity.
Qed.

Lemma rne_floor (m k : Z) : m / 2 ^ k <= rne m k <= m / 2 ^ k + 1.
Proof.
  unfold rne.
  destruct (2 * (m mod 2 ^ k) <? 2 ^ k); [lia|].
  destruct (2 ^ k <? 2 * (m mod 2 ^ k)); [lia|].
  destruct (Z.even (m / 2 ^ k)); lia.
Qed.

Lemma pow2_split (a b : Z) : 0 <= a -> 0 <= b -> 2 ^ (a + b) = 2 ^ a * 2 ^ b.
Proof. intros. now apply Z.pow_add_r. Qed.

(** The product of two mantissas, rounded to 53 bits and then converted to
    [unsigned int]. *)
Lemma uint_of_rounded (m : positive) (e : Z) :
  let k := Zpos (digits2_pos m) - 53 in
  0 < k -> -1074 <= e + k -> e + k < 0 ->
  uint_of_double (binary_round_aux prec64 emax64 false (Zpos m) e loc_Exact)
  = let v := rne (Zpos m) k / 2 ^ (- (e + k)) in
    if v <? 2 ^ 32 then Returns v else Undefined.
Proof.
  intros k Hk Hlo Hneg.
  pose proof (digits2_pos_bounds m) as Hm.
  replace (Zpos (digits2_pos m)) with (53 + k) in Hm by (unfold k; lia).
  replace (53 + k - 1) with (52 + k) in Hm by lia.
  rewrite !pow2_split in Hm by lia.
  pose proof (Z.pow_pos_nonneg 2 k ltac:(lia) ltac:(lia)) as HP.
  assert (Hq : 2 ^ 52 <= Zpos m / 2 ^ k < 2 ^ 53).
  { split.
    - apply Z.div_le_lower_bound; lia.
    - apply Z.div_lt_upper_bound; lia. }
  pose proof (rne_floor (Zpos m) k) as Hr.
  unfold binary_round_aux, shr_fexp.
  cbn [Zdigits2].
  assert (Hf : fexp prec64 emax64 (Zpos (digits2_pos m) + e) - e = k).
  { unfold fexp, emin, prec64, emax64, k. lia. }
  rewrite Hf. destruct k as [|kp|kp] eqn:Ek; try lia.
  cbn [shr].
  pose proof (shr_round (Zpos m) kp ltac:(lia)) as Hround. cbv zeta in Hround.
  rewrite Hround. clear Hround.
  set (q' := rne (Zpos m) (Zpos kp)) in *.
  destruct q' as [|qp|qp] eqn:Eq'; try lia.
  pose proof (digits2_pos_bounds qp) as Hd.
  cbn [Zdigits2].
  assert (Hcases : (Zpos qp < 2 ^ 53 /\ Zpos (digits2_pos qp) = 53)
                   \/ (Zpos qp = 2 ^ 53 /\ Zpos (digits2_pos qp) = 54)).
  { destruct (Z.lt_ge_cases (Zpos qp) (2 ^ 53)) as [Hlt|Hge].
    - left. split; [exact Hlt|].
      destruct (Z.lt_trichotomy (Zpos (digits2_pos qp)) 53) as [H|[H|H]].
      + exfalso.
        assert (2 ^ Zpos (digits2_pos qp) <= 2 ^ 52)
          by (apply Z.pow_le_mono_r; lia). lia.
      + exact H.
      + exfalso.
        assert (2 ^ 53 <= 2 ^ (Zpos (digits2_pos qp) - 1))
          by (apply Z.pow_le_mono_r; lia). lia.
    - right. split; [lia|].
      destruct (Z.lt_trichotomy (Zpos (digits2_pos qp)) 54) as [H|[H|H]].
      + exfalso.
        assert (2 ^ Zpos (digits2_pos qp) <= 2 ^ 53)
          by (apply Z.pow_le_mono_r; lia). lia.
      + exact H.
      + exfalso.
        assert (2 ^ 54 <= 2 ^ (Zpos (digits2_pos qp) - 1))
          by (apply Z.pow_le_mono_r; lia). lia. }
  destruct Hcases as [[Hlt Hd53]|[Heq Hd54]].
  - assert (Hf' : fexp prec64 emax64 (Zpos (digits2_pos qp) + (e + Zpos kp))
                  - (e + Zpos kp) = 0).
    { unfold fexp, emin, prec64, emax64. lia. }
    rewrite Hf'. cbn [shr shr_record_of_loc shr_m].
    replace (e + Zpos kp <=? emax64 - prec64) with true
      by (symmetry; apply Z.leb_le; unfold emax64, prec64; lia).
    cbn [uint_of_double].
    replace (0 <=? e + Zpos kp) with false
      by (symmetry; apply Z.leb_gt; lia).
    reflexivity.
  - assert (Hf' : fexp prec64 emax64 (Zpos (digits2_pos qp) + (e + Zpos kp))
                  - (e + Zpos kp) = 1).
    { unfold fexp, emin, prec64, emax64. lia. }
    rewrite Hf'. cbn [shr shr_record_of_loc iter_pos].
    rewrite shr_1_nonneg by lia. cbn [shr_m].
    rewrite Heq. change (2 ^ 53 / 2) with (Zpos (2 ^ 52)).
    replace (e + Zpos kp + 1 <=? emax64 - prec64) with true
      by (symmetry; apply Z.leb_le; unfold emax64, prec64; lia).
    cbn [uint_of_double].
    assert (Hv : (if 0 <=? e + Zpos kp + 1
                  then Zpos (2 ^ 52) * 2 ^ (e + Zpos kp + 1)
                  else Zpos (2 ^ 52) / 2 ^ (- (e + Zpos kp + 1)))
                 = 2 ^ 53 / 2 ^ (- (e + Zpos kp))).
    { destruct (Z.leb_spec 0 (e + Zpos kp + 1)).
      - replace (e + Zpos kp + 1) with 0 by lia.
        replace (- (e + Zpos kp)) with 1 by lia. reflexivity.
      - replace (- (e + Zpos kp)) with (1 + - (e + Zpos kp + 1)) by lia.
        rewrite pow2_split by lia.
        change (2 ^ 53) with (2 ^ 1 * Zpos (2 ^ 52)).
        rewrite Z.div_mul_cancel_l; [reflexivity| |lia].
        apply Z.pow_nonzero; lia. }
    rewrite Hv. reflexivity.
Qed.

Lemma iter_xO_value (n p : positive) :
  Zpos (Pos.iter xO n p) = Zpos n * 2 ^ Zpos p.
Proof.
  induction p as [|p IH] using Pos.peano_ind.
  - cbn [Pos.iter]. rewrite Z.pow_1_r. lia.
  - rewrite Pos.iter_succ, Pos2Z.inj_succ, Z.pow_succ_r by lia.
    change (Zpos (Pos.iter xO n p)~0) with (2 * Zpos (Pos.iter xO n p)).
    rewrite IH. lia.
Qed.

Lemma iter_xO_digits (n p : positive) :
  digits2_pos (Pos.iter xO n p) = (digits2_pos n + p)%positive.
Proof.
  induction p as [|p IH] using Pos.peano_ind.
  - simpl. lia.
  - rewrite Pos.iter_succ. cbn [digits2_pos]. rewrite IH. lia.
Qed.

(** An [unsigned int] as a [double]: the mantissa is the number, shifted
    to 53 bits. *)
Lemma double_of_uint_pos (n : positive) :
  Zpos n < 2 ^ 32 ->
  exists (L : positive) (s : Z),
    double_of_uint (Zpos n) = S754_finite false L (- s)
    /\ 21 <= s <= 52
    /\ Zpos L = Zpos n * 2 ^ s
    /\ Zpos (digits2_pos L) = 53.
Proof.
  intros Hn.
  pose proof (digits2_pos_bounds n) as Hd.
  assert (Hd32 : Zpos (digits2_pos n) <= 32).
  { destruct (Z.le_gt_cases (Zpos (digits2_pos n)) 32) as [H|H]; [exact H|].
    exfalso.
    assert (2 ^ 32 <= 2 ^ (Zpos (digits2_pos n) - 1))
      by (apply Z.pow_le_mono_r; lia). lia. }
  unfold double_of_uint, binary_normalize, binary_round, shl_align.
  assert (Hf : fexp prec64 emax64 (Zpos (digits2_pos n) + 0) - 0
               = Zpos (digits2_pos n) - 53).
  { unfold fexp, emin, prec64, emax64. lia. }
  rewrite Hf.
  destruct (Zpos (digits2_pos n) - 53) as [|p|p] eqn:Ep; try lia.
  exists (Pos.iter xO n p), (Zpos p).
  assert (HL : Zpos (digits2_pos (Pos.iter xO n p)) = 53)
    by (rewrite iter_xO_digits; lia).
  split; [|split; [lia|split; [apply iter_xO_value|exact HL]]].
  replace (fexp prec64 emax64 (Zpos (digits2_pos n) + 0)) with (Zneg p)
    by (unfold fexp, emin, prec64, emax64; lia).
  unfold binary_round_aux, shr_fexp. cbn [Zdigits2].
  rewrite HL.
  replace (fexp prec64 emax64 (53 + Zneg p) - Zneg p) with 0
    by (unfold fexp, emin, prec64, emax64; lia).
  cbn [shr shr_record_of_loc shr_m loc_of_shr_record round_nearest_even
       Zdigits2].
  rewrite HL.
  replace (fexp prec64 emax64 (53 + Zneg p) - Zneg p) with 0
    by (unfold fexp, emin, prec64, emax64; lia).
  cbn [shr shr_m].
  replace (Zneg p <=? emax64 - prec64) with true
    by (symmetry; apply Z.leb_le; unfold emax64, prec64; lia).
  reflexivity.
Qed.

Lemma product_digits (L mc : positive) :
  Zpos (digits2_pos L) = 53 -> Zpos (digits2_pos mc) = 53 ->
  let k := Zpos (digits2_pos (L * mc)) - 53 in
  (k = 52 \/ k = 53)
  /\ 2 ^ (52 + k) <= Zpos L * Zpos mc < 2 ^ (53 + k).
Proof.
  intros HL Hmc k.
  pose proof (digits2_pos_bounds L) as BL. rewrite HL in BL.
  pose proof (digits2_pos_bounds mc) as Bmc. rewrite Hmc in Bmc.
  pose proof (digits2_pos_bounds (L * mc)) as BM.
  rewrite Pos2Z.inj_mul in BM.
  replace (Zpos (digits2_pos (L * mc))) with (53 + k) in BM by (unfold k; lia).
  replace (53 + k - 1) with (52 + k) in BM by lia.
  split; [|exact BM].
  assert (H104 : 2 ^ 104 <= Zpos L * Zpos mc) by nia.
  assert (H106 : Zpos L * Zpos mc < 2 ^ 106) by nia.
  destruct (Z.lt_trichotomy k 52) as [H|[H|H]]; [exfalso|now left|].
  - assert (2 ^ (53 + k) <= 2 ^ 104) by (apply Z.pow_le_mono_r; lia). lia.
  - destruct (Z.lt_trichotomy k 53) as [H'|[H'|H']]; [lia|now right|exfalso].
    assert (2 ^ 106 <= 2 ^ (52 + k)) by (apply Z.pow_le_mono_r; lia). lia.
Qed.

Lemma uint_of_scaled (n mc : positive) (sc : Z) :
  Zpos n < 2 ^ 32 -> Zpos (digits2_pos mc) = 53 -> 53 <= sc <= 54 ->
  exists U k Q,
    uint_of_double
      (double_mul (double_of_uint (Zpos n)) (S754_finite false mc (- sc)))
    = (let v := rne (Zpos n * U * Zpos mc) k / Q in
       if v <? 2 ^ 32 then Returns v else Undefined)
    /\ (k = 52 \/ k = 53)
    /\ 2 ^ 52 <= Zpos n * U < 2 ^ 53
    /\ 2 ^ (52 + k) <= Zpos n * U * Zpos mc < 2 ^ (53 + k)
    /\ U * 2 ^ sc = 2 ^ k * Q
    /\ 2 ^ 21 <= Q.
Proof.
  intros Hn Hmc Hsc.
  destruct (double_of_uint_pos n Hn) as (L & s & -> & Hs & HLv & HLd).
  destruct (product_digits L mc HLd Hmc) as [Hk HM].
  pose proof (digits2_pos_bounds L) as BL. rewrite HLd in BL.
  set (k := Zpos (digits2_pos (L * mc)) - 53) in *.
  exists (2 ^ s), k, (2 ^ (- (- s + - sc + k))).
  unfold double_mul. cbn [SFmul xorb].
  rewrite (uint_of_rounded (L * mc) (- s + - sc)) by (fold k; lia).
  fold k. rewrite Pos2Z.inj_mul, HLv.
  split; [reflexivity|]. split; [exact Hk|].
  rewrite <- HLv. split; [exact BL|]. split; [exact HM|]. split.
  - rewrite <- !pow2_split by lia. f_equal. lia.
  - apply Z.pow_le_mono_r; lia.
Qed.

Lemma div_between (x q a : Z) : 0 < q -> a * q <= x < (a + 1) * q -> x / q = a.
Proof.
  intros Hq H. symmetry. apply (Z.div_unique x q a (x - a * q)); lia.
Qed.

(** [len * 0.42], truncated. *)
Lemma scaled_0_42 (n U k Q : Z) :
  0 < n -> (k = 52 \/ k = 53) ->
  2 ^ 52 <= n * U < 2 ^ 53 ->
  2 ^ (52 + k) <= n * U * 7566047373982433 < 2 ^ (53 + k) ->
  U * 2 ^ 54 = 2 ^ k * Q -> 2 ^ 21 <= Q ->
  rne (n * U * 7566047373982433) k / Q = 42 * n / 100.
Proof.
  intros Hn Hk HL HM HT HQ.
  pose proof (rne_bounds (n * U * 7566047373982433) k ltac:(lia)) as Hr.
  set (q' := rne (n * U * 7566047373982433) k) in *.
  set (L := n * U) in *.
  pose proof (Z.div_mod (42 * n) 100 ltac:(lia)) as Hdm.
  pose proof (Z.mod_pos_bound (42 * n) 100 ltac:(lia)) as Hb.
  set (a := 42 * n / 100) in *. set (b := (42 * n) mod 100) in *.
  assert (HnQ : 42 * (L * 2 ^ 54) = (100 * a + b) * (2 ^ k * Q)).
  { rewrite <- HT, <- Hdm. unfold L. ring. }
  apply div_between; [lia|].
  destruct Hk as [-> | ->].
  - change (2 ^ (52 + 52)) with (2 ^ 104) in HM.
    change (2 ^ (53 + 52)) with (2 ^ 105) in HM.
    split.
    + destruct (Z.eq_dec b 0) as [Hb0|Hb0]; nia.
    + nia.
  - change (2 ^ (52 + 53)) with (2 ^ 105) in HM.
    change (2 ^ (53 + 53)) with (2 ^ 106) in HM.
    split.
    + destruct (Z.eq_dec b 0) as [Hb0|Hb0]; nia.
    + nia.
Qed.

(** [len * 0.75], truncated. *)
Lemma scaled_0_75 (n U k Q : Z) :
  0 < n -> (k = 52 \/ k = 53) ->
  2 ^ 52 <= n * U < 2 ^ 53 ->
  2 ^ (52 + k) <= n * U * 6755399441055744 < 2 ^ (53 + k) ->
  U * 2 ^ 53 = 2 ^ k * Q -> 2 ^ 21 <= Q ->
  rne (n * U * 6755399441055744) k / Q = 75 * n / 100.
Proof.
  intros Hn Hk HL HM HT HQ.
  pose proof (rne_bounds (n * U * 6755399441055744) k ltac:(lia)) as Hr.
  set (q' := rne (n * U * 6755399441055744) k) in *.
  set (L := n * U) in *.
  pose proof (Z.div_mod (75 * n) 100 ltac:(lia)) as Hdm.
  pose proof (Z.mod_pos_bound (75 * n) 100 ltac:(lia)) as Hb.
  set (a := 75 * n / 100) in *. set (b := (75 * n) mod 100) in *.
  assert (HnQ : 75 * (L * 2 ^ 53) = (100 * a + b) * (2 ^ k * Q)).
  { rewrite <- HT, <- Hdm. unfold L. ring. }
  apply div_between; [lia|].
  destruct Hk as [-> | ->].
  - change (2 ^ (52 + 52)) with (2 ^ 104) in HM.
    change (2 ^ (53 + 52)) with (2 ^ 105) in HM.
    split; nia.
  - change (2 ^ (52 + 53)) with (2 ^ 105) in HM.
    change (2 ^ (53 + 53)) with (2 ^ 106) in HM.
    split; nia.
Qed.

Lemma fill_exact (len : Z) :
  0 <= len < 2 ^ 32 ->
  uint_of_double (double_mul (double_of_uint len) double_0_75)
  = Returns (75 * len / 100).
Proof.
  intros Hlen. destruct len as [|n|n]; [reflexivity| |lia].
  destruct (uint_of_scaled n 6755399441055744 53 ltac:(lia) eq_refl ltac:(lia))
    as (U & k & Q & E & Hk & HL & HM & HT & HQ).
  unfold double_0_75. change (-53) with (- (53)). rewrite E. cbv zeta.
  rewrite (scaled_0_75 (Zpos n) U k Q) by (assumption || lia).
  destruct (Z.ltb_spec (75 * Zpos n / 100) (2 ^ 32)) as [_|H]; [reflexivity|].
  exfalso. assert (75 * Zpos n / 100 < 2 ^ 32); [|lia].
  apply Z.div_lt_upper_bound; lia.
Qed.

Lemma min_exact (len : Z) :
  0 <= len < 2 ^ 32 ->
  uint_of_double (double_mul (double_of_uint len) double_0_42)
  = Returns (42 * len / 100).
Proof.
  intros Hlen. destruct len as [|n|n]; [reflexivity| |lia].
  destruct (uint_of_scaled n 7566047373982433 54 ltac:(lia) eq_refl ltac:(lia))
    as (U & k & Q & E & Hk & HL & HM & HT & HQ).
  unfold double_0_42. change (-54) with (- (54)). rewrite E. cbv zeta.
  rewrite (scaled_0_42 (Zpos n) U k Q) by (assumption || lia).
  destruct (Z.ltb_spec (42 * Zpos n / 100) (2 ^ 32)) as [_|H]; [reflexivity|].
  exfalso. assert (42 * Zpos n / 100 < 2 ^ 32); [|lia].
  apply Z.div_lt_upper_bound; lia.
Qed.

(** The constants are the doubles nearest to 3/4 and to 42/100: 53-bit
    mantissas at most half a unit in the last place away. *)
Lemma double_constants_nearest :
  6755399441055744 * 4 = 3 * 2 ^ 53
  /\ 2 * Z.abs (7566047373982433 * 100 - 42 * 2 ^ 54) <= 100
  /\ 2 ^ 52 <= 6755399441055744 < 2 ^ 53
  /\ 2 ^ 52 <= 7566047373982433 < 2 ^ 53.
Proof. repeat split; vm_compute; congruence. Qed.

(** The products of the model are the products of the machine. *)
Example machine_products :
  forallb
    (fun len =>
       SFeqb (machine_product len double_0_75)
         (double_mul (double_of_uint len) double_0_75)
       && SFeqb (machine_product len double_0_42)
            (double_mul (double_of_uint len) double_0_42))
    [1; 3; 48; 50; 100; 65535; 4294967250; 4294967295]
  = true.
Proof. vm_compute. reflexivity. Qed.

End Binary64.

(** ** generateSalt *)

Lemma seedChars_alphabet :
  length seedChars = 62 /\ NoDup seedChars /\ Forall alphanumeric seedChars.
Proof.
  split; [reflexivity|]. split.
  - replace seedChars with (nodup ascii_dec seedChars)
      by (vm_compute; reflexivity).
    apply NoDup_nodup.
  - apply Forall_forall. intros c Hc.
    assert (H : forallb
                  (fun c => let n := nat_of_ascii c in
                            (97 <=? n) && (n <=? 122)
                            || (65 <=? n) && (n <=? 90)
                            || (48 <=? n) && (n <=? 57))
                  seedChars = true) by (vm_compute; reflexivity).
    rewrite forallb_forall in H. specialize (H c Hc). cbv zeta in H.
    unfold alphanumeric. cbv zeta.
    rewrite !orb_true_iff, !andb_true_iff, !Nat.leb_le in H. tauto.
Qed.

Lemma store_update (buf : buffer) (c : nat) (ch : ascii) :
  c < length buf -> store buf (Z.of_nat c) ch = Returns (update buf c ch).
Proof.
  intros Hc. unfold store, update.
  replace (_ && _)%bool with true
    by (symmetry; rewrite andb_true_iff, Z.leb_le, Z.ltb_lt; lia).
  now rewrite Nat2Z.id.
Qed.

Lemma length_update (buf : buffer) (c : nat) (ch : ascii) :
  c < length buf -> length (update buf c ch) = length buf.
Proof.
  intros Hc. unfold update.
  rewrite length_app, length_firstn. cbn [length]. rewrite length_skipn. lia.
Qed.

Lemma nth_error_update (buf : buffer) (c : nat) (ch : ascii) (i : nat) :
  c < length buf ->
  nth_error (update buf c ch) i
  = if Nat.eqb i c then Some (Some ch) else nth_error buf i.
Proof.
  intros Hc. unfold update.
  assert (Hf : length (firstn c buf) = c) by (rewrite length_firstn; lia).
  destruct (Nat.eqb_spec i c) as [->|Hne].
  - rewrite nth_error_app2 by lia. rewrite Hf, Nat.sub_diag. reflexivity.
  - destruct (Nat.lt_ge_cases i c) as [Hlt|Hge].
    + rewrite nth_error_app1 by lia. rewrite nth_error_firstn.
      destruct (Nat.ltb_spec i c); [reflexivity|lia].
    + rewrite nth_error_app2 by lia. rewrite Hf.
      destruct (i - c) as [|d] eqn:Ed; [lia|]. cbn [nth_error].
      rewrite nth_error_skipn. f_equal. lia.
Qed.

Lemma pad_nul_spec (n c : nat) (buf : buffer) :
  c + n <= length buf ->
  exists buf',
    pad_nul n (Z.of_nat c) buf = Returns buf'
    /\ length buf' = length buf
    /\ (forall i, c <= i < c + n -> nth_error buf' i = Some (Some NUL))
    /\ (forall i, ~ c <= i < c + n -> nth_error buf' i = nth_error buf i).
Proof.
  revert c buf. induction n as [|n IH]; intros c buf Hc.
  - exists buf. repeat split; auto. intros i Hi. lia.
  - cbn [pad_nul]. rewrite store_update by lia. cbn [bind].
    replace (Z.of_nat c + 1)%Z with (Z.of_nat (S c)) by lia.
    destruct (IH (S c) (update buf c NUL)) as (buf' & E & Hl & Hin & Hout).
    { rewrite length_update; lia. }
    exists buf'. rewrite length_update in Hl by lia.
    split; [exact E|]. split; [exact Hl|]. split.
    + intros i Hi. destruct (Nat.eq_dec i c) as [->|Hne].
      * rewrite Hout by lia. rewrite nth_error_update by lia.
        now rewrite Nat.eqb_refl.
      * apply Hin. lia.
    + intros i Hi. rewrite Hout by lia. rewrite nth_error_update by lia.
      destruct (Nat.eqb_spec i c); [lia|reflexivity].
Qed.

Section RandomSourceFacts.

Variable rng : Type.
Variable rand : rng -> Z * rng.

(** [rand()] returns a number between 0 and [RAND_MAX]. *)
Hypothesis rand_range : forall st, (0 <= fst (rand st) <= RAND_MAX)%Z.

Lemma fill_random_spec (n c : nat) (buf : buffer) (st : rng) :
  c + n <= length buf ->
  exists buf' st',
    fill_random rand n (Z.of_nat c) buf st = Returns (buf', st')
    /\ length buf' = length buf
    /\ (forall i, c <= i < c + n ->
                  exists ch, nth_error buf' i = Some (Some ch)
                             /\ In ch seedChars /\ alphanumeric ch)
    /\ (forall i, ~ c <= i < c + n -> nth_error buf' i = nth_error buf i).
Proof.
  revert c buf st. induction n as [|n IH]; intros c buf st Hc.
  - exists buf, st. repeat split; auto. intros i Hi. lia.
  - cbn [fill_random]. pose proof (rand_range st) as Hr.
    destruct (rand st) as [r st1]. cbn [fst] in Hr.
    destruct seedChars_alphabet as (Hlen & _ & Halpha).
    assert (Hi : (0 <= Z.rem r 62 < 62)%Z)
      by (apply Z.rem_bound_pos; lia).
    rewrite Hlen.
    replace (_ && _)%bool with true
      by (symmetry; rewrite andb_true_iff, Z.leb_le, Z.ltb_lt; lia).
    rewrite store_update by lia. cbn [bind].
    replace (Z.of_nat c + 1)%Z with (Z.of_nat (S c)) by lia.
    set (ch := nth (Z.to_nat (Z.rem r 62)) seedChars NUL).
    assert (Hin : In ch seedChars) by (apply nth_In; rewrite Hlen; lia).
    assert (Hch : In ch seedChars /\ alphanumeric ch).
    { split; [exact Hin|]. rewrite Forall_forall in Halpha. now apply Halpha. }
    clear Hin.
    destruct (IH (S c) (update buf c ch) st1)
      as (buf' & st' & E & Hl & Hin & Hout).
    { rewrite length_update; lia. }
    exists buf', st'. rewrite length_update in Hl by lia.
    split; [exact E|]. split; [exact Hl|]. split.
    + intros i Hi'. destruct (Nat.eq_dec i c) as [->|Hne].
      * exists ch. split; [|exact Hch].
        rewrite Hout by lia. rewrite nth_error_update by lia.
        now rewrite Nat.eqb_refl.
      * apply Hin. lia.
    + intros i Hi'. rewrite Hout by lia. rewrite nth_error_update by lia.
      destruct (Nat.eqb_spec i c); [lia|reflexivity].
Qed.

(** C9. For every [len] with floor(0.42 len) < floor(0.75 len), every
    array of at least [len] bytes and every state of the random source,
    [generateSalt] returns, and there is a size between floor(0.42 len),
    included, and floor(0.75 len), excluded, such that the bytes before
    it are characters of [seedChars], the 62 alphanumeric characters, and
    the bytes from it up to [len] are NUL; the bytes from [len] on are not
    written.  The hypothesis on [rand] is that it returns a number between
    0 and [RAND_MAX]. *)
Theorem generateSalt_layout (buf : buffer) (len : Z) (st : rng) :
  (0 <= len < 2 ^ 32)%Z -> (len <= Z.of_nat (length buf))%Z ->
  (42 * len / 100 < 75 * len / 100)%Z ->
  exists (size : nat) (buf' : buffer) (st' : rng),
    generateSalt rand buf len st = Returns (buf', st')
    /\ (42 * len / 100 <= Z.of_nat size < 75 * len / 100)%Z
    /\ length buf' = length buf
    /\ (forall i, i < size ->
                  exists ch, nth_error buf' i = Some (Some ch)
                             /\ In ch seedChars /\ alphanumeric ch)
    /\ (forall i, size <= i < Z.to_nat len ->
                  nth_error buf' i = Some (Some NUL))
    /\ (forall i, Z.to_nat len <= i -> nth_error buf' i = nth_error buf i).
Proof.
  intros Hlen Hbuf Hgap. unfold generateSalt.
  pose proof (rand_range st) as Hr.
  destruct (rand st) as [r st1]. cbn [fst] in Hr. unfold RAND_MAX in Hr.
  rewrite fill_exact, min_exact by assumption. cbn [bind].
  set (fill := (75 * len / 100)%Z) in *.
  set (min := (42 * len / 100)%Z) in *.
  assert (Hmin : (0 <= min)%Z) by (apply Z.div_pos; lia).
  assert (Hfill : (fill <= len)%Z).
  { unfold fill. apply Z.div_le_upper_bound; lia. }
  unfold uint.
  rewrite (Z.mod_small (fill - min)) by lia.
  destruct (Z.eqb_spec (fill - min) 0) as [E|_]; [lia|].
  rewrite (Z.mod_small r) by lia.
  pose proof (Z.mod_pos_bound r (fill - min) ltac:(lia)) as Hmod.
  rewrite (Z.mod_small (r mod (fill - min) + min)) by lia.
  set (size := (r mod (fill - min) + min)%Z) in *.
  destruct (fill_random_spec (Z.to_nat size) 0 buf st1 ltac:(lia))
    as (buf1 & st' & E1 & Hl1 & Hin1 & Hout1).
  change (Z.of_nat 0) with 0%Z in E1. rewrite E1. cbn [bind fst snd].
  destruct (pad_nul_spec (Z.to_nat (len - size)) (Z.to_nat size) buf1
              ltac:(lia))
    as (buf2 & E2 & Hl2 & Hin2 & Hout2).
  rewrite Z2Nat.id in E2 by lia. rewrite E2. cbn [bind].
  exists (Z.to_nat size), buf2, st'.
  split; [reflexivity|]. split; [lia|]. split; [lia|]. split; [|split].
  - intros i Hi. rewrite Hout2 by lia. apply Hin1. lia.
  - intros i Hi. apply Hin2. lia.
  - intros i Hi. rewrite Hout2, Hout1 by lia. reflexivity.
Qed.

End RandomSourceFacts.

Lemma generateSalt_layout_witness :
  (forall st, (0 <= fst (lcg st) <= RAND_MAX)%Z)
  /\ (0 <= 48 < 2 ^ 32)%Z
  /\ (48 <= Z.of_nat (length (uninitialised 48)))%Z
  /\ (42 * 48 / 100 < 75 * 48 / 100)%Z
  /\ exists (size : nat) (buf' : buffer) (st' : Z),
       generateSalt lcg (uninitialised 48) 48 1%Z = Returns (buf', st')
       /\ (42 * 48 / 100 <= Z.of_nat size < 75 * 48 / 100)%Z
       /\ length buf' = length (uninitialised 48)
       /\ (forall i, i < size ->
                     exists ch, nth_error buf' i = Some (Some ch)
                                /\ In ch seedChars /\ alphanumeric ch)
       /\ (forall i, size <= i < Z.to_nat 48 ->
                     nth_error buf' i = Some (Some NUL))
       /\ (forall i, Z.to_nat 48 <= i ->
                     nth_error buf' i = nth_error (uninitialised 48) i).
Proof.
  assert (H1 : forall st, (0 <= fst (lcg st) <= RAND_MAX)%Z).
  { intros st. unfold lcg, RAND_MAX. cbn [fst].
    pose proof (Z.mod_pos_bound (st * 1103515245 + 12345) (2 ^ 31)
                  ltac:(lia)). lia. }
  assert (H2 : (0 <= 48 < 2 ^ 32)%Z) by lia.
  assert (H3 : (48 <= Z.of_nat (length (uninitialised 48)))%Z)
    by (unfold uninitialised; rewrite repeat_length; lia).
  assert (H4 : (42 * 48 / 100 < 75 * 48 / 100)%Z) by (vm_compute; reflexivity).
  repeat (split; [assumption|]).
  exact (generateSalt_layout Z lcg H1 (uninitialised 48) 48 1%Z H2 H3 H4).
Defined.

(** The salt of [generatePassphraseFile], 48 bytes, from the seed 1: 26
    characters, then 22 NUL bytes. *)
Example generateSalt_48 :
  exists st',
    generateSalt lcg (uninitialised 48) 48 1%Z
    = Returns (map Some (lit "lc0oLURq41rOdYdoJ58aDAZYti" ++ repeat NUL 22),
               st').
Proof. eexists. vm_compute. reflexivity. Qed.

(** * Further properties of the configuration lists *)

(** ** findConfKey *)

Lemma findConfKey_keys (l l' : list confkeyval) (k : cstring) :
  map key l' = map key l -> findConfKey l' k = findConfKey l k.
Proof.
  revert l'. induction l as [|e l IH]; intros [|e' l'] H;
    try discriminate H; [reflexivity|].
  cbn [map] in H. injection H as Hk Hl.
  cbn [findConfKey]. now rewrite Hk, (IH l' Hl).
Qed.


(** X1. [findConfKey] returns the first entry of the list whose key is the
    given key: no entry before it has that key; it returns NULL exactly
    when no entry of the list has it. *)
Theorem findConfKey_first (l : list confkeyval) (k : cstring) :
  Forall (fun e => wf_cstring (key e)) l -> wf_cstring k ->
  match findConfKey l k with
  | Some i =>
      (exists e, nth_error l i = Some e /\ key e = k)
      /\ (forall j e, j < i -> nth_error l j = Some e -> key e <> k)
  | None => ~ In k (map key l)
  end.
Proof.
  intros Hl Hk. induction Hl as [|e l He Hl IH]; cbn [findConfKey].
  - intros [].
  - pose proof (strcmp_eq_iff (key e) k He Hk) as Hcmp.
    destruct (Z.eqb_spec (strcmp (key e) k) 0) as [E|E].
    + split.
      * exists e. split; [reflexivity|]. now apply Hcmp.
      * intros j e' Hj. lia.
    + assert (Hne : key e <> k) by (intros H; apply E; now apply Hcmp).
      destruct (findConfKey l k) as [i|]; cbn [option_map].
      * destruct IH as [[e' [Hn Hk']] Hfirst]. split.
        -- exists e'. auto.
        -- intros [|j] e'' Hj Hn'; cbn [nth_error] in Hn'.
           ++ now inversion Hn'; subst.
           ++ apply (Hfirst j e''); [lia|exact Hn'].
      * cbn [map In]. intros [H|H]; [now apply Hne|now apply IH].
Qed.

Lemma findConfKey_first_witness :
  Forall (fun e => wf_cstring (key e))
    [entry "port" INT None; entry "logfile" STR None;
     entry "port" STR None]
  /\ wf_cstring (lit "logfile")
  /\ (exists e, nth_error [entry "port" INT None; entry "logfile" STR None;
                           entry "port" STR None] 1 = Some e
                /\ key e = lit "logfile")
  /\ (forall j e, j < 1 ->
        nth_error [entry "port" INT None; entry "logfile" STR None;
                   entry "port" STR None] j = Some e ->
        key e <> lit "logfile").
Proof.
  assert (Hl : Forall (fun e => wf_cstring (key e))
                 [entry "port" INT None; entry "logfile" STR None;
                  entry "port" STR None])
    by (repeat (apply Forall_cons; [wf_lit|]); apply Forall_nil).
  assert (Hk : wf_cstring (lit "logfile")) by wf_lit.
  split; [exact Hl|]. split; [exact Hk|].
  exact (findConfKey_first _ _ Hl Hk).
Defined.

(** X2. A lookup depends on the keys only, so it finds the same entry
    before and after a value is set, a line or a file is loaded, or the
    values are freed. *)
Theorem findConfKey_stable (l : list confkeyval) (k : cstring) :
  (forall line, findConfKey (readConfLine l line) k = findConfKey l k)
  /\ (forall cnf l', readConfFile l cnf = Returns l' ->
                     findConfKey l' k = findConfKey l k)
  /\ findConfKey (freeConfFile l) k = findConfKey l k
  /\ (forall e v rest,
        findConfKey (snd (setConfVal e v) :: rest) k
        = findConfKey (e :: rest) k).
Proof.
  split; [|split; [|split]].
  - intros line. apply findConfKey_keys. apply readConfLine_frame.
  - intros cnf l' H. apply findConfKey_keys.
    now apply (readConfFile_frame l cnf).
  - apply findConfKey_keys. apply freeConfFile_frame.
  - intros e v rest. apply findConfKey_keys. cbn [map]. f_equal.
    apply setConfVal_frame.
Qed.

(** ** Loading a line, then looking its key up *)





(** ** What setConfVal stores *)

Lemma prefix_firstn_iff (p v : cstring) :
  firstn (length p) v = p <-> exists r, v = p ++ r.
Proof.
  split.
  - intros H. exists (skipn (length p) v).
    rewrite <- H at 1. symmetry. apply firstn_skipn.
  - intros [r ->]. rewrite firstn_app, firstn_all, Nat.sub_diag.
    cbn [firstn]. apply app_nil_r.
Qed.

Lemma MURI_test (v : cstring) :
  (strncmp v (lit "mapi:monetdb://") (strlen (lit "mapi:monetdb://")) =? 0)%Z
  = true
  <-> exists r, v = lit "mapi:monetdb://" ++ r.
Proof.
  rewrite Z.eqb_eq, strncmp_prefix_iff by wf_lit.
  apply prefix_firstn_iff.
Qed.

(** The three outcomes of a call with a string: a diagnostic and the same
    entry, or NULL and a stored value that is valid for the type. *)
Lemma setConfVal_outcome (e : confkeyval) (v : cstring) :
  (exists d, setConfVal e (Some v) = (Some d, e))
  \/ (exists v', setConfVal e (Some v) = (None, set_val e (Some v'))
                 /\ valid_value (type e) v').
Proof.
  unfold setConfVal, GDKstrdup. destruct (type e) eqn:Ht.
  - left. eexists. reflexivity.
  - destruct (skip_digits v) eqn:E.
    + right. exists v. split; [reflexivity|]. now apply skip_digits_nil_iff.
    + left. eexists. reflexivity.
  - destruct (_ || _ || _).
    + right. exists (lit "yes"). split; [reflexivity|]. now left.
    + destruct (_ || _ || _).
      * right. exists (lit "no"). split; [reflexivity|]. now right.
      * left. eexists. reflexivity.
  - right. exists v. split; reflexivity.
  - destruct (_ =? _)%Z eqn:E; cbn [negb].
    + right. exists v. split; [reflexivity|]. now apply MURI_test.
    + left. eexists. reflexivity.
  - right. exists v. split; reflexivity.
Qed.

Lemma setConfVal_well_typed (e : confkeyval) (v : option cstring) :
  well_typed e -> well_typed (snd (setConfVal e v)).
Proof.
  intros He. destruct v as [v|]; [|exact I].
  destruct (setConfVal_outcome e v) as [[d ->]|(v' & -> & Hv)]; [exact He|].
  exact Hv.
Qed.

Lemma readConfLine_well_typed (l : list confkeyval) (line : cstring) :
  Forall well_typed l -> Forall well_typed (readConfLine l line).
Proof.
  induction 1 as [|e l He Hl IH]; cbn [readConfLine]; constructor; auto.
  destruct (key_matches line e); [|exact He].
  now apply setConfVal_well_typed.
Qed.

(** A property of the list that every line keeps holds after the file. *)
Lemma readConfFile_invariant (P : list confkeyval -> Prop)
    (l : list confkeyval) (cnf : FILE) :
  (forall l line, P l -> P (readConfLine l line)) ->
  P l -> forall l', readConfFile l cnf = Returns l' -> P l'.
Proof.
  intros Hstep. funelim (readConfFile l cnf); intros HP l' Hl'.
  - inversion Hl'; subst. exact HP.
  - match goal with
    | IH : forall Q : list confkeyval -> Prop, _ |- _ =>
        apply (IH P Hstep (Hstep _ _ HP) l' Hl')
    end.
  - discriminate.
Qed.

(** X4. The values of a list stay valid for the types of their entries:
    when every value is a string of digits for INT, [yes] or [no] for
    BOOL, a string that starts with [mapi:monetdb://] for MURI, and absent
    for INVALID, the same holds after [setConfVal], after a line or a
    file is loaded, and after [freeConfFile]. *)
Theorem config_values_well_typed :
  (forall e v, well_typed e -> well_typed (snd (setConfVal e v)))
  /\ (forall l line,
        Forall well_typed l -> Forall well_typed (readConfLine l line))
  /\ (forall l cnf l',
        Forall well_typed l -> readConfFile l cnf = Returns l' ->
        Forall well_typed l')
  /\ (forall l, Forall well_typed (freeConfFile l)).
Proof.
  split; [exact setConfVal_well_typed|].
  split; [exact readConfLine_well_typed|].
  split.
  - intros l cnf l' Hl.
    apply (readConfFile_invariant (Forall well_typed) l cnf); [|exact Hl].
    exact readConfLine_well_typed.
  - intros l. induction l as [|e l IH]; cbn [freeConfFile]; constructor; auto.
    destruct (val e) eqn:E; unfold well_typed; [exact I|now rewrite E].
Qed.

(** X5. A value that [setConfVal] stored is accepted when it is passed to
    [setConfVal] again, and the entry stays as it is. *)
Theorem setConfVal_stored_again (e e' : confkeyval) (v : option cstring) :
  setConfVal e v = (None, e') -> setConfVal e' (val e') = (None, e').
Proof.
  destruct v as [v|].
  2:{ intros H. injection H as <-. reflexivity. }
  unfold setConfVal at 1. unfold GDKstrdup.
  destruct (type e) eqn:Ht.
  - discriminate.
  - destruct (skip_digits v) eqn:E; [|discriminate].
    intros H. injection H as <-. cbn [val set_val].
    unfold setConfVal. cbn [type set_val]. now rewrite Ht, E.
  - destruct (_ || _ || _).
    + intros H. injection H as <-. cbn [val set_val].
      unfold setConfVal. cbn [type set_val]. now rewrite Ht.
    + destruct (_ || _ || _); [|discriminate].
      intros H. injection H as <-. cbn [val set_val].
      unfold setConfVal. cbn [type set_val]. now rewrite Ht.
  - intros H. injection H as <-. cbn [val set_val].
    unfold setConfVal. cbn [type set_val]. now rewrite Ht.
  - destruct (_ =? _)%Z eqn:E; cbn [negb]; [|discriminate].
    intros H. injection H as <-. cbn [val set_val].
    unfold setConfVal. cbn [type set_val]. now rewrite Ht, E.
  - intros H. injection H as <-. cbn [val set_val].
    unfold setConfVal. cbn [type set_val]. now rewrite Ht.
Qed.

Lemma setConfVal_stored_again_witness :
  setConfVal (entry "exit" BOOL None) (Some (lit "TRUE"))
  = (None, entry "exit" BOOL (Some "yes"%string))
  /\ setConfVal (entry "exit" BOOL (Some "yes"%string)) (Some (lit "yes"))
     = (None, entry "exit" BOOL (Some "yes"%string)).
Proof.
  assert (H : setConfVal (entry "exit" BOOL None) (Some (lit "TRUE"))
              = (None, entry "exit" BOOL (Some "yes"%string)))
    by reflexivity.
  split; [exact H|].
  exact (setConfVal_stored_again _ _ _ H).
Defined.

(** X6. The inputs [setConfVal] accepts, type by type: none for INVALID,
    the strings of decimal digits (the empty one included) for INT, the
    six spellings of true and false for BOOL, the strings that start with
    [mapi:monetdb://] for MURI, every string for STR and OTHER.  Every
    other input is answered with a diagnostic. *)
Theorem setConfVal_accepts_iff (e : confkeyval) (v : cstring) :
  wf_cstring v ->
  (fst (setConfVal e (Some v)) = None <-> acceptable (type e) v).
Proof.
  intros Hv. unfold setConfVal, acceptable. destruct (type e) eqn:Ht.
  - cbn [fst]. split; [discriminate|tauto].
  - rewrite <- skip_digits_nil_iff.
    destruct (skip_digits v); cbn [fst]; split; auto; discriminate.
  - pose proof (truthy_test v Hv) as Hy. pose proof (falsy_test v Hv) as Hn.
    destruct (_ || _ || _).
    + cbn [fst]. split; [|reflexivity]. intros _. left. now apply Hy.
    + destruct (_ || _ || _).
      * cbn [fst]. split; [|reflexivity]. intros _. right. now apply Hn.
      * cbn [fst]. split; [discriminate|].
        intros [H|H]; [apply Hy in H|apply Hn in H]; discriminate.
  - cbn [fst]. tauto.
  - rewrite <- MURI_test.
    destruct (_ =? _)%Z; cbn [negb fst]; split; auto; discriminate.
  - cbn [fst]. tauto.
Qed.

Lemma setConfVal_accepts_iff_witness :
  wf_cstring (lit "mapi:monetdb://host:50000/db")
  /\ (fst (setConfVal (entry "forward" MURI None)
             (Some (lit "mapi:monetdb://host:50000/db"))) = None
      <-> exists r, lit "mapi:monetdb://host:50000/db"
                    = lit "mapi:monetdb://" ++ r).
Proof.
  assert (H : wf_cstring (lit "mapi:monetdb://host:50000/db")) by wf_lit.
  split; [exact H|].
  exact (setConfVal_accepts_iff (entry "forward" MURI None) _ H).
Defined.

(** X7. A diagnostic of [setConfVal] is the text [key '<key>' <reason>]
    cut to the 255 characters that fit the array it is formatted in. *)
Theorem setConfVal_diagnostic (e : confkeyval) (v : option cstring)
    (d : cstring) :
  fst (setConfVal e v) = Some d ->
  length d <= 255
  /\ exists reason,
       d = firstn 255 (lit "key '" ++ key e ++ lit "' " ++ reason).
Proof.
  intros H.
  assert (E : exists reason,
             d = firstn 255 (lit "key '" ++ key e ++ lit "' " ++ reason)).
  { revert H. unfold setConfVal, GDKstrdup, snprintf.
    change (256 - 1) with 255.
    destruct v as [v|]; [|discriminate].
    destruct (type e).
    - cbn [fst]. intros H. injection H as <-. eexists.
      change (lit "' is unitialised (invalid value), internal error")
        with (lit "' "
              ++ lit "is unitialised (invalid value), internal error").
      rewrite <- ?app_assoc. reflexivity.
    - destruct (skip_digits v); cbn [fst]; [discriminate|].
      intros H. injection H as <-. eexists.
      change (lit "' requires an integer-type value, got: ")
        with (lit "' " ++ lit "requires an integer-type value, got: ").
      rewrite <- ?app_assoc. reflexivity.
    - destruct (_ || _ || _); cbn [fst]; [discriminate|].
      destruct (_ || _ || _); cbn [fst]; [discriminate|].
      intros H. injection H as <-. eexists.
      change (lit "' requires a boolean-type value, got: ")
        with (lit "' " ++ lit "requires a boolean-type value, got: ").
      rewrite <- ?app_assoc. reflexivity.
    - cbn [fst]. discriminate.
    - destruct (negb _); cbn [fst]; [|discriminate].
      intros H. injection H as <-. eexists.
      change (lit "' requires a mapi:monetdb:// URI value, got: ")
        with (lit "' " ++ lit "requires a mapi:monetdb:// URI value, got: ").
      rewrite <- ?app_assoc. reflexivity.
    - cbn [fst]. discriminate. }
  split; [|exact E]. destruct E as [reason ->].
  rewrite length_firstn. lia.
Qed.

Lemma setConfVal_diagnostic_witness :
  fst (setConfVal (entry "port" INT None) (Some (lit "80a")))
  = Some (lit "key 'port' requires an integer-type value, got: 80a")
  /\ length (lit "key 'port' requires an integer-type value, got: 80a")
     <= 255.
Proof.
  assert (H : fst (setConfVal (entry "port" INT None) (Some (lit "80a")))
              = Some (lit "key 'port' requires an integer-type value, got: 80a"))
    by reflexivity.
  split; [exact H|].
  exact (proj1 (setConfVal_diagnostic _ _ _ H)).
Defined.

(** ** freeConfFile *)

Lemma freeConfFile_unset (l : list confkeyval) :
  freeConfFile l = map unset l.
Proof.
  induction l as [|e l IH]; cbn [freeConfFile map]; [reflexivity|].
  rewrite IH. f_equal. destruct e as [k t [v|]]; reflexivity.
Qed.

Lemma unset_frame (l l' : list confkeyval) :
  map key l' = map key l -> map type l' = map type l ->
  map unset l' = map unset l.
Proof.
  revert l'. induction l as [|e l IH]; intros [|e' l'] Hk Ht;
    try discriminate Hk; [reflexivity|].
  cbn [map] in *. injection Hk as Hk Hkl. injection Ht as Ht Htl.
  rewrite (IH l' Hkl Htl). unfold unset. now rewrite Hk, Ht.
Qed.

(** X8. [freeConfFile] leaves every entry of the list without a value,
    and nothing of what was loaded before remains: freeing after a line or
    a file was loaded gives the same list as freeing before, and freeing
    twice is freeing once. *)
Theorem freeConfFile_resets (l : list confkeyval) :
  Forall (fun e => val e = None) (freeConfFile l)
  /\ freeConfFile (freeConfFile l) = freeConfFile l
  /\ (forall line, freeConfFile (readConfLine l line) = freeConfFile l)
  /\ (forall cnf l', readConfFile l cnf = Returns l' ->
                     freeConfFile l' = freeConfFile l).
Proof.
  split; [|split; [|split]].
  - rewrite freeConfFile_unset. apply Forall_map.
    apply Forall_forall. reflexivity.
  - rewrite !freeConfFile_unset, map_map. reflexivity.
  - intros line. rewrite !freeConfFile_unset.
    apply unset_frame; apply readConfLine_frame.
  - intros cnf l' H. rewrite !freeConfFile_unset.
    apply unset_frame; now apply (readConfFile_frame l cnf).
Qed.

(** ** readConfFile on a text file *)

(** X9. A text is read line by line: each line that ends with a newline
    reaches the entries without that newline, in the order of the file,
    and a last line that does not end with a newline reaches them without
    its last character. *)
Theorem readConfFile_text (lines : list (list ascii)) (last : list ascii)
    (l : list confkeyval) :
  Forall text_line lines -> text_line last ->
  readConfFile l (concat (map (fun ln => ln ++ [newline]) lines) ++ last)
  = Returns
      (match last with
       | [] => fold_left readConfLine lines l
       | _ :: _ =>
           readConfLine (fold_left readConfLine lines l) (removelast last)
       end).
Proof.
  intros H Hlast. revert l. induction H as [|ln lines Hln Hlines IH]; intros l.
  - cbn [map concat fold_left app]. destruct last as [|c last].
    + now rewrite readConfFile_while.
    + apply readConfFile_unterminated; [exact Hlast|discriminate].
  - cbn [map concat fold_left]. rewrite <- !app_assoc. cbn [app].
    rewrite (readConfFile_line l ln _ Hln). apply IH.
Qed.

Lemma readConfFile_text_witness :
  Forall text_line [lit "port=50000"; lit "# no key here"]
  /\ text_line (lit "logfile=/tmp/l")
  /\ readConfFile [entry "port" INT None; entry "logfile" STR None]
       (concat (map (fun ln => ln ++ [newline])
                  [lit "port=50000"; lit "# no key here"])
        ++ lit "logfile=/tmp/l")
     = Returns [entry "port" INT (Some "50000"%string);
                entry "logfile" STR (Some "/tmp/"%string)].
Proof.
  assert (Ht : forall s,
             forallb (fun c => negb (Ascii.eqb c NUL)
                               && negb (Ascii.eqb c newline)) s = true ->
             length s < 1023 -> text_line s).
  { intros s Hs Hlen. rewrite forallb_forall in Hs.
    split; [|split; [|exact Hlen]].
    - apply Forall_forall. intros c Hc ->. specialize (Hs _ Hc).
      discriminate Hs.
    - intros Hc. specialize (Hs _ Hc). discriminate Hs. }
  assert (H1 : Forall text_line [lit "port=50000"; lit "# no key here"]).
  { repeat (apply Forall_cons;
            [apply Ht; [vm_compute; reflexivity|cbv; lia]|]).
    apply Forall_nil. }
  assert (H2 : text_line (lit "logfile=/tmp/l"))
    by (apply Ht; [vm_compute; reflexivity|cbv; lia]).
  split; [exact H1|]. split; [exact H2|].
  exact (readConfFile_text _ _
           [entry "port" INT None; entry "logfile" STR None] H1 H2).
Defined.

(** ** What loading changes *)

Lemma loaded_trans (e e1 e2 : confkeyval) :
  loaded e e1 -> loaded e1 e2 -> loaded e e2.
Proof.
  intros [->|(v & -> & Hv)] H; [exact H|].
  destruct H as [->|(v' & -> & Hv')].
  - right. eauto.
  - right. exists v'. split; [reflexivity|exact Hv'].
Qed.

Lemma setConfVal_loaded (e : confkeyval) (v : cstring) :
  loaded e (snd (setConfVal e (Some v))).
Proof.
  destruct (setConfVal_outcome e v) as [[d ->]|(v' & -> & Hv)]; cbn [snd].
  - now left.
  - right. exists v'. split; [reflexivity|exact Hv].
Qed.

Lemma readConfLine_loaded (l0 l : list confkeyval) (line : cstring) :
  Forall2 loaded l0 l -> Forall2 loaded l0 (readConfLine l line).
Proof.
  induction 1 as [|e0 e l0 l He Hl IH]; cbn [readConfLine]; constructor; auto.
  destruct (key_matches line e); [|exact He].
  apply (loaded_trans e0 e _ He). apply setConfVal_loaded.
Qed.

Lemma Forall2_loaded_refl (l : list confkeyval) : Forall2 loaded l l.
Proof. induction l; constructor; auto. now left. Qed.

(** X10. Loading a file changes an entry in one way only: by storing a
    value that is valid for its type.  No key and no type changes, and a
    value that was set is never unset, whatever the file holds. *)
Theorem readConfFile_loaded (l l' : list confkeyval) (cnf : FILE) :
  readConfFile l cnf = Returns l' ->
  Forall2 loaded l l'
  /\ Forall2 (fun e e' => val e <> None -> val e' <> None) l l'.
Proof.
  intros H.
  assert (Hl : Forall2 loaded l l').
  { apply (readConfFile_invariant (Forall2 loaded l) l cnf); auto.
    - intros l1 line. apply readConfLine_loaded.
    - apply Forall2_loaded_refl. }
  split; [exact Hl|].
  eapply Forall2_impl; [|exact Hl].
  intros e e' [->|(v & -> & _)]; [auto|]. discriminate.
Qed.

Lemma readConfFile_loaded_witness :
  readConfFile [entry "port" INT (Some "50000"%string);
                entry "logfile" STR None]
    (lit "port=80a" ++ newline :: lit "logfile=/tmp/l" ++ [newline])
  = Returns [entry "port" INT (Some "50000"%string);
             entry "logfile" STR (Some "/tmp/l"%string)]
  /\ Forall2 loaded
       [entry "port" INT (Some "50000"%string); entry "logfile" STR None]
       [entry "port" INT (Some "50000"%string);
        entry "logfile" STR (Some "/tmp/l"%string)].
Proof.
  assert (H : readConfFile [entry "port" INT (Some "50000"%string);
                            entry "logfile" STR None]
                (lit "port=80a" ++ newline
                 :: lit "logfile=/tmp/l" ++ [newline])
              = Returns [entry "port" INT (Some "50000"%string);
                         entry "logfile" STR (Some "/tmp/l"%string)])
    by reflexivity.
  split; [exact H|].
  exact (proj1 (readConfFile_loaded _ _ _ H)).
Defined.

Lemma key_matches_equals (line : cstring) (t : confkeyval) :
  key_matches line t = true -> In "="%char line.
Proof.
  unfold key_matches. rewrite !andb_true_iff. intros [_ H].
  apply Ascii.eqb_eq in H.
  destruct (nth_in_or_default (strlen (key t)) line NUL) as [Hin|Hd].
  - now rewrite H in Hin.
  - rewrite H in Hd. discriminate Hd.
Qed.

Lemma readConfLine_no_equals (l : list confkeyval) (line : cstring) :
  ~ In "="%char line -> readConfLine l line = l.
Proof.
  intros H. apply readConfLine_no_match. apply Forall_forall. intros t _.
  destruct (key_matches line t) eqn:E; [|reflexivity].
  destruct (H (key_matches_equals line t E)).
Qed.

(** X11. Lines without ['='] (blank lines, comments, section headers)
    are skipped: a text file that has no other line leaves every entry of
    the list as it was, whatever the keys of the list are. *)
Theorem readConfFile_no_equals (lines : list (list ascii))
    (l : list confkeyval) :
  Forall text_line lines ->
  Forall (fun ln => ~ In "="%char ln) lines ->
  readConfFile l (concat (map (fun ln => ln ++ [newline]) lines))
  = Returns l.
Proof.
  intros Ht Hn. rewrite (readConfFile_lines lines l Ht). f_equal.
  clear Ht. induction Hn as [|ln lines Hln Hlines IH]; cbn [fold_left].
  - reflexivity.
  - now rewrite (readConfLine_no_equals l ln Hln).
Qed.

Lemma readConfFile_no_equals_witness :
  Forall text_line [lit "# merovingian"; lit ""; lit "[section]"]
  /\ Forall (fun ln => ~ In "="%char ln)
       [lit "# merovingian"; lit ""; lit "[section]"]
  /\ readConfFile [entry "port" INT (Some "50000"%string)]
       (concat (map (fun ln => ln ++ [newline])
                  [lit "# merovingian"; lit ""; lit "[section]"]))
     = Returns [entry "port" INT (Some "50000"%string)].
Proof.
  assert (Ht : forall s,
             forallb (fun c => negb (Ascii.eqb c NUL)
                               && negb (Ascii.eqb c newline)
                               && negb (Ascii.eqb c "=")) s = true ->
             length s < 1023 -> text_line s /\ ~ In "="%char s).
  { intros s Hs Hlen. rewrite forallb_forall in Hs.
    split; [split; [|split; [|exact Hlen]]|].
    - apply Forall_forall. intros c Hc ->. specialize (Hs _ Hc).
      discriminate Hs.
    - intros Hc. specialize (Hs _ Hc). discriminate Hs.
    - intros Hc. specialize (Hs _ Hc). discriminate Hs. }
  assert (H1 : Forall text_line [lit "# merovingian"; lit ""; lit "[section]"]).
  { repeat (apply Forall_cons;
            [apply Ht; [vm_compute; reflexivity|cbv; lia]|]).
    apply Forall_nil. }
  assert (H2 : Forall (fun ln => ~ In "="%char ln)
                 [lit "# merovingian"; lit ""; lit "[section]"]).
  { repeat (apply Forall_cons;
            [apply Ht; [vm_compute; reflexivity|cbv; lia]|]).
    apply Forall_nil. }
  split; [exact H1|]. split; [exact H2|].
  exact (readConfFile_no_equals _ _ H1 H2).
Defined.

(** ** Lines that do not fit, and NUL bytes *)

Lemma In_firstn {A : Type} (x : A) (n : nat) (l : list A) :
  In x (firstn n l) -> In x l.
Proof.
  intros H. rewrite <- (firstn_skipn n l). apply in_or_app. now left.
Qed.

Lemma read_line_full (n : nat) (ln : list ascii) (rest : FILE) :
  ~ In newline (firstn n ln) -> n <= length ln ->
  read_line n (ln ++ rest) = (firstn n ln, skipn n ln ++ rest).
Proof.
  revert ln. induction n as [|n IH]; intros ln Hnl Hlen.
  - reflexivity.
  - destruct ln as [|c ln]; [cbn [length] in Hlen; lia|].
    cbn [firstn In app read_line skipn length] in *.
    destruct (Ascii.eqb_spec c newline) as [->|_]; [tauto|].
    rewrite IH; [reflexivity|tauto|lia].
Qed.

(** X12. A line of 1023 characters or more does not fit the array of
    [readConfFile]: its first 1023 characters are read as a line of their
    own, the last one of them is cut as if it were the newline, and the
    remainder of the line is read as the next line. *)
Theorem readConfFile_long_line (l : list confkeyval) (ln : list ascii)
    (rest : FILE) :
  wf_cstring ln -> ~ In newline ln -> 1023 <= length ln ->
  readConfFile l (ln ++ rest)
  = readConfFile (readConfLine l (firstn 1022 ln)) (skipn 1023 ln ++ rest).
Proof.
  intros Hwf Hnl Hlen. rewrite readConfFile_while. unfold fgets.
  change (1024 - 1) with 1023.
  remember 1023 as n eqn:Hn.
  rewrite (read_line_full n ln rest).
  - destruct (ln ++ rest) eqn:E.
    { destruct ln; [cbn [length] in Hlen; lia|discriminate E]. }
    rewrite cut_last_byte_chunk.
    + cbn [bind]. do 2 f_equal.
      rewrite <- firstn_removelast, length_firstn, firstn_firstn.
      f_equal. lia.
    + unfold wf_cstring in *. rewrite Forall_forall in *.
      intros c Hc. apply Hwf. revert Hc. apply In_firstn.
    + destruct ln; [cbn [length] in Hlen; lia|]. subst n. discriminate.
  - intros H. apply Hnl. revert H. apply In_firstn.
  - exact Hlen.
Qed.

Lemma readConfFile_long_line_witness :
  wf_cstring (lit "a=" ++ repeat "v"%char 1021 ++ lit "w")
  /\ ~ In newline (lit "a=" ++ repeat "v"%char 1021 ++ lit "w")
  /\ 1023 <= length (lit "a=" ++ repeat "v"%char 1021 ++ lit "w")
  /\ readConfFile [entry "a" STR None]
       ((lit "a=" ++ repeat "v"%char 1021 ++ lit "w") ++ [newline])
     = Returns [mk_confkeyval (lit "a") STR (Some (repeat "v"%char 1020))].
Proof.
  assert (H0 : forallb (fun c => negb (Ascii.eqb c NUL)
                                 && negb (Ascii.eqb c newline))
                 (lit "a=" ++ repeat "v"%char 1021 ++ lit "w") = true)
    by (vm_compute; reflexivity).
  rewrite forallb_forall in H0.
  assert (H1 : wf_cstring (lit "a=" ++ repeat "v"%char 1021 ++ lit "w")).
  { apply Forall_forall. intros c Hc ->. specialize (H0 _ Hc).
    discriminate H0. }
  assert (H2 : ~ In newline (lit "a=" ++ repeat "v"%char 1021 ++ lit "w")).
  { intros Hc. specialize (H0 _ Hc). discriminate H0. }
  assert (H3 : 1023 <= length (lit "a=" ++ repeat "v"%char 1021 ++ lit "w")).
  { rewrite !length_app, repeat_length.
    change (length (lit "a=")) with 2. change (length (lit "w")) with 1. lia. }
  split; [exact H1|]. split; [exact H2|]. split; [exact H3|].
  rewrite (readConfFile_long_line _ _ [newline] H1 H2 H3).
  vm_compute. reflexivity.
Defined.

(** X13. A NUL byte at the beginning of a line makes [readConfFile]
    undefined: the C string in the array is empty, and the byte that is
    set to cut the newline is the one before the array. *)
Theorem readConfFile_NUL_line (lines : list (list ascii))
    (l : list confkeyval) (rest : FILE) :
  Forall text_line lines ->
  readConfFile l
    (concat (map (fun ln => ln ++ [newline]) lines) ++ NUL :: rest)
  = Undefined.
Proof.
  intros H. revert l. induction H as [|ln lines Hln Hlines IH]; intros l.
  - cbn [map concat app]. rewrite readConfFile_while. unfold fgets.
    change (1024 - 1) with (S 1022). generalize 1022 as n. intros n.
    cbn [read_line].
    change (Ascii.eqb NUL newline) with false. cbv iota.
    destruct (read_line n rest) as [chunk r]. reflexivity.
  - cbn [map concat]. rewrite <- !app_assoc. cbn [app].
    rewrite (readConfFile_line l ln _ Hln). apply IH.
Qed.

Lemma readConfFile_NUL_line_witness :
  Forall text_line [lit "port=50000"]
  /\ readConfFile [entry "port" INT None]
       (concat (map (fun ln => ln ++ [newline]) [lit "port=50000"])
        ++ NUL :: lit "logfile=/tmp/l")
     = Undefined.
Proof.
  assert (H : Forall text_line [lit "port=50000"]).
  { apply Forall_cons; [|apply Forall_nil].
    split; [wf_lit|]. split; [|cbv; lia].
    intros Hc. vm_compute in Hc. intuition discriminate. }
  split; [exact H|].
  exact (readConfFile_NUL_line _ [entry "port" INT None]
           (lit "logfile=/tmp/l") H).
Defined.

(** ** Loading a file twice *)

Lemma readConfLine_map (l : list confkeyval) (line : cstring) :
  readConfLine l line = map (line_step line) l.
Proof.
  induction l as [|t l IH]; cbn [readConfLine map]; [reflexivity|].
  now rewrite IH.
Qed.

Lemma fold_readConfLine_map (lines : list cstring) (l : list confkeyval) :
  fold_left readConfLine lines l
  = map (fun e => fold_left (fun e ln => line_step ln e) lines e) l.
Proof.
  revert l. induction lines as [|ln lines IH]; intros l; cbn [fold_left].
  - now rewrite map_id.
  - now rewrite IH, readConfLine_map, map_map.
Qed.

Lemma line_step_frame (line : cstring) (e : confkeyval) :
  key (line_step line e) = key e /\ type (line_step line e) = type e.
Proof.
  unfold line_step. destruct (key_matches line e); [|split; reflexivity].
  apply setConfVal_frame.
Qed.

(** A line leaves two entries of the same key and type as they are, or
    makes them the same entry: what it stores does not depend on the
    value the entry had. *)
Lemma line_step_dichotomy (line : cstring) (e1 e2 : confkeyval) :
  key e1 = key e2 -> type e1 = type e2 ->
  (line_step line e1 = e1 /\ line_step line e2 = e2)
  \/ line_step line e1 = line_step line e2.
Proof.
  intros Hk Ht. unfold line_step, key_matches. rewrite Hk.
  destruct (_ && _ && _); [|left; split; reflexivity].
  generalize (skipn (strlen (key e2) + 1) line) as v. intros v.
  change (@Some (list ascii) v) with (@Some cstring v).
  destruct (setConfVal_outcome e1 v) as [[d1 E1]|(v1 & E1 & _)];
    destruct (setConfVal_outcome e2 v) as [[d2 E2]|(v2 & E2 & _)].
  - left. now rewrite E1, E2.
  - exfalso. revert E1 E2. unfold setConfVal. rewrite Ht.
    destruct (type e2); try discriminate;
      repeat match goal with
             | |- context [match skip_digits ?x with _ => _ end] =>
                 destruct (skip_digits x)
             | |- context [if ?b then _ else _] => destruct b
             end; discriminate.
  - exfalso. revert E1 E2. unfold setConfVal. rewrite Ht.
    destruct (type e2); try discriminate;
      repeat match goal with
             | |- context [match skip_digits ?x with _ => _ end] =>
                 destruct (skip_digits x)
             | |- context [if ?b then _ else _] => destruct b
             end; discriminate.
  - right. rewrite E1, E2. cbn [snd]. unfold set_val. rewrite Hk, Ht.
    do 2 f_equal. revert E1 E2. unfold setConfVal, GDKstrdup, set_val.
    rewrite Ht.
    destruct (type e2); try discriminate;
      repeat match goal with
             | |- context [match skip_digits ?x with _ => _ end] =>
                 destruct (skip_digits x)
             | |- context [if ?b then _ else _] => destruct b
             end; try discriminate; congruence.
Qed.

Lemma lines_dichotomy (lines : list cstring) (e1 e2 : confkeyval) :
  key e1 = key e2 -> type e1 = type e2 ->
  (fold_left (fun e ln => line_step ln e) lines e1 = e1
   /\ fold_left (fun e ln => line_step ln e) lines e2 = e2)
  \/ fold_left (fun e ln => line_step ln e) lines e1
     = fold_left (fun e ln => line_step ln e) lines e2.
Proof.
  revert e1 e2. induction lines as [|ln lines IH]; intros e1 e2 Hk Ht;
    cbn [fold_left]; [left; split; reflexivity|].
  destruct (line_step_dichotomy ln e1 e2 Hk Ht) as [[-> ->] | ->].
  - now apply IH.
  - now right.
Qed.

Lemma lines_frame (lines : list cstring) (e : confkeyval) :
  key (fold_left (fun e ln => line_step ln e) lines e) = key e
  /\ type (fold_left (fun e ln => line_step ln e) lines e) = type e.
Proof.
  revert e. induction lines as [|ln lines IH]; intros e; cbn [fold_left];
    [split; reflexivity|].
  destruct (IH (line_step ln e)) as [Hk Ht].
  destruct (line_step_frame ln e) as [Hk' Ht']. split; congruence.
Qed.

(** X14. Loading is idempotent: a text file that is loaded into the list
    it has just been loaded into changes nothing. *)
Theorem readConfFile_twice (lines : list (list ascii))
    (l : list confkeyval) :
  Forall text_line lines ->
  exists l1,
    readConfFile l (concat (map (fun ln => ln ++ [newline]) lines))
    = Returns l1
    /\ readConfFile l1 (concat (map (fun ln => ln ++ [newline]) lines))
       = Returns l1.
Proof.
  intros H. exists (fold_left readConfLine lines l).
  rewrite !(readConfFile_lines lines _ H). split; [reflexivity|]. f_equal.
  rewrite !fold_readConfLine_map, map_map. apply map_ext. intros e.
  destruct (lines_frame lines e) as [Hk Ht].
  destruct (lines_dichotomy lines _ e Hk Ht) as [[H1 _]|H1]; exact H1.
Qed.

Lemma readConfFile_twice_witness :
  Forall text_line [lit "port=50000"; lit "port=80a"]
  /\ exists l1,
       readConfFile [entry "port" INT None]
         (concat (map (fun ln => ln ++ [newline])
                    [lit "port=50000"; lit "port=80a"]))
       = Returns l1
       /\ readConfFile l1
            (concat (map (fun ln => ln ++ [newline])
                       [lit "port=50000"; lit "port=80a"]))
          = Returns l1.
Proof.
  assert (Ht : forall s,
             forallb (fun c => negb (Ascii.eqb c NUL)
                               && negb (Ascii.eqb c newline)) s = true ->
             length s < 1023 -> text_line s).
  { intros s Hs Hlen. rewrite forallb_forall in Hs.
    split; [|split; [|exact Hlen]].
    - apply Forall_forall. intros c Hc ->. specialize (Hs _ Hc).
      discriminate Hs.
    - intros Hc. specialize (Hs _ Hc). discriminate Hs. }
  assert (H : Forall text_line [lit "port=50000"; lit "port=80a"]).
  { repeat (apply Forall_cons;
            [apply Ht; [vm_compute; reflexivity|cbv; lia]|]).
    apply Forall_nil. }
  split; [exact H|].
  exact (readConfFile_twice _ [entry "port" INT None] H).
Defined.

(** * Further properties of the string functions *)

(** ** replacePrefix *)

Lemma memcpy_length (dst : buffer) (doff : Z) (src : list ascii)
    (soff n : Z) (b : buffer) :
  memcpy dst doff src soff n = Returns b -> length b = length dst.
Proof.
  unfold memcpy. destruct (_ && _ && _ && _ && _)%bool eqn:E; [|discriminate].
  rewrite !andb_true_iff, !Z.leb_le in E.
  destruct E as [[[[H1 H2] H3] H4] H5].
  intros H. injection H as <-.
  rewrite !length_app, length_map, !length_firstn, !length_skipn. lia.
Qed.

Lemma memcpy_overrun (dst : buffer) (doff : Z) (src : list ascii)
    (soff n : Z) :
  (Z.of_nat (length dst) < doff + n)%Z ->
  memcpy dst doff src soff n = Undefined.
Proof.
  intros H. unfold memcpy.
  destruct (_ && _ && _ && _ && _)%bool eqn:E; [|reflexivity].
  rewrite !andb_true_iff, !Z.leb_le in E. lia.
Qed.

(** X15. [replacePrefix] builds its result in an array of 1024 bytes:
    when the result has more than 1023 characters, a copy writes past the
    end of that array and the call is undefined. *)
Theorem replacePrefix_too_long (s r prefix : cstring) :
  replaced prefix s r ->
  (Z.of_nat (length s) < 2 ^ 64 - 1)%Z -> 1023 < length r ->
  replacePrefix (Some s) prefix = Undefined.
Proof.
  intros Hr Hs Hlen. unfold replacePrefix, strlen. fold token.
  assert (Hbuf : length (uninitialised 1024) = 1024) by apply repeat_length.
  revert Hbuf. generalize (uninitialised 1024) as buf. intros buf Hbuf.
  destruct Hr as [s Habs|a b Hfirst].
  - rewrite (strstr_absent _ _ Habs).
    rewrite size_t_small by lia.
    rewrite memcpy_overrun by lia. reflexivity.
  - rewrite (strstr_first _ _ _ Hfirst).
    rewrite !length_app in Hs, Hlen.
    assert (Htok : length token = 9) by reflexivity.
    rewrite Htok in Hs. rewrite !length_app, Htok.
    rewrite !size_t_small by lia.
    destruct (memcpy buf 0 _ 0 _) as [b1|] eqn:E1; [|reflexivity].
    apply memcpy_length in E1. cbn [bind].
    destruct (memcpy b1 _ _ 0 _) as [b2|] eqn:E2; [|reflexivity].
    apply memcpy_length in E2. cbn [bind].
    rewrite memcpy_overrun by lia. reflexivity.
Qed.

Lemma replacePrefix_too_long_witness :
  replaced (repeat "p"%char 1020) (lit "${prefix}/lib")
    (repeat "p"%char 1020 ++ lit "/lib")
  /\ (Z.of_nat (length (lit "${prefix}/lib")) < 2 ^ 64 - 1)%Z
  /\ 1023 < length (repeat "p"%char 1020 ++ lit "/lib")
  /\ replacePrefix (Some (lit "${prefix}/lib")) (repeat "p"%char 1020)
     = Undefined.
Proof.
  assert (H1 : replaced (repeat "p"%char 1020) (lit "${prefix}/lib")
                 (repeat "p"%char 1020 ++ lit "/lib")).
  { apply (replaced_first (repeat "p"%char 1020) [] (lit "/lib")).
    intros i Hi. cbn [length] in Hi. lia. }
  assert (H2 : (Z.of_nat (length (lit "${prefix}/lib")) < 2 ^ 64 - 1)%Z)
    by (cbv; reflexivity).
  assert (H3 : 1023 < length (repeat "p"%char 1020 ++ lit "/lib")).
  { rewrite length_app, repeat_length. cbv. lia. }
  split; [exact H1|]. split; [exact H2|]. split; [exact H3|].
  exact (replacePrefix_too_long _ _ _ H1 H2 H3).
Defined.

(** ** secondsToString *)

(** X16. A time of at most 60 seconds is printed as a number of seconds,
    whatever [longness] is: the comparisons with the units are strict, so
    60 itself is [60s], and a negative time is printed as it is. *)
Theorem secondsToString_up_to_a_minute (t longness : Z) :
  (t <= 60)%Z -> (- 2 ^ 31 < longness < 2 ^ 31)%Z ->
  secondsToString t longness = fmt_d (to_int t) ++ lit "s".
Proof.
  intros Ht _. unfold secondsToString, print_unit. cbv zeta.
  change (1 * 60 * 60 * 24 * 7)%Z with 604800%Z.
  change (Z.quot 604800 7) with 86400%Z.
  change (Z.quot 86400 24) with 3600%Z.
  change (Z.quot 3600 60) with 60%Z.
  repeat match goal with
         | |- context [(t >? ?p)%Z] =>
             destruct (Z.gtb_spec t p) as [H|_]; [lia|]
         end.
  cbn [length Nat.ltb Nat.leb andb negb]. rewrite orb_true_r. reflexivity.
Qed.

Lemma secondsToString_up_to_a_minute_witness :
  (60 <= 60)%Z /\ (- 2 ^ 31 < 2 < 2 ^ 31)%Z
  /\ secondsToString 60 2 = lit "60s".
Proof.
  assert (H : (60 <= 60)%Z) by lia.
  assert (H' : (- 2 ^ 31 < 2 < 2 ^ 31)%Z) by lia.
  split; [exact H|]. split; [exact H'|].
  exact (secondsToString_up_to_a_minute 60 2 H H').
Defined.

Lemma components_cons (n : Z) (u : ascii) (w : Z) (rest : cstring) :
  unit_weight u = Some w ->
  components (fmt_d n ++ u :: " "%char :: rest) = S (components rest).
Proof.
  intros Hu. unfold components.
  change (fmt_d n ++ u :: " "%char :: rest)
    with (fmt_d n ++ [u] ++ " "%char :: rest).
  rewrite app_assoc.
  rewrite split_at_spaces_token by (now apply (component_no_space n u w)).
  reflexivity.
Qed.

Lemma components_last (n : Z) (u : ascii) (w : Z) :
  unit_weight u = Some w -> components (fmt_d n ++ [u]) = 1.
Proof.
  intros Hu. unfold components.
  now rewrite split_at_spaces_last by (now apply (component_no_space n u w)).
Qed.

(** One block of [secondsToString]: skipped, or printed as the last
    component, or printed with more to come. *)
Lemma print_unit_outcomes (p : Z) (unit : cstring) (buf : cstring)
    (t longness : Z) (k : cstring -> Z -> Z -> cstring) :
  (0 < p)%Z -> (0 <= t)%Z -> (t < p * 2 ^ 31)%Z ->
  ((t <= p)%Z /\ print_unit p unit buf t longness k = k buf t longness)
  \/ (exists q r,
        (t = p * q + r /\ 0 < q < 2 ^ 31 /\ 0 <= r < p /\ longness = 1)%Z
        /\ print_unit p unit buf t longness k = buf ++ fmt_d q ++ unit)
  \/ (exists q r,
        (t = p * q + r /\ 0 < q < 2 ^ 31 /\ 0 <= r < p /\ longness <> 1)%Z
        /\ print_unit p unit buf t longness k
           = k (buf ++ fmt_d q ++ unit ++ lit " ") r (longness - 1)%Z).
Proof.
  intros Hp Ht Hq. unfold print_unit.
  destruct (Z.gtb_spec t p) as [Hgt|Hle]; [right|left; split; auto].
  assert (Hdiv : (t / p < 2 ^ 31)%Z)
    by (apply Z.div_lt_upper_bound; lia).
  pose proof (Z.div_mod t p ltac:(lia)) as Hdm.
  pose proof (Z.mod_pos_bound t p Hp) as Hmod.
  assert (0 < t / p)%Z by (apply Z.div_str_pos; lia).
  rewrite Z.quot_div_nonneg by lia.
  rewrite to_int_small by lia.
  replace (t - t / p * p)%Z with (t mod p)%Z by lia.
  destruct (Z.eqb_spec (longness - 1) 0) as [E|E].
  - left. exists (t / p)%Z, (t mod p)%Z. split; [lia|reflexivity].
  - right. exists (t / p)%Z, (t mod p)%Z. split; [lia|].
    now rewrite <- !app_assoc.
Qed.

Ltac seconds_outcomes :=
  match goal with
  | |- context [print_unit ?p ?u ?buf ?t ?l ?k] =>
      let q := fresh "q" in
      let r := fresh "r" in
      let H := fresh "H" in
      let E := fresh "E" in
      destruct (print_unit_outcomes p u buf t l k
                  ltac:(lia) ltac:(lia) ltac:(lia))
        as [[H E]|[(q & r & H & E)|(q & r & H & E)]];
      rewrite E; clear E; cbv beta
  end.

Ltac seconds_count :=
  rewrite <- ?app_assoc; cbn [app];
  repeat erewrite components_cons by reflexivity;
  erewrite components_last by reflexivity.

(** X17. For a time [t] from 0 up to, excluded, 2^31 weeks, and every
    [longness] that can be decremented five times as an [int], the text of
    [secondsToString] reads back as a number of seconds that is at most
    [t].  It has at most [longness] components when [longness] is 1 or
    more, and it reads back as [t] itself when [longness] is 5 or more, or
    0 or less. *)
Theorem secondsToString_value (t longness : Z) :
  (0 <= t < 2 ^ 31 * 604800)%Z -> (- 2 ^ 31 + 5 <= longness < 2 ^ 31)%Z ->
  exists v,
    duration_value (secondsToString t longness) = Some v
    /\ (0 <= v <= t)%Z
    /\ ((1 <= longness)%Z ->
        (Z.of_nat (components (secondsToString t longness)) <= longness)%Z)
    /\ ((longness <= 0 \/ 5 <= longness)%Z -> v = t).
Proof.
  intros Ht _. unfold secondsToString. cbv zeta.
  change (1 * 60 * 60 * 24 * 7)%Z with 604800%Z.
  change (Z.quot 604800 7) with 86400%Z.
  change (Z.quot 86400 24) with 3600%Z.
  change (Z.quot 3600 60) with 60%Z.
  change (lit "w") with ["w"%char]. change (lit "d") with ["d"%char].
  change (lit "h") with ["h"%char]. change (lit "m") with ["m"%char].
  change (lit "s") with ["s"%char].
  repeat seconds_outcomes.
  all: change (lit " ") with [" "%char].
  all: try match goal with
           | |- context [if ?c then _ else _] => destruct c eqn:Hc
           end.
  all: try (cbn in Hc; rewrite ?orb_true_r in Hc; discriminate Hc).
  all: try (apply orb_false_iff in Hc; destruct Hc as [_ Hc];
            apply negb_false_iff, andb_true_iff in Hc; destruct Hc as [_ Hc];
            apply Z.eqb_eq in Hc;
            rewrite ?app_assoc; rewrite removelast_snoc).
  all: try rewrite to_int_small by lia.
  all: eexists; split; [seconds_value; reflexivity|].
  all: split; [lia|]. 
  all: split; [intros Hl; seconds_count; lia|intros Hl; lia].
Qed.

Lemma secondsToString_value_witness :
  (0 <= 90061 < 2 ^ 31 * 604800)%Z
  /\ (- 2 ^ 31 + 5 <= 2 < 2 ^ 31)%Z
  /\ secondsToString 90061 2 = lit "1d 1h"
  /\ exists v,
       duration_value (secondsToString 90061 2) = Some v
       /\ (0 <= v <= 90061)%Z
       /\ ((1 <= 2)%Z ->
           (Z.of_nat (components (secondsToString 90061 2)) <= 2)%Z)
       /\ ((2 <= 0 \/ 5 <= 2)%Z -> v = 90061%Z).
Proof.
  assert (H1 : (0 <= 90061 < 2 ^ 31 * 604800)%Z) by lia.
  assert (H2 : (- 2 ^ 31 + 5 <= 2 < 2 ^ 31)%Z) by lia.
  split; [exact H1|]. split; [exact H2|].
  split; [vm_compute; reflexivity|].
  exact (secondsToString_value 90061 2 H1 H2).
Defined.

(** ** abbreviateString *)

(** The array after a copy, byte by byte. *)
Lemma memcpy_nth_error (dst : buffer) (doff : Z) (src : list ascii)
    (soff n : Z) (b : buffer) :
  memcpy dst doff src soff n = Returns b ->
  forall i,
    nth_error b i
    = if ((doff <=? Z.of_nat i) && (Z.of_nat i <? doff + n))%Z
      then option_map Some
             (nth_error src (Z.to_nat (soff + (Z.of_nat i - doff))))
      else nth_error dst i.
Proof.
  unfold memcpy. destruct (_ && _ && _ && _ && _)%bool eqn:E; [|discriminate].
  rewrite !andb_true_iff, !Z.leb_le in E.
  destruct E as [[[[H1 H2] H3] H4] H5].
  intros H i. injection H as <-.
  assert (Hf : length (firstn (Z.to_nat doff) dst) = Z.to_nat doff)
    by (rewrite length_firstn; lia).
  assert (Hm : length (map Some (firstn (Z.to_nat n)
                                   (skipn (Z.to_nat soff) src)))
               = Z.to_nat n)
    by (rewrite length_map, length_firstn, length_skipn; lia).
  destruct (Z.leb_spec doff (Z.of_nat i)) as [Hd|Hd]; cbn [andb].
  - destruct (Z.ltb_spec (Z.of_nat i) (doff + n)) as [Hn|Hn].
    + rewrite nth_error_app2 by lia. rewrite nth_error_app1 by lia.
      rewrite nth_error_map, nth_error_firstn, Hf.
      destruct (Nat.ltb_spec (i - Z.to_nat doff) (Z.to_nat n)); [|lia].
      rewrite nth_error_skipn. do 2 f_equal. lia.
    + rewrite nth_error_app2 by lia. rewrite nth_error_app2 by lia.
      rewrite nth_error_skipn, Hf, Hm. f_equal. lia.
  - rewrite nth_error_app1 by lia. rewrite nth_error_firstn.
    destruct (Nat.ltb_spec i (Z.to_nat doff)); [reflexivity|lia].
Qed.

Lemma memcpy_returns (dst : buffer) (doff : Z) (src : list ascii)
    (soff n : Z) :
  (0 <= doff)%Z -> (0 <= soff)%Z -> (0 <= n)%Z ->
  (doff + n <= Z.of_nat (length dst))%Z ->
  (soff + n <= Z.of_nat (length src))%Z ->
  exists b, memcpy dst doff src soff n = Returns b.
Proof.
  intros H1 H2 H3 H4 H5. unfold memcpy.
  replace (_ && _ && _ && _ && _)%bool with true; [eexists; reflexivity|].
  symmetry. rewrite !andb_true_iff, !Z.leb_le. lia.
Qed.

Lemma memcpy_overread (dst : buffer) (doff : Z) (src : list ascii)
    (soff n : Z) :
  (Z.of_nat (length src) < soff + n)%Z ->
  memcpy dst doff src soff n = Undefined.
Proof.
  intros H. unfold memcpy.
  destruct (_ && _ && _ && _ && _)%bool eqn:E; [|reflexivity].
  rewrite !andb_true_iff, !Z.leb_le in E. lia.
Qed.

Lemma size_t_negative (z : Z) :
  (- 2 ^ 64 <= z < 0)%Z -> size_t z = (z + 2 ^ 64)%Z.
Proof.
  intros H. unfold size_t.
  rewrite <- (Z.mod_add z 1 (2 ^ 64)) by lia.
  apply Z.mod_small. lia.
Qed.

(** X18. [abbreviateString] needs a width of at least 6: for a smaller
    width and an input that is longer than it, the size of the first copy,
    [width / 2 - 3], wraps around as a [size_t], and the copy reads far
    beyond the input. *)
Theorem abbreviateString_narrow (ret : buffer) (in_ : cstring) (width : Z) :
  (0 <= width < 6)%Z ->
  (width < Z.of_nat (length in_) < 2 ^ 63)%Z ->
  abbreviateString ret in_ width = Undefined.
Proof.
  intros Hw Hlen. unfold abbreviateString, strlen.
  destruct (Z.gtb_spec (Z.of_nat (length in_)) width) as [_|H]; [|lia].
  assert (Hh : (0 <= width / 2 < 3)%Z).
  { split; [apply Z.div_pos; lia|apply Z.div_lt_upper_bound; lia]. }
  rewrite size_t_negative by lia.
  rewrite memcpy_overread; [reflexivity|].
  unfold mem. rewrite length_app. cbn [length]. lia.
Qed.

Lemma abbreviateString_narrow_witness :
  (0 <= 5 < 6)%Z
  /\ (5 < Z.of_nat (length (lit "abcdefghij")) < 2 ^ 63)%Z
  /\ abbreviateString (uninitialised 6) (lit "abcdefghij") 5 = Undefined.
Proof.
  assert (H1 : (0 <= 5 < 6)%Z) by lia.
  assert (H2 : (5 < Z.of_nat (length (lit "abcdefghij")) < 2 ^ 63)%Z)
    by (cbv; split; reflexivity).
  split; [exact H1|]. split; [exact H2|].
  exact (abbreviateString_narrow _ _ 5 H1 H2).
Defined.

(** X19. When [abbreviateString] abbreviates, it writes the bytes of
    [ret] up to the offset [width], but for one: the byte at offset
    [width / 2 - 3], between the first characters and the dots, keeps the
    value it had before the call, as do the bytes after offset [width]. *)
Theorem abbreviateString_writes (ret : buffer) (in_ : cstring) (width : Z) :
  (6 <= width < Z.of_nat (length in_))%Z ->
  (Z.of_nat (length in_) < 2 ^ 64)%Z ->
  (width + 1 <= Z.of_nat (length ret))%Z ->
  exists ret',
    abbreviateString ret in_ width = Returns ret'
    /\ length ret' = length ret
    /\ nth_error ret' (Z.to_nat (width / 2 - 3))
       = nth_error ret (Z.to_nat (width / 2 - 3))
    /\ (forall i, (width < Z.of_nat i)%Z ->
                  nth_error ret' i = nth_error ret i)
    /\ (forall i, (Z.of_nat i <= width)%Z -> i <> Z.to_nat (width / 2 - 3) ->
                  exists c, nth_error ret' i = Some (Some c)).
Proof.
  intros Hw Hlen Hret. unfold abbreviateString, strlen.
  destruct (Z.gtb_spec (Z.of_nat (length in_)) width) as [_|H]; [|lia].
  set (h := (width / 2)%Z).
  assert (Hh : (2 * h <= width <= 2 * h + 1)%Z).
  { unfold h. pose proof (Z.div_mod width 2 ltac:(lia)).
    pose proof (Z.mod_pos_bound width 2 ltac:(lia)). lia. }
  repeat match goal with
         | |- context [size_t ?z] => rewrite (size_t_small z) by lia
         end.
  assert (Hmem : Z.of_nat (length (mem in_)) = (Z.of_nat (length in_) + 1)%Z).
  { unfold mem. rewrite length_app. cbn [length]. lia. }
  assert (Hdots : length (mem (lit "...")) = 4) by reflexivity.
  destruct (memcpy_returns ret 0 (mem in_) 0 (h - 3)) as [b1 E1]; try lia.
  rewrite E1. cbn [bind].
  pose proof (memcpy_length _ _ _ _ _ _ E1) as L1.
  destruct (memcpy_returns b1 (h - 2) (mem (lit "...")) 0 3) as [b2 E2];
    try lia.
  rewrite E2. cbn [bind].
  pose proof (memcpy_length _ _ _ _ _ _ E2) as L2.
  destruct (memcpy_returns b2 (h + 1) (mem in_)
              (Z.of_nat (length in_) - (width - (h - 2) - 3))
              (Z.of_nat (length in_)
               - (Z.of_nat (length in_) - (width - (h - 2) - 3)) + 1))
    as [b3 E3]; try lia.
  rewrite E3. exists b3.
  pose proof (memcpy_length _ _ _ _ _ _ E3) as L3.
  pose proof (memcpy_nth_error _ _ _ _ _ _ E1) as N1.
  pose proof (memcpy_nth_error _ _ _ _ _ _ E2) as N2.
  pose proof (memcpy_nth_error _ _ _ _ _ _ E3) as N3.
  split; [reflexivity|]. split; [congruence|].
  assert (Hskip : forall i,
             (Z.of_nat i = h - 3 \/ width < Z.of_nat i)%Z ->
             nth_error b3 i = nth_error ret i).
  { intros i Hi. rewrite N3, N2, N1.
    repeat match goal with
           | |- context [(?a <=? ?b)%Z] => destruct (Z.leb_spec a b)
           | |- context [(?a <? ?b)%Z] => destruct (Z.ltb_spec a b)
           end; cbn [andb]; try reflexivity; lia. }
  split; [apply Hskip; lia|]. split; [intros i Hi; apply Hskip; lia|].
  intros i Hi Hne. rewrite N3, N2, N1.
  repeat match goal with
         | |- context [(?a <=? ?b)%Z] => destruct (Z.leb_spec a b)
         | |- context [(?a <? ?b)%Z] => destruct (Z.ltb_spec a b)
         end; cbn [andb]; try lia.
  all: match goal with
       | |- exists c, option_map Some (nth_error ?s ?j) = _ =>
           destruct (nth_error s j) as [c|] eqn:En;
           [exists c; reflexivity|apply nth_error_None in En]
       end.
  all: try (rewrite Hdots in En); lia.
Qed.

Lemma abbreviateString_writes_witness :
  (6 <= 8 < Z.of_nat (length (lit "abcdefghij")))%Z
  /\ (Z.of_nat (length (lit "abcdefghij")) < 2 ^ 64)%Z
  /\ (8 + 1 <= Z.of_nat (length (map Some (lit "xxxxxxxxx"))))%Z
  /\ exists ret',
       abbreviateString (map Some (lit "xxxxxxxxx")) (lit "abcdefghij") 8
       = Returns ret'
       /\ nth_error ret' 1 = Some (Some "x"%char).
Proof.
  assert (H1 : (6 <= 8 < Z.of_nat (length (lit "abcdefghij")))%Z)
    by (cbv; split; [discriminate|reflexivity]).
  assert (H2 : (Z.of_nat (length (lit "abcdefghij")) < 2 ^ 64)%Z)
    by (cbv; reflexivity).
  assert (H3 : (8 + 1 <= Z.of_nat (length (map Some (lit "xxxxxxxxx"))))%Z)
    by (cbv; discriminate).
  split; [exact H1|]. split; [exact H2|]. split; [exact H3|].
  destruct (abbreviateString_writes _ _ 8 H1 H2 H3)
    as (ret' & E & _ & Hgap & _).
  exists ret'. split; [exact E|]. exact Hgap.
Defined.

(** * Further properties of the callers of rand *)

Lemma firstn_update (buf : buffer) (c : nat) (ch : ascii) :
  c < length buf -> firstn (S c) (update buf c ch) = firstn c buf ++ [Some ch].
Proof.
  intros Hc. unfold update.
  assert (Hf : length (firstn c buf) = c) by (rewrite length_firstn; lia).
  rewrite firstn_app, Hf, firstn_all2 by lia.
  replace (S c - c) with 1 by lia. reflexivity.
Qed.

Lemma skipn_update (buf : buffer) (c k : nat) (ch : ascii) :
  c < length buf -> skipn (S c + k) (update buf c ch) = skipn (S c + k) buf.
Proof.
  intros Hc. unfold update.
  assert (Hf : length (firstn c buf) = c) by (rewrite length_firstn; lia).
  rewrite skipn_app, Hf, skipn_all2 by lia.
  replace (S c + k - c) with (S k) by lia. cbn [app].
  change (skipn (S k) (Some ch :: skipn (S c) buf))
    with (skipn k (skipn (S c) buf)).
  rewrite skipn_skipn. f_equal. lia.
Qed.

Lemma pad_nul_closed (n c : nat) (buf : buffer) :
  c + n <= length buf ->
  pad_nul n (Z.of_nat c) buf
  = Returns (firstn c buf ++ repeat (Some NUL) n ++ skipn (c + n) buf).
Proof.
  revert c buf. induction n as [|n IH]; intros c buf Hc.
  - cbn [pad_nul repeat app]. rewrite Nat.add_0_r.
    now rewrite firstn_skipn.
  - cbn [pad_nul]. rewrite store_update by lia. cbn [bind].
    replace (Z.of_nat c + 1)%Z with (Z.of_nat (S c)) by lia.
    rewrite IH by (rewrite length_update; lia).
    rewrite firstn_update, skipn_update by lia.
    rewrite <- app_assoc. cbn [app repeat].
    replace (c + S n) with (S c + n) by lia. reflexivity.
Qed.

(** X20. The sizes [fill] and [min] of [generateSalt] are computed in
    floating point and yet exactly: for every length below 2^32, the
    products [len * 0.75] and [len * 0.42], rounded to [double] and cut to
    an [unsigned int], are the integer parts of 75 [len] / 100 and of
    42 [len] / 100. *)
Theorem generateSalt_fill_min (len : Z) :
  (0 <= len < 2 ^ 32)%Z ->
  uint_of_double (double_mul (double_of_uint len) double_0_75)
  = Returns (75 * len / 100)%Z
  /\ uint_of_double (double_mul (double_of_uint len) double_0_42)
     = Returns (42 * len / 100)%Z.
Proof.
  intros H. split; [now apply fill_exact|now apply min_exact].
Qed.

Lemma generateSalt_fill_min_witness :
  (0 <= 48 < 2 ^ 32)%Z
  /\ uint_of_double (double_mul (double_of_uint 48) double_0_75)
     = Returns 36%Z
  /\ uint_of_double (double_mul (double_of_uint 48) double_0_42)
     = Returns 20%Z.
Proof.
  assert (H : (0 <= 48 < 2 ^ 32)%Z) by lia.
  split; [exact H|]. exact (generateSalt_fill_min 48 H).
Defined.

Section RandomCallersFacts.

Variable rng : Type.
Variable rand : rng -> Z * rng.

(** [rand()] returns a number between 0 and [RAND_MAX]. *)
Hypothesis rand_range : forall st, (0 <= fst (rand st) <= RAND_MAX)%Z.

Lemma draws_S (n : nat) (st : rng) :
  draws rand (S n) st
  = (fst (rand st) :: fst (draws rand n (snd (rand st))),
     snd (draws rand n (snd (rand st)))).
Proof.
  cbn [draws]. destruct (rand st) as [r st1]. cbn [fst snd].
  now destruct (draws rand n st1).
Qed.

Lemma fill_random_draws (n c : nat) (buf : buffer) (st : rng) :
  c + n <= length buf ->
  fill_random rand n (Z.of_nat c) buf st
  = Returns (firstn c buf
             ++ map (fun r => Some (salt_char r)) (fst (draws rand n st))
             ++ skipn (c + n) buf,
             snd (draws rand n st)).
Proof.
  revert c buf st. induction n as [|n IH]; intros c buf st Hc.
  - cbn [fill_random draws fst snd map app]. rewrite Nat.add_0_r.
    now rewrite firstn_skipn.
  - rewrite draws_S. cbn [fill_random fst snd map].
    pose proof (rand_range st) as Hr.
    destruct (rand st) as [r st1]. cbn [fst snd] in *.
    destruct seedChars_alphabet as (Hlen & _ & _).
    assert (Hi : (0 <= Z.rem r 62 < 62)%Z)
      by (apply Z.rem_bound_pos; unfold RAND_MAX in Hr; lia).
    rewrite Hlen.
    replace (_ && _)%bool with true
      by (symmetry; rewrite andb_true_iff, Z.leb_le, Z.ltb_lt; lia).
    rewrite store_update by lia. cbn [bind].
    replace (Z.of_nat c + 1)%Z with (Z.of_nat (S c)) by lia.
    rewrite IH by (rewrite length_update; lia).
    rewrite firstn_update, skipn_update by lia.
    rewrite <- app_assoc. cbn [app]. unfold salt_char.
    replace (c + S n) with (S c + n) by lia. reflexivity.
Qed.

(** The salt as a function of the numbers [rand] returns. *)
Lemma generateSalt_closed (buf : buffer) (len : Z) (st : rng) :
  (2 <= len < 2 ^ 32)%Z -> (len <= Z.of_nat (length buf))%Z ->
  exists size,
    (Z.of_nat size
     = fst (rand st) mod (75 * len / 100 - 42 * len / 100)
       + 42 * len / 100)%Z
    /\ (42 * len / 100 <= Z.of_nat size < 75 * len / 100)%Z
    /\ generateSalt rand buf len st
       = Returns
           (map (fun r => Some (salt_char r))
              (fst (draws rand size (snd (rand st))))
            ++ repeat (Some NUL) (Z.to_nat len - size)
            ++ skipn (Z.to_nat len) buf,
            snd (draws rand size (snd (rand st)))).
Proof.
  intros Hlen Hbuf. unfold generateSalt.
  pose proof (rand_range st) as Hr.
  destruct (rand st) as [r st1]. cbn [fst snd] in *. unfold RAND_MAX in Hr.
  rewrite fill_exact, min_exact by lia. cbn [bind].
  set (fill := (75 * len / 100)%Z) in *.
  set (min := (42 * len / 100)%Z) in *.
  assert (Hmin : (0 <= min)%Z) by (apply Z.div_pos; lia).
  assert (Hfill : (fill <= len)%Z).
  { unfold fill. apply Z.div_le_upper_bound; lia. }
  assert (Hgap : (min < fill)%Z).
  { unfold fill, min.
    pose proof (Z.div_mod (75 * len) 100 ltac:(lia)).
    pose proof (Z.mod_pos_bound (75 * len) 100 ltac:(lia)).
    pose proof (Z.div_mod (42 * len) 100 ltac:(lia)).
    pose proof (Z.mod_pos_bound (42 * len) 100 ltac:(lia)).
    assert (len = 2 \/ len = 3 \/ 4 <= len)%Z as [->|[->|H4]] by lia;
      [reflexivity|reflexivity|lia]. }
  unfold uint.
  rewrite (Z.mod_small (fill - min)) by lia.
  destruct (Z.eqb_spec (fill - min) 0) as [E|_]; [lia|].
  rewrite (Z.mod_small r (2 ^ 32)) by lia.
  pose proof (Z.mod_pos_bound r (fill - min) ltac:(lia)) as Hmod.
  rewrite (Z.mod_small (r mod (fill - min) + min)) by lia.
  set (size := (r mod (fill - min) + min)%Z) in *.
  exists (Z.to_nat size). split; [lia|]. split; [lia|].
  change 0%Z with (Z.of_nat 0).
  rewrite fill_random_draws by lia. cbn [bind fst snd firstn app].
  assert (Hd : forall n s, length (fst (draws rand n s)) = n).
  { induction n as [|n IH]; intros s; [reflexivity|].
    rewrite draws_S. cbn [fst length]. now rewrite IH. }
  match goal with
  | |- context [pad_nul _ _ ?b] =>
      pose proof (pad_nul_closed (Z.to_nat (len - size)) (Z.to_nat size) b)
        as P
  end.
  rewrite Z2Nat.id in P by lia. rewrite P; clear P.
  2:{ rewrite length_app, length_map, length_skipn, Hd. lia. }
  cbn [bind].
  f_equal. f_equal.
  set (chars := map _ _).
  assert (Hc : length chars = Z.to_nat size)
    by (unfold chars; rewrite length_map; apply Hd).
  rewrite firstn_app, firstn_all2 by lia.
  replace (Z.to_nat size - length chars) with 0 by lia.
  cbn [firstn]. rewrite app_nil_r. f_equal.
  replace (Z.to_nat (len - size)) with (Z.to_nat len - Z.to_nat size) by lia.
  f_equal.
  rewrite skipn_app, skipn_all2 by lia. cbn [app].
  rewrite skipn_skipn. f_equal. lia.
Qed.

(** X21. For a length below 2^32 and an array of at least that many
    bytes, [generateSalt] is undefined exactly for the lengths 0 and 1,
    where [fill] and [min] are both 0 and the modulus of the size is 0;
    from the length 2 on it returns. *)
Theorem generateSalt_defined_iff (buf : buffer) (len : Z) (st : rng) :
  (0 <= len < 2 ^ 32)%Z -> (len <= Z.of_nat (length buf))%Z ->
  (generateSalt rand buf len st = Undefined <-> (len < 2)%Z).
Proof.
  intros Hlen Hbuf. split.
  - intros H. destruct (Z.lt_ge_cases len 2) as [Hlt|Hge]; [exact Hlt|].
    destruct (generateSalt_closed buf len st ltac:(lia) Hbuf)
      as (size & _ & _ & E).
    rewrite E in H. discriminate H.
  - intros H. unfold generateSalt. destruct (rand st) as [r st1].
    rewrite fill_exact, min_exact by lia. cbn [bind].
    assert (len = 0 \/ len = 1)%Z as [->| ->] by lia; reflexivity.
Qed.

(** X22. The salt is a function of the numbers [rand] returns: the first
    one picks the size, between 42 and 75 percent of [len], each of the
    next [size] ones picks a character of [seedChars], and the bytes from
    [size] up to [len] are NUL.  [generateSalt] calls [rand] [size + 1]
    times and writes no byte from [len] on. *)
Theorem generateSalt_draws (buf : buffer) (len : Z) (st : rng) :
  (2 <= len < 2 ^ 32)%Z -> (len <= Z.of_nat (length buf))%Z ->
  exists size,
    (Z.of_nat size
     = fst (rand st) mod (75 * len / 100 - 42 * len / 100)
       + 42 * len / 100)%Z
    /\ generateSalt rand buf len st
       = Returns
           (map (fun r => Some (salt_char r)) (tl (fst (draws rand (S size) st)))
            ++ repeat (Some NUL) (Z.to_nat len - size)
            ++ skipn (Z.to_nat len) buf,
            snd (draws rand (S size) st)).
Proof.
  intros Hlen Hbuf.
  destruct (generateSalt_closed buf len st Hlen Hbuf) as (size & Hs & _ & E).
  exists size. split; [exact Hs|]. rewrite draws_S. exact E.
Qed.

Lemma draws_range (n : nat) (st : rng) :
  Forall (fun r => (0 <= r <= RAND_MAX)%Z) (fst (draws rand n st)).
Proof.
  revert st. induction n as [|n IH]; intros st; [constructor|].
  rewrite draws_S. cbn [fst]. constructor; [apply rand_range|apply IH].
Qed.

Lemma draws_length (n : nat) (st : rng) :
  length (fst (draws rand n st)) = n.
Proof.
  revert st. induction n as [|n IH]; intros st; [reflexivity|].
  rewrite draws_S. cbn [fst length]. now rewrite IH.
Qed.

Lemma salt_char_alphanumeric (r : Z) :
  (0 <= r <= RAND_MAX)%Z -> alphanumeric (salt_char r).
Proof.
  intros Hr. destruct seedChars_alphabet as (Hlen & _ & Halpha).
  rewrite Forall_forall in Halpha. apply Halpha. unfold salt_char.
  apply nth_In. rewrite Hlen.
  pose proof (Z.rem_bound_pos r 62 ltac:(lia) ltac:(lia)). lia.
Qed.

Lemma read_bytes_map (s : list ascii) (rest : buffer) :
  read_bytes (map Some s ++ rest) (length s) = Returns s.
Proof.
  induction s as [|c s IH]; [reflexivity|].
  cbn [map app length read_bytes]. now rewrite IH.
Qed.

(** X23. [generatePassphraseFile] is defined for every state of the
    generator.  It asks [fopen] for the file in mode [w]; when the file
    opens, it hands [fwrite] 48 bytes, between 20 and 35 alphanumeric
    characters followed by NUL bytes, and closes the stream whether or
    not they were written.  It returns NULL exactly when the file opened
    and [fwrite] answered 48 or more, and otherwise the message of the
    step that failed, cut to 511 characters. *)
Theorem generatePassphraseFile_calls (path : cstring) (env : stdio_answers)
    (st : rng) :
  exists (chars : cstring) (st' : rng),
    20 <= length chars < 36
    /\ Forall alphanumeric chars
    /\ generatePassphraseFile rand path env st
       = Returns
           (if opens env
            then (if (written env <? 48)%Z
                  then Some (firstn 511 (lit "cannot write secret: "
                                         ++ write_error env))
                  else None,
                  [call_fopen path (lit "w") true;
                   call_fwrite (chars ++ repeat NUL (48 - length chars))
                     (written env);
                   call_fclose], st')
            else (Some (firstn 511 (lit "unable to open '" ++ path
                                    ++ lit "': " ++ open_error env)),
                  [call_fopen path (lit "w") false], st')).
Proof.
  unfold generatePassphraseFile. cbv zeta.
  destruct (generateSalt_closed (uninitialised 48) 48 st
              ltac:(lia) ltac:(cbv; discriminate))
    as (size & _ & Hsize & E).
  rewrite E. cbn [bind].
  change (42 * 48 / 100)%Z with 20%Z in Hsize.
  change (75 * 48 / 100)%Z with 36%Z in Hsize.
  set (rs := fst (draws rand size (snd (rand st)))).
  exists (map salt_char rs), (snd (draws rand size (snd (rand st)))).
  assert (Hl : length (map salt_char rs) = size)
    by (rewrite length_map; apply draws_length).
  split; [lia|]. split.
  { apply Forall_map. eapply Forall_impl; [|apply draws_range].
    exact salt_char_alphanumeric. }
  destruct (opens env); cbn [negb]; [|reflexivity].
  change (Z.to_nat 48) with 48.
  change (skipn 48 (uninitialised 48)) with (@nil (option ascii)).
  rewrite app_nil_r.
  replace (map (fun r => Some (salt_char r)) rs)
    with (map Some (map salt_char rs)) by (now rewrite map_map).
  rewrite <- (map_repeat NUL (48 - size) Some), <- map_app.
  pose proof (read_bytes_map (map salt_char rs ++ repeat NUL (48 - size)) [])
    as R.
  rewrite app_nil_r, length_app, repeat_length, Hl in R.
  replace (size + (48 - size)) with 48 in R by lia.
  rewrite R. cbn [bind]. rewrite Hl.
  destruct (written env <? 48)%Z; reflexivity.
Qed.

End RandomCallersFacts.

Lemma lcg_range (st : Z) : (0 <= fst (lcg st) <= RAND_MAX)%Z.
Proof.
  unfold lcg, RAND_MAX. cbn [fst].
  pose proof (Z.mod_pos_bound (st * 1103515245 + 12345) (2 ^ 31)
                ltac:(lia)). lia.
Qed.

Lemma generateSalt_defined_iff_witness :
  (forall st, (0 <= fst (lcg st) <= RAND_MAX)%Z)
  /\ (0 <= 2 < 2 ^ 32)%Z
  /\ (2 <= Z.of_nat (length (uninitialised 2)))%Z
  /\ (generateSalt lcg (uninitialised 2) 2 1%Z = Undefined <-> (2 < 2)%Z).
Proof.
  assert (H2 : (0 <= 2 < 2 ^ 32)%Z) by lia.
  assert (H3 : (2 <= Z.of_nat (length (uninitialised 2)))%Z)
    by (cbv; discriminate).
  split; [exact lcg_range|]. split; [exact H2|]. split; [exact H3|].
  exact (generateSalt_defined_iff Z lcg lcg_range _ 2 1%Z H2 H3).
Defined.

Lemma generateSalt_draws_witness :
  (forall st, (0 <= fst (lcg st) <= RAND_MAX)%Z)
  /\ (2 <= 48 < 2 ^ 32)%Z
  /\ (48 <= Z.of_nat (length (uninitialised 48)))%Z
  /\ exists size,
       (Z.of_nat size
        = fst (lcg 1) mod (75 * 48 / 100 - 42 * 48 / 100)
          + 42 * 48 / 100)%Z
       /\ generateSalt lcg (uninitialised 48) 48 1%Z
          = Returns
              (map (fun r => Some (salt_char r))
                 (tl (fst (draws lcg (S size) 1%Z)))
               ++ repeat (Some NUL) (Z.to_nat 48 - size)
               ++ skipn (Z.to_nat 48) (uninitialised 48),
               snd (draws lcg (S size) 1%Z)).
Proof.
  assert (H2 : (2 <= 48 < 2 ^ 32)%Z) by lia.
  assert (H3 : (48 <= Z.of_nat (length (uninitialised 48)))%Z)
    by (cbv; discriminate).
  split; [exact lcg_range|]. split; [exact H2|]. split; [exact H3|].
  exact (generateSalt_draws Z lcg lcg_range _ 48 1%Z H2 H3).
Defined.

Lemma generatePassphraseFile_calls_witness :
  (forall st, (0 <= fst (lcg st) <= RAND_MAX)%Z)
  /\ exists (chars : cstring) (st' : Z),
       20 <= length chars < 36
       /\ Forall alphanumeric chars
       /\ generatePassphraseFile lcg (lit "/tmp/.vaultkey")
            (mk_stdio_answers true 48 [] []) 1%Z
          = Returns
              (None,
               [call_fopen (lit "/tmp/.vaultkey") (lit "w") true;
                call_fwrite (chars ++ repeat NUL (48 - length chars)) 48;
                call_fclose], st').
Proof.
  split; [exact lcg_range|].
  exact (generatePassphraseFile_calls Z lcg lcg_range (lit "/tmp/.vaultkey")
           (mk_stdio_answers true 48 [] []) 1%Z).
Defined.


(** ** generateUUID *)

Lemma is_hex_digit (d : Z) :
  (0 <= d < 16)%Z -> is_hex (hex_digit d) = true.
Proof.
  intros H. unfold hex_digit.
  assert (Hn : Z.to_nat d < 16) by lia. revert Hn.
  generalize (Z.to_nat d) as n. intros n Hn.
  do 16 (destruct n as [|n]; [reflexivity|]). lia.
Qed.

Lemma is_hex_not_NUL (c : ascii) : is_hex c = true -> c <> NUL.
Proof. intros H ->. discriminate H. Qed.

(** The digits [%x] prints for a number below 16^k: at least one, at most
    [k], all of them hexadecimal. *)
Lemma fmt_x_digits_spec (k fuel : nat) (z : Z) (acc : cstring) :
  1 <= k <= fuel -> (0 <= z < 16 ^ Z.of_nat k)%Z ->
  exists ds,
    fmt_x_digits fuel z acc = ds ++ acc
    /\ 1 <= length ds <= k /\ forallb is_hex ds = true.
Proof.
  revert fuel z acc. induction k as [|k IH]; intros fuel z acc Hk Hz; [lia|].
  destruct fuel as [|fuel]; [lia|]. cbn [fmt_x_digits].
  assert (Hd : is_hex (hex_digit (z mod 16)) = true)
    by (apply is_hex_digit; apply Z.mod_pos_bound; lia).
  destruct (Z.eqb_spec (z / 16) 0) as [E|E].
  - exists [hex_digit (z mod 16)]. split; [reflexivity|].
    split; [cbn [length]; lia|]. cbn [forallb]. now rewrite Hd.
  - assert (Hk' : 1 <= k).
    { destruct k as [|k]; [|lia]. exfalso. apply E.
      apply Z.div_small. change (16 ^ Z.of_nat 1)%Z with 16%Z in Hz. lia. }
    destruct (IH fuel (z / 16)%Z (hex_digit (z mod 16) :: acc) ltac:(lia))
      as (ds & -> & Hl & Hh).
    { split; [apply Z.div_pos; lia|].
      apply Z.div_lt_upper_bound; [lia|].
      replace (Z.of_nat (S k)) with (Z.of_nat k + 1)%Z in Hz by lia.
      rewrite Z.pow_add_r in Hz by lia. lia. }
    exists (ds ++ [hex_digit (z mod 16)]). split; [now rewrite <- app_assoc|].
    split; [rewrite length_app; cbn [length]; lia|].
    rewrite forallb_app, Hh. cbn [forallb]. now rewrite Hd.
Qed.

Lemma fmt_04x_group (z : Z) :
  (0 <= z < 65536)%Z -> hex_group (fmt_04x z) = true.
Proof.
  intros Hz. unfold fmt_04x, uint. rewrite Z.mod_small by lia.
  destruct (fmt_x_digits_spec 4 8 z [] ltac:(lia) ltac:(cbn; lia))
    as (ds & -> & Hl & Hh).
  rewrite app_nil_r. cbv zeta. unfold hex_group.
  rewrite length_app, repeat_length, forallb_app, Hh.
  replace (4 - length ds + length ds) with 4 by lia.
  rewrite andb_true_r. cbn [Nat.eqb andb].
  generalize (4 - length ds) as n.
  induction n as [|n IH]; [reflexivity|exact IH].
Qed.

Lemma hex_group_inv (g : cstring) :
  hex_group g = true ->
  exists a b c d,
    g = [a; b; c; d]
    /\ is_hex a = true /\ is_hex b = true
    /\ is_hex c = true /\ is_hex d = true.
Proof.
  unfold hex_group. rewrite andb_true_iff, Nat.eqb_eq. intros [Hl Hh].
  destruct g as [|a [|b [|c [|d [|e g]]]]]; try discriminate Hl.
  cbn [forallb] in Hh. rewrite !andb_true_iff in Hh.
  exists a, b, c, d. tauto.
Qed.

(** A text that fits is written after the characters the array holds, with
    its terminator. *)
Lemma snprintf_at_append (acc : cstring) (rest : buffer) (size : nat)
    (text : cstring) :
  length text < size -> length text + 1 <= length rest ->
  snprintf_at (map Some acc ++ rest) (Z.of_nat (length acc)) size text
  = Returns (map Some (acc ++ text)
             ++ Some NUL :: skipn (length text + 1) rest,
             Z.of_nat (length text)).
Proof.
  intros Hsize Hrest. unfold snprintf_at, snprintf. cbv zeta.
  rewrite firstn_all2 by lia.
  rewrite <- (firstn_skipn (length text + 1) rest) at 1.
  pose proof (memcpy_segment (map Some acc)
                (firstn (length text + 1) rest)
                (skipn (length text + 1) rest) (mem text) 0
                (Z.of_nat (length (mem text))) ltac:(lia)) as M.
  rewrite length_map in M. rewrite M; clear M.
  - cbn [bind]. do 2 f_equal.
    change (Z.to_nat 0) with 0. cbn [skipn].
    rewrite Nat2Z.id, firstn_all. unfold mem.
    rewrite !map_app, <- !app_assoc. reflexivity.
  - rewrite length_firstn. unfold mem. rewrite length_app. cbn [length]. lia.
  - lia.
Qed.

Section UUIDFacts.

Variable rng : Type.
Variable rand : rng -> Z * rng.

(** [rand()] returns a number between 0 and [RAND_MAX]. *)
Hypothesis rand_range : forall st, (0 <= fst (rand st) <= RAND_MAX)%Z.

Lemma uuid_group_step (size : nat) (suffix acc : cstring) (rest : buffer)
    (st : rng) :
  length suffix + 4 < size -> length suffix + 5 <= length rest ->
  exists g tail,
    hex_group g = true
    /\ length tail + (length suffix + 5) = length rest
    /\ uuid_group rand size suffix
         (map Some acc ++ rest, Z.of_nat (length acc), st)
       = Returns (map Some (acc ++ g ++ suffix) ++ Some NUL :: tail,
                  Z.of_nat (length (acc ++ g ++ suffix)), snd (rand st)).
Proof.
  intros Hsize Hrest. unfold uuid_group.
  pose proof (rand_range st) as Hr.
  destruct (rand st) as [r st1]. cbn [fst snd] in *. unfold RAND_MAX in Hr.
  assert (Hg : hex_group (fmt_04x (Z.rem r 65536)) = true).
  { apply fmt_04x_group. apply Z.rem_bound_pos; lia. }
  set (g := fmt_04x (Z.rem r 65536)) in *.
  assert (Hl : length g = 4).
  { destruct (hex_group_inv g Hg) as (a & b & c & d & -> & _). reflexivity. }
  exists g, (skipn (length (g ++ suffix) + 1) rest).
  split; [exact Hg|]. split.
  - rewrite length_skipn, length_app. lia.
  - rewrite snprintf_at_append by (rewrite length_app; lia).
    cbn [bind fst snd]. rewrite !length_app.
    now rewrite (Nat2Z.inj_add (length acc)).
Qed.

(** X24. Without libuuid, [generateUUID] returns a string of 36
    characters in the layout of a UUID, for every state of the generator:
    groups of 8, 4, 4, 4 and 12 lowercase hexadecimal digits with a hyphen
    between them.  It calls [rand] eight times. *)
Theorem generateUUID_shape (st : rng) :
  exists s,
    generateUUID rand st = Returns (s, snd (draws rand 8 st))
    /\ length s = 36
    /\ matches_pattern s uuid_pattern = true.
Proof.
  unfold generateUUID, strdup.
  assert (H0 : length (uninitialised 37) = 37) by reflexivity.
  revert H0. generalize (uninitialised 37) as r0. intros r0 H0.
  change (r0, 0%Z, st)
    with (map Some [] ++ r0, Z.of_nat (@length ascii []), st).
  change (lit "-") with ["-"%char].
  do 8 (match goal with
        | |- context [uuid_group rand ?size ?suffix
                        (map Some ?acc ++ ?rest, _, ?s)] =>
            let g := fresh "g" in
            let tail := fresh "tail" in
            let G := fresh "G" in
            let L := fresh "L" in
            destruct (uuid_group_step size suffix acc rest s
                        ltac:(cbn [length]; lia) ltac:(cbn [length]; lia))
              as (g & tail & G & L & ->);
            cbn [length] in L; cbn [bind]
        end).
  cbn [fst snd].
  repeat match goal with
         | G : hex_group ?g = true |- _ =>
             let a := fresh "a" in
             let b := fresh "b" in
             let c := fresh "c" in
             let d := fresh "d" in
             destruct (hex_group_inv g G) as (a & b & c & d & -> & ? & ? & ? & ?);
             clear G
         end.
  cbn [app].
  match goal with
  | |- context [buffer_cstr (map Some ?s ++ Some NUL :: ?t)] =>
      change (map Some s ++ Some NUL :: t)
        with (map Some (s ++ [NUL]) ++ t);
      exists s
  end.
  rewrite buffer_cstr_terminated.
  - cbn [bind]. split; [|split; [reflexivity|]].
    + rewrite !draws_S. reflexivity.
    + unfold uuid_pattern. change (lit "xxxxxxxx-xxxx-xxxx-xxxx-xxxxxxxxxxxx")
        with (list_ascii_of_string "xxxxxxxx-xxxx-xxxx-xxxx-xxxxxxxxxxxx").
      cbn [list_ascii_of_string matches_pattern].
      repeat match goal with
             | H : is_hex _ = true |- _ => rewrite H; clear H
             end.
      reflexivity.
  - repeat (apply Forall_cons;
            [first [now apply is_hex_not_NUL | discriminate]|]).
    apply Forall_nil.
Qed.

End UUIDFacts.

Lemma generateUUID_shape_witness :
  (forall st, (0 <= fst (lcg st) <= RAND_MAX)%Z)
  /\ generateUUID lcg 1%Z
     = Returns (lit "7ea6b0e7-e494-9b3d-df32-7483b600ae39",
                snd (draws lcg 8 1%Z))
  /\ exists s,
       generateUUID lcg 1%Z = Returns (s, snd (draws lcg 8 1%Z))
       /\ length s = 36
       /\ matches_pattern s uuid_pattern = true.
Proof.
  split; [exact lcg_range|]. split; [vm_compute; reflexivity|].
  exact (generateUUID_shape Z lcg lcg_range 1%Z).
Defined.
